(** * stockfish-cluster: the job server of [src/server.py]

    A shallow embedding of the cluster server: the UCI line parsers, the
    job record and its external view, the SQLite job store, the engine
    driver [EngineJobRunner.run] and the scheduler of [ClusterServer],
    followed by the properties proved about them.

    Conventions of the embedding.
    - A Python [str] is a [string]; a character is its code point, kept
      in the range 0..255.
    - A Python [int] is a [Z].
    - A Python [dict] with few keys (the parsed fields, the per-multipv
      table) is an association list in insertion order, without
      duplicate keys; the job table and the table of active runners are
      [gmap]s keyed by job id.
    - An exception is an explicit result: [None], [Raise msg] or
      [Raised s].
    - [epoch_ms()] reads a clock oracle [clock : nat -> Z], the n-th call
      of a run returning [clock n]. *)

From Stdlib Require Import ZArith String Ascii List Lia DecimalString DecimalPos.
From stdpp Require Import gmap strings list.

Local Open Scope string_scope.
Local Open Scope list_scope.
Local Open Scope Z_scope.

(** ** Python primitives on strings *)

(** [str.isspace] on the code points below 256. *)
Definition py_isspace (c : ascii) : bool :=
  let n := N_of_ascii c in
  ((9 <=? n) && (n <=? 13) || (28 <=? n) && (n <=? 32)
   || (n =? 133) || (n =? 160))%N.

Definition str_is_empty (s : string) : bool :=
  match s with EmptyString => true | String _ _ => false end.

(** [str.split()] without argument: the maximal runs of non-space
    characters, left to right.  [cur] is the run being read. *)
Fixpoint py_split_from (cur : string) (s : string) : list string :=
  match s with
  | EmptyString => if str_is_empty cur then [] else [cur]
  | String c s' =>
      if py_isspace c
      then (if str_is_empty cur then py_split_from EmptyString s'
            else cur :: py_split_from EmptyString s')
      else py_split_from (cur +:+ String c EmptyString) s'
  end.

Definition py_split (s : string) : list string := py_split_from EmptyString s.

Fixpoint py_lstrip (s : string) : string :=
  match s with
  | EmptyString => EmptyString
  | String c s' => if py_isspace c then py_lstrip s' else s
  end.

Fixpoint py_rstrip (s : string) : string :=
  match s with
  | EmptyString => EmptyString
  | String c s' =>
      let r := py_rstrip s' in
      if py_isspace c && str_is_empty r then EmptyString else String c r
  end.

(** [str.strip()]. *)
Definition py_strip (s : string) : string := py_rstrip (py_lstrip s).

(** [s.startswith(p)]. *)
Definition py_startswith (p s : string) : bool := String.prefix p s.

(** [sep.join(parts)]. *)
Fixpoint py_join (sep : string) (parts : list string) : string :=
  match parts with
  | [] => EmptyString
  | [p] => p
  | p :: rest => p +:+ sep +:+ py_join sep rest
  end.

Definition digit_of (c : ascii) : option Z :=
  let n := N_of_ascii c in
  if ((48 <=? n) && (n <=? 57))%N then Some (Z.of_N n - 48) else None.

(** The digits of an integer literal: decimal digits, single underscores
    allowed between two digits.  [prev] tells whether the previous
    character was a digit. *)
Fixpoint int_digits (s : string) (acc : Z) (prev : bool) : option Z :=
  match s with
  | EmptyString => if prev then Some acc else None
  | String c s' =>
      match digit_of c with
      | Some d => int_digits s' (acc * 10 + d) true
      | None =>
          if Ascii.eqb c "_"%char && prev then int_digits s' acc false
          else None
      end
  end.

(** The white space [int()] drops around a literal: that of [str.isspace]
    without the separators U+001C to U+001F. *)
Definition int_isspace (c : ascii) : bool :=
  let n := N_of_ascii c in
  ((9 <=? n) && (n <=? 13) || (n =? 32) || (n =? 133) || (n =? 160))%N.

Fixpoint int_lstrip (s : string) : string :=
  match s with
  | EmptyString => EmptyString
  | String c s' => if int_isspace c then int_lstrip s' else s
  end.

Fixpoint int_rstrip (s : string) : string :=
  match s with
  | EmptyString => EmptyString
  | String c s' =>
      let r := int_rstrip s' in
      if int_isspace c && str_is_empty r then EmptyString else String c r
  end.

(** [int(s)] on a [str], base 10: surrounding white space is dropped, one
    sign is allowed.  [None] stands for [ValueError].  The bound that
    Python 3.11 and later put on the number of digits (4300 unless
    configured) is left out. *)
Definition py_int (s : string) : option Z :=
  match int_rstrip (int_lstrip s) with
  | String "+" body => int_digits body 0 false
  | String "-" body => Z.opp <$> int_digits body 0 false
  | body => int_digits body 0 false
  end.

(** [str(z)] on an [int]. *)
Definition py_str_int (z : Z) : string := NilZero.string_of_int (Z.to_int z).

(** ** Python dicts as ordered association lists *)

Section Dict.
Context {K V : Type} `{EqDecision K}.

(** [d.get(k)]. *)
Fixpoint dict_get (k : K) (d : list (K * V)) : option V :=
  match d with
  | [] => None
  | (k', v) :: d' => if decide (k = k') then Some v else dict_get k d'
  end.

(** [d[k] = v]: an existing key keeps its place, a new key goes last. *)
Fixpoint dict_set (k : K) (v : V) (d : list (K * V)) : list (K * V) :=
  match d with
  | [] => [(k, v)]
  | (k', v') :: d' =>
      if decide (k = k') then (k, v) :: d' else (k', v') :: dict_set k v d'
  end.

(** [d.update(upd)]. *)
Definition dict_update (d upd : list (K * V)) : list (K * V) :=
  fold_left (fun acc kv => dict_set (fst kv) (snd kv) acc) upd d.

(** [k in d]. *)
Definition dict_mem (k : K) (d : list (K * V)) : bool :=
  match dict_get k d with Some _ => true | None => false end.

Definition dict_keys (d : list (K * V)) : list K := map fst d.
End Dict.

(** [JsonVal = Union[int, str]]. *)
Inductive JsonVal : Type :=
| JInt (z : Z)
| JStr (s : string).

#[global] Instance JsonVal_eq_dec : EqDecision JsonVal.
Proof. solve_decision. Defined.

(** [Dict[str, JsonVal]]. *)
Abbreviation Fields := (list (string * JsonVal)).

(** Truth value of a [JsonVal], as [or] and [if] see it. *)
Definition json_truthy (v : JsonVal) : bool :=
  match v with
  | JInt z => negb (Z.eqb z 0)
  | JStr s => negb (str_is_empty s)
  end.

(** [int(v)] on a [JsonVal]. *)
Definition json_int (v : JsonVal) : option Z :=
  match v with
  | JInt z => Some z
  | JStr s => py_int s
  end.

(** [str(v)] on a [JsonVal]. *)
Definition json_str (v : JsonVal) : string :=
  match v with
  | JInt z => py_str_int z
  | JStr s => s
  end.

(** ** The UCI line parsers *)

(** The loop of [parse_info_line] over the tokens from index [i] on; the
    list is [tokens[i:]].  [None] is the [ValueError] of [int()]. *)
Fixpoint parse_info_tokens (toks : list string) (out : Fields) : option Fields :=
  match toks with
  | [] => Some out
  | tok :: rest =>
      if String.eqb tok "depth" && negb (bool_decide (rest = [])) then
        match rest with
        | v :: rest' =>
            z ← py_int v; parse_info_tokens rest' (dict_set "depth" (JInt z) out)
        | [] => parse_info_tokens rest out
        end
      else if String.eqb tok "seldepth" && negb (bool_decide (rest = [])) then
        match rest with
        | v :: rest' =>
            z ← py_int v; parse_info_tokens rest' (dict_set "seldepth" (JInt z) out)
        | [] => parse_info_tokens rest out
        end
      else if String.eqb tok "score" && bool_decide (2 <= length rest)%nat then
        match rest with
        | stype :: sval :: rest' =>
            if String.eqb stype "cp" then
              z ← py_int sval;
              parse_info_tokens rest' (dict_set "score_cp" (JInt z) out)
            else if String.eqb stype "mate" then
              z ← py_int sval;
              parse_info_tokens rest' (dict_set "score_mate" (JInt z) out)
            else parse_info_tokens rest' out
        | _ => parse_info_tokens rest out
        end
      else if String.eqb tok "nodes" && negb (bool_decide (rest = [])) then
        match rest with
        | v :: rest' =>
            z ← py_int v; parse_info_tokens rest' (dict_set "nodes" (JInt z) out)
        | [] => parse_info_tokens rest out
        end
      else if String.eqb tok "nps" && negb (bool_decide (rest = [])) then
        match rest with
        | v :: rest' =>
            z ← py_int v; parse_info_tokens rest' (dict_set "nps" (JInt z) out)
        | [] => parse_info_tokens rest out
        end
      else if String.eqb tok "multipv" && negb (bool_decide (rest = [])) then
        match rest with
        | v :: rest' =>
            z ← py_int v; parse_info_tokens rest' (dict_set "multipv" (JInt z) out)
        | [] => parse_info_tokens rest out
        end
      else if String.eqb tok "pv" && negb (bool_decide (rest = [])) then
        Some (dict_set "pv" (JStr (py_join " " rest)) out)
      else parse_info_tokens rest out
  end.

Definition parse_info_line (line : string) : option Fields :=
  parse_info_tokens (py_split line) [].

Definition parse_bestmove_line (line : string) : Fields :=
  match py_split line with
  | _ :: p1 :: _ => [("bestmove", JStr p1)]
  | _ => []
  end.

(** ** Job status values *)

Definition JOB_PENDING : Z := 0.
Definition JOB_QUEUED : Z := 1.
Definition JOB_RUNNING : Z := 2.
Definition JOB_FINISHED : Z := 3.
Definition JOB_ERROR : Z := 4.
Definition JOB_CANCELLED : Z := 5.
Definition JOB_STOPPED : Z := 6.

Definition SERVER_ONLINE : Z := 1.
Definition SERVER_DEGRADED : Z := 2.

(** [status in (JOB_FINISHED, JOB_ERROR, JOB_CANCELLED, JOB_STOPPED)]. *)
Definition is_terminal (status : Z) : bool :=
  Z.eqb status JOB_FINISHED || Z.eqb status JOB_ERROR
  || Z.eqb status JOB_CANCELLED || Z.eqb status JOB_STOPPED.

(** ** Job records *)

Record PendingJob : Type := {
  job_id : string;
  job_opponent : string;
  job_fen : string;
  job_limit_type : Z;
  job_limit_value : Z;
  job_multipv : Z
}.

(** A key of [last_by_mpv]: an [int] at run time, a [str] once the table
    has been through JSON. *)
Inductive MpvKey : Type :=
| KInt (z : Z)
| KStr (s : string).

#[global] Instance MpvKey_eq_dec : EqDecision MpvKey.
Proof. solve_decision. Defined.

Record JobRecord : Type := {
  rec_job_id : string;
  rec_opponent : string;
  rec_fen : string;
  rec_limit_type : Z;
  rec_limit_value : Z;
  rec_multipv : Z;
  rec_status : Z;
  rec_created_at_ms : Z;
  rec_started_at_ms : option Z;
  rec_finished_at_ms : option Z;
  rec_last_update_ms : Z;
  rec_last_by_mpv : list (MpvKey * Fields);
  rec_bestmove : string;
  rec_log : list string;        (* the deque, oldest first *)
  rec_log_maxlen : nat          (* its [maxlen] *)
}.

(** [JobRecord(job_id=...)] with every other field at its default; the two
    clock readings are those of the default factories, in field order. *)
Definition new_record (id : string) (t_created t_last : Z) : JobRecord :=
  {| rec_job_id := id; rec_opponent := EmptyString; rec_fen := EmptyString;
     rec_limit_type := 0; rec_limit_value := 0; rec_multipv := 1;
     rec_status := JOB_PENDING;
     rec_created_at_ms := t_created; rec_started_at_ms := None;
     rec_finished_at_ms := None; rec_last_update_ms := t_last;
     rec_last_by_mpv := []; rec_bestmove := EmptyString;
     rec_log := []; rec_log_maxlen := 2000 |}.

Definition set_status (v : Z) (r : JobRecord) : JobRecord :=
  {| rec_job_id := rec_job_id r; rec_opponent := rec_opponent r;
     rec_fen := rec_fen r; rec_limit_type := rec_limit_type r;
     rec_limit_value := rec_limit_value r; rec_multipv := rec_multipv r;
     rec_status := v;
     rec_created_at_ms := rec_created_at_ms r;
     rec_started_at_ms := rec_started_at_ms r;
     rec_finished_at_ms := rec_finished_at_ms r;
     rec_last_update_ms := rec_last_update_ms r;
     rec_last_by_mpv := rec_last_by_mpv r; rec_bestmove := rec_bestmove r;
     rec_log := rec_log r; rec_log_maxlen := rec_log_maxlen r |}.

Definition set_started_at_ms (v : option Z) (r : JobRecord) : JobRecord :=
  {| rec_job_id := rec_job_id r; rec_opponent := rec_opponent r;
     rec_fen := rec_fen r; rec_limit_type := rec_limit_type r;
     rec_limit_value := rec_limit_value r; rec_multipv := rec_multipv r;
     rec_status := rec_status r;
     rec_created_at_ms := rec_created_at_ms r;
     rec_started_at_ms := v;
     rec_finished_at_ms := rec_finished_at_ms r;
     rec_last_update_ms := rec_last_update_ms r;
     rec_last_by_mpv := rec_last_by_mpv r; rec_bestmove := rec_bestmove r;
     rec_log := rec_log r; rec_log_maxlen := rec_log_maxlen r |}.

Definition set_finished_at_ms (v : option Z) (r : JobRecord) : JobRecord :=
  {| rec_job_id := rec_job_id r; rec_opponent := rec_opponent r;
     rec_fen := rec_fen r; rec_limit_type := rec_limit_type r;
     rec_limit_value := rec_limit_value r; rec_multipv := rec_multipv r;
     rec_status := rec_status r;
     rec_created_at_ms := rec_created_at_ms r;
     rec_started_at_ms := rec_started_at_ms r;
     rec_finished_at_ms := v;
     rec_last_update_ms := rec_last_update_ms r;
     rec_last_by_mpv := rec_last_by_mpv r; rec_bestmove := rec_bestmove r;
     rec_log := rec_log r; rec_log_maxlen := rec_log_maxlen r |}.

Definition set_last_update_ms (v : Z) (r : JobRecord) : JobRecord :=
  {| rec_job_id := rec_job_id r; rec_opponent := rec_opponent r;
     rec_fen := rec_fen r; rec_limit_type := rec_limit_type r;
     rec_limit_value := rec_limit_value r; rec_multipv := rec_multipv r;
     rec_status := rec_status r;
     rec_created_at_ms := rec_created_at_ms r;
     rec_started_at_ms := rec_started_at_ms r;
     rec_finished_at_ms := rec_finished_at_ms r;
     rec_last_update_ms := v;
     rec_last_by_mpv := rec_last_by_mpv r; rec_bestmove := rec_bestmove r;
     rec_log := rec_log r; rec_log_maxlen := rec_log_maxlen r |}.

Definition set_last_by_mpv (v : list (MpvKey * Fields)) (r : JobRecord) : JobRecord :=
  {| rec_job_id := rec_job_id r; rec_opponent := rec_opponent r;
     rec_fen := rec_fen r; rec_limit_type := rec_limit_type r;
     rec_limit_value := rec_limit_value r; rec_multipv := rec_multipv r;
     rec_status := rec_status r;
     rec_created_at_ms := rec_created_at_ms r;
     rec_started_at_ms := rec_started_at_ms r;
     rec_finished_at_ms := rec_finished_at_ms r;
     rec_last_update_ms := rec_last_update_ms r;
     rec_last_by_mpv := v; rec_bestmove := rec_bestmove r;
     rec_log := rec_log r; rec_log_maxlen := rec_log_maxlen r |}.

Definition set_bestmove (v : string) (r : JobRecord) : JobRecord :=
  {| rec_job_id := rec_job_id r; rec_opponent := rec_opponent r;
     rec_fen := rec_fen r; rec_limit_type := rec_limit_type r;
     rec_limit_value := rec_limit_value r; rec_multipv := rec_multipv r;
     rec_status := rec_status r;
     rec_created_at_ms := rec_created_at_ms r;
     rec_started_at_ms := rec_started_at_ms r;
     rec_finished_at_ms := rec_finished_at_ms r;
     rec_last_update_ms := rec_last_update_ms r;
     rec_last_by_mpv := rec_last_by_mpv r; rec_bestmove := v;
     rec_log := rec_log r; rec_log_maxlen := rec_log_maxlen r |}.

Definition set_log (v : list string) (n : nat) (r : JobRecord) : JobRecord :=
  {| rec_job_id := rec_job_id r; rec_opponent := rec_opponent r;
     rec_fen := rec_fen r; rec_limit_type := rec_limit_type r;
     rec_limit_value := rec_limit_value r; rec_multipv := rec_multipv r;
     rec_status := rec_status r;
     rec_created_at_ms := rec_created_at_ms r;
     rec_started_at_ms := rec_started_at_ms r;
     rec_finished_at_ms := rec_finished_at_ms r;
     rec_last_update_ms := rec_last_update_ms r;
     rec_last_by_mpv := rec_last_by_mpv r; rec_bestmove := rec_bestmove r;
     rec_log := v; rec_log_maxlen := n |}.

(** The last [n] elements of a list. *)
Definition last_n {A : Type} (n : nat) (l : list A) : list A :=
  drop (length l - n)%nat l.

(** [deque(items, maxlen=n)]: the last [n] items are kept. *)
Definition deque_of (items : list string) (n : nat) : list string :=
  last_n n items.

(** [JobRecord.append_log]: an empty line is not logged; a full deque
    drops its oldest line. *)
Definition append_log (line : string) (r : JobRecord) : JobRecord :=
  if str_is_empty line then r
  else set_log (last_n (rec_log_maxlen r) (rec_log r ++ [line]))
               (rec_log_maxlen r) r.

(** ** The external view of a record: [_record_to_dict] *)

Record JobView : Type := {
  view_id : string;
  view_opponent : string;
  view_fen : string;
  view_limit_type : Z;
  view_limit_value : Z;
  view_multipv : Z;
  view_status : Z;
  view_created_at_ms : Z;
  view_started_at_ms : option Z;
  view_finished_at_ms : option Z;
  view_last_update_ms : Z;
  view_snapshot : Fields;
  view_lines : list Fields;
  view_log_tail : list string
}.

(** [int(k)] on a key of [last_by_mpv]. *)
Definition key_int (k : MpvKey) : option Z :=
  match k with
  | KInt z => Some z
  | KStr s => py_int s
  end.

(** The keys that [int()] accepts, in the order of the table: the loop
    that fills [mpv_keys]. *)
Fixpoint mpv_keys (d : list (MpvKey * Fields)) : list Z :=
  match d with
  | [] => []
  | (k, _) :: d' =>
      match key_int k with
      | Some z => z :: mpv_keys d'
      | None => mpv_keys d'
      end
  end.

Fixpoint insert_sorted (z : Z) (l : list Z) : list Z :=
  match l with
  | [] => [z]
  | y :: l' =>
      if Z.ltb z y then z :: l
      else if Z.eqb z y then l
      else y :: insert_sorted z l'
  end.

(** [sorted(set(l))]. *)
Definition sorted_set (l : list Z) : list Z :=
  fold_right insert_sorted [] l.

Definition fields_truthy (f : Fields) : bool :=
  match f with [] => false | _ :: _ => true end.

(** [d.get(mpv, {}) or d.get(str(mpv), {}) or {}]. *)
Definition mpv_lookup (mpv : Z) (d : list (MpvKey * Fields)) : Fields :=
  let a := default [] (dict_get (KInt mpv) d) in
  if fields_truthy a then a
  else
    let b := default [] (dict_get (KStr (py_str_int mpv)) d) in
    if fields_truthy b then b else [].

(** [list(rec.log)[-log_tail:]]. *)
Definition log_slice (log_tail : Z) (log : list string) : list string :=
  if 0 <? log_tail then last_n (Z.to_nat log_tail) log
  else drop (Z.to_nat (- log_tail)) log.

Definition _record_to_dict (r : JobRecord) (log_tail : Z) : JobView :=
  let lines :=
    map (fun mpv => dict_set "multipv" (JInt mpv)
                      (mpv_lookup mpv (rec_last_by_mpv r)))
        (sorted_set (mpv_keys (rec_last_by_mpv r))) in
  let snap := mpv_lookup 1 (rec_last_by_mpv r) in
  let snap :=
    if negb (str_is_empty (rec_bestmove r))
    then dict_set "bestmove" (JStr (rec_bestmove r)) snap else snap in
  let snap :=
    if fields_truthy snap then dict_set "multipv" (JInt 1) snap else snap in
  {| view_id := rec_job_id r;
     view_opponent := rec_opponent r;
     view_fen := rec_fen r;
     view_limit_type := rec_limit_type r;
     view_limit_value := rec_limit_value r;
     view_multipv := rec_multipv r;
     view_status := rec_status r;
     view_created_at_ms := rec_created_at_ms r;
     view_started_at_ms := rec_started_at_ms r;
     view_finished_at_ms := rec_finished_at_ms r;
     view_last_update_ms := rec_last_update_ms r;
     view_snapshot := snap;
     view_lines := lines;
     view_log_tail := log_slice log_tail (rec_log r) |}.

(** ** The job store: [JobStore]

    The two tables are lists of rows in row order.  A column that SQLite
    may hold as NULL is an [option].  The text of [last_by_mpv_json] is
    kept as the JSON object it denotes: its members in the order of the
    text, keys as the strings JSON gives them.  The operations are those
    the server calls with a result that matters here: [upsert_job],
    [append_log], [mark_incomplete_as_error], [load_recent_into_memory].
    They are modelled as succeeding: an integer outside the 64 bits of an
    SQLite INTEGER, which the binding refuses, and a failing disk are
    left out. *)

Record Row : Type := {
  row_id : string;
  row_opponent : option string;
  row_fen : option string;
  row_limit_type : option Z;
  row_limit_value : option Z;
  row_multipv : option Z;
  row_status : option Z;
  row_created_at_ms : option Z;
  row_started_at_ms : option Z;
  row_finished_at_ms : option Z;
  row_last_update_ms : option Z;
  row_bestmove : option string;
  row_last_by_mpv_json : option (list (string * Fields))
}.

Record JobStore : Type := {
  db_jobs : list Row;
  db_job_logs : list (string * Z * string)
}.

(** The member name [json.dumps] writes for a key. *)
Definition json_key (k : MpvKey) : string :=
  match k with
  | KInt z => py_str_int z
  | KStr s => s
  end.

(** [json.dumps(rec.last_by_mpv)]. *)
Definition json_dumps (d : list (MpvKey * Fields)) : list (string * Fields) :=
  map (fun kv => (json_key (fst kv), snd kv)) d.

(** [json.loads(text)]: every key is a [str]; of two members with one
    name the later value stays. *)
Definition json_loads (o : list (string * Fields)) : list (MpvKey * Fields) :=
  fold_left (fun acc kv => dict_set (KStr (fst kv)) (snd kv) acc) o [].

(** The tuple of values [upsert_job] binds. *)
Definition row_of_record (r : JobRecord) : Row :=
  {| row_id := rec_job_id r;
     row_opponent := Some (rec_opponent r);
     row_fen := Some (rec_fen r);
     row_limit_type := Some (rec_limit_type r);
     row_limit_value := Some (rec_limit_value r);
     row_multipv := Some (rec_multipv r);
     row_status := Some (rec_status r);
     row_created_at_ms := Some (rec_created_at_ms r);
     row_started_at_ms := rec_started_at_ms r;
     row_finished_at_ms := rec_finished_at_ms r;
     row_last_update_ms := Some (rec_last_update_ms r);
     row_bestmove := Some (rec_bestmove r);
     row_last_by_mpv_json := Some (json_dumps (rec_last_by_mpv r)) |}.

(** [INSERT ... ON CONFLICT(id) DO UPDATE]: the row of that id is
    replaced where it stands, a new id is appended. *)
Fixpoint upsert_row (row : Row) (rows : list Row) : list Row :=
  match rows with
  | [] => [row]
  | r :: rows' =>
      if String.eqb (row_id r) (row_id row) then row :: rows'
      else r :: upsert_row row rows'
  end.

Definition upsert_job (r : JobRecord) (db : JobStore) : JobStore :=
  {| db_jobs := upsert_row (row_of_record r) (db_jobs db);
     db_job_logs := db_job_logs db |}.

(** [JobStore.append_log]. *)
Definition store_append_log (id : string) (ts_ms : Z) (line : string)
    (db : JobStore) : JobStore :=
  if str_is_empty line then db
  else {| db_jobs := db_jobs db;
          db_job_logs := db_job_logs db ++ [(id, ts_ms, line)] |}.

(** [status IN (JOB_PENDING, JOB_QUEUED, JOB_RUNNING)]; NULL is in no list. *)
Definition row_incomplete (r : Row) : bool :=
  match row_status r with
  | Some s => Z.eqb s JOB_PENDING || Z.eqb s JOB_QUEUED || Z.eqb s JOB_RUNNING
  | None => false
  end.

(** The [SET] clause of the [UPDATE] in [mark_incomplete_as_error]. *)
Definition mark_row (now_ms : Z) (r : Row) : Row :=
  {| row_id := row_id r;
     row_opponent := row_opponent r;
     row_fen := row_fen r;
     row_limit_type := row_limit_type r;
     row_limit_value := row_limit_value r;
     row_multipv := row_multipv r;
     row_status := Some JOB_ERROR;
     row_created_at_ms := row_created_at_ms r;
     row_started_at_ms := row_started_at_ms r;
     row_finished_at_ms :=
       match row_finished_at_ms r with Some f => Some f | None => Some now_ms end;
     row_last_update_ms := Some now_ms;
     row_bestmove := row_bestmove r;
     row_last_by_mpv_json := row_last_by_mpv_json r |}.

Definition mark_incomplete_as_error (now_ms : Z) (db : JobStore)
    : JobStore * list string :=
  let ids := map row_id (filter (fun r => row_incomplete r = true) (db_jobs db)) in
  match ids with
  | [] => (db, [])
  | _ :: _ =>
      ({| db_jobs :=
            map (fun r => if row_incomplete r then mark_row now_ms r else r)
                (db_jobs db);
          db_job_logs := db_job_logs db |},
       ids)
  end.

(** SQLite's order on a nullable integer column: NULL sorts first. *)
Definition sql_lt (a b : option Z) : bool :=
  match a, b with
  | None, None => false
  | None, Some _ => true
  | Some _, None => false
  | Some x, Some y => Z.ltb x y
  end.

(** [ORDER BY created_at_ms DESC], as the sorter of SQLite does it: rows
    with one key keep their row order.  [r] stands before [rows] in the
    table. *)
Fixpoint insert_desc (r : Row) (rows : list Row) : list Row :=
  match rows with
  | [] => [r]
  | x :: rows' =>
      if sql_lt (row_created_at_ms r) (row_created_at_ms x)
      then x :: insert_desc r rows' else r :: rows
  end.

Definition order_by_created_desc (rows : list Row) : list Row :=
  fold_right insert_desc [] rows.

(** [SELECT * FROM jobs ORDER BY created_at_ms DESC LIMIT ?]; a negative
    limit is no limit in SQLite. *)
Definition load_recent_into_memory (limit : Z) (db : JobStore) : list Row :=
  let rows := order_by_created_desc (db_jobs db) in
  if limit <? 0 then rows else take (Z.to_nat limit) rows.

(** [x or d] on a nullable integer column. *)
Definition int_or (x : option Z) (d : Z) : Z :=
  match x with
  | Some v => if Z.eqb v 0 then d else v
  | None => d
  end.

(** [str(x or "")] on a nullable text column. *)
Definition str_or_empty (x : option string) : string :=
  default EmptyString x.

(** [_row_to_record]; [now] is the reading of [epoch_ms()] that stands in
    for a missing [created_at_ms]. *)
Definition _row_to_record (now : Z) (row : Row) : JobRecord :=
  let created := int_or (row_created_at_ms row) now in
  {| rec_job_id := row_id row;
     rec_opponent := str_or_empty (row_opponent row);
     rec_fen := str_or_empty (row_fen row);
     rec_limit_type := int_or (row_limit_type row) 0;
     rec_limit_value := int_or (row_limit_value row) 0;
     rec_multipv := int_or (row_multipv row) 1;
     rec_status := int_or (row_status row) JOB_PENDING;
     rec_created_at_ms := created;
     rec_started_at_ms := row_started_at_ms row;
     rec_finished_at_ms := row_finished_at_ms row;
     rec_last_update_ms := int_or (row_last_update_ms row) created;
     rec_last_by_mpv := json_loads (default [] (row_last_by_mpv_json row));
     rec_bestmove := str_or_empty (row_bestmove row);
     rec_log := []; rec_log_maxlen := 2000 |}.

(** The store part of [ClusterServer.__init__]: unfinished jobs are marked
    and one log line is appended for each. *)
Definition startup_reconcile (now : Z) (db : JobStore) : JobStore :=
  let '(db1, affected) := mark_incomplete_as_error now db in
  fold_left (fun d id => store_append_log id now "[server] restart: job aborted" d)
            affected db1.

(** ** The engine driver: [EngineJobRunner.run]

    One run of the driver is a function of the behaviour of its
    surroundings, gathered in [Env]: whether the child can be spawned,
    the lines the child writes before it closes its output, which writes
    to the child fail, and when the cancel event is seen set.  The texts
    of the exceptions the source does not write itself come from [Env]
    too. *)

Record Env : Type := {
  (** [Some msg]: [create_subprocess_exec] raises, [str(exc) = msg]. *)
  env_spawn_error : option string;
  (** The decoded lines [readline()] returns before end of file. *)
  env_stdout : list string;
  (** [Some msg]: the n-th call of [send] (from 0) raises. *)
  env_write_error : nat -> option string;
  (** [cancel_event.is_set()] at the head of the k-th iteration (from 0)
      of the streaming loop. *)
  env_cancel_at : nat -> bool;
  (** [cancel_event.is_set()] where the [bestmove] line is handled. *)
  env_cancel_at_bestmove : bool;
  (** [str(exc)] of the [ValueError] raised while that line is parsed. *)
  env_value_error : string -> string
}.

Inductive Action : Type :=
| Send (cmd : string)
    (* [proc.stdin.write((cmd + "\n").encode())] then [drain()] *)
| Update (status : Z) (fields : Fields) (log_line : string)
    (* [server.send_job_update(job_id, status, fields, log_line=...)] *)
| Reap.
    (* the [finally] block: kill the child if it is alive, wait for it *)

Record DState : Type := {
  d_trace : list Action;   (* what the driver has done, oldest first *)
  d_sent : nat;            (* calls of [send] so far *)
  d_iter : nat             (* iterations of the streaming loop begun *)
}.

Inductive Res (A : Type) : Type :=
| Ret (a : A)
| Raise (msg : string).
Arguments Ret {A} a.
Arguments Raise {A} msg.

(** Driver computations: a state that survives an exception. *)
Definition Drv (A : Type) : Type := DState -> DState * Res A.

#[global] Instance Drv_ret : MRet Drv := fun A a st => (st, Ret a).
#[global] Instance Drv_bind : MBind Drv := fun A B f m st =>
  match m st with
  | (st', Ret a) => f a st'
  | (st', Raise e) => (st', Raise e)
  end.

Definition raise {A : Type} (msg : string) : Drv A := fun st => (st, Raise msg).

Definition log_action (a : Action) : Drv unit := fun st =>
  ({| d_trace := d_trace st ++ [a]; d_sent := d_sent st; d_iter := d_iter st |},
   Ret tt).

(** The local function [send] of [run]. *)
Definition send (env : Env) (cmd : string) : Drv unit := fun st =>
  let st' := {| d_trace := d_trace st ++ [Send cmd];
                d_sent := S (d_sent st); d_iter := d_iter st |} in
  match env_write_error env (d_sent st) with
  | Some msg => (st', Raise msg)
  | None => (st', Ret tt)
  end.

(** The head of one iteration of the streaming loop: the cancel event is
    read and [stop] is sent when it is set. *)
Definition loop_head (env : Env) : Drv unit := fun st =>
  let st' := {| d_trace := d_trace st; d_sent := d_sent st;
                d_iter := S (d_iter st) |} in
  if env_cancel_at env (d_iter st) then send env "stop" st' else (st', Ret tt).

(** [while True: line = readline(); ... if strip(line) == target: break]:
    the lines left after the awaited one. *)
Fixpoint read_until (target err : string) (lines : list string)
    : Drv (list string) :=
  match lines with
  | [] => raise err
  | line :: rest =>
      if String.eqb (py_strip line) target then mret rest
      else read_until target err rest
  end.

(** The streaming loop.  [last_by_mpv] is the driver's own table. *)
Fixpoint stream (env : Env) (lines : list string)
    (last_by_mpv : list (Z * Fields)) : Drv (Z * Fields) :=
  loop_head env;;
  match lines with
  | [] => raise "Engine terminated unexpectedly"
  | line :: rest =>
      let s := py_strip line in
      if str_is_empty s then stream env rest last_by_mpv
      else if py_startswith "info" s then
        match parse_info_line s with
        | None => raise (env_value_error env s)
        | Some parsed =>
            match json_int (default (JInt 1) (dict_get "multipv" parsed)) with
            | None => raise (env_value_error env s)
            | Some mpv =>
                let cur := default [] (dict_get mpv last_by_mpv) in
                let cur := dict_update cur parsed in
                let cur := dict_set "multipv" (JInt mpv) cur in
                log_action (Update JOB_RUNNING cur s);;
                stream env rest (dict_set mpv cur last_by_mpv)
            end
        end
      else if py_startswith "bestmove" s then
        let bm := parse_bestmove_line s in
        let final_status :=
          if env_cancel_at_bestmove env then JOB_CANCELLED else JOB_FINISHED in
        let fields := default [] (dict_get 1 last_by_mpv) in
        let fields := dict_update fields bm in
        let fields := dict_set "multipv" (JInt 1) fields in
        log_action (Update final_status fields s);;
        mret (final_status, fields)
      else stream env rest last_by_mpv
  end.

Definition go_cmd (job : PendingJob) : string :=
  if Z.eqb (job_limit_type job) 0 then
    "go depth " +:+ py_str_int (job_limit_value job)
  else if Z.eqb (job_limit_type job) 1 then
    "go movetime " +:+ py_str_int (job_limit_value job)
  else if Z.eqb (job_limit_type job) 2 then
    "go nodes " +:+ py_str_int (job_limit_value job)
  else "go depth 20".

(** [int(job.multipv or 1)], raised to 1 when below. *)
Definition effective_multipv (job : PendingJob) : Z :=
  let mpv := if Z.eqb (job_multipv job) 0 then 1 else job_multipv job in
  if mpv <? 1 then 1 else mpv.

(** The body of the [try] block of [run]. *)
Definition run_try (env : Env) (threads : Z) (job : PendingJob)
    : Drv (Z * Fields) :=
  match env_spawn_error env with
  | Some msg => raise msg
  | None =>
      send env "uci";;
      rest ← read_until "uciok" "Engine closed stdout during UCI init"
               (env_stdout env);
      (if 0 <? threads
       then send env ("setoption name Threads value " +:+ py_str_int threads)
       else mret tt);;
      send env ("setoption name MultiPV value "
                +:+ py_str_int (effective_multipv job));;
      send env "isready";;
      rest ← read_until "readyok" "Engine closed stdout during isready" rest;
      send env "ucinewgame";;
      send env ("position fen " +:+ job_fen job);;
      send env (go_cmd job);;
      stream env rest []
  end.

Definition error_log_line (id msg : string) : string :=
  "[job " +:+ id +:+ "] Error: " +:+ msg.

Record RunResult : Type := {
  run_trace : list Action;
  run_iterations : nat;
  run_return : Z * Fields
}.

Definition d_init : DState := {| d_trace := []; d_sent := 0; d_iter := 0 |}.

(** [run]: the [try] block, the [except Exception] handler and the
    [finally] block. *)
Definition run (env : Env) (threads : Z) (job : PendingJob) : RunResult :=
  let '(st, r) := run_try env threads job d_init in
  let '(st, v) :=
    match r with
    | Ret v => (st, v)
    | Raise msg =>
        (fst (log_action
                (Update JOB_ERROR [] (error_log_line (job_id job) msg)) st),
         (JOB_ERROR, []))
    end in
  let trace :=
    match env_spawn_error env with
    | Some _ => d_trace st
    | None => d_trace st ++ [Reap]
    end in
  {| run_trace := trace; run_iterations := d_iter st; run_return := v |}.

(** The calls of [send_job_update] in a trace. *)
Definition updates_of (tr : list Action) : list (Z * Fields * string) :=
  omap (fun a => match a with
                 | Update st f l => Some (st, f, l)
                 | _ => None
                 end) tr.

(** The commands written to the child in a trace. *)
Definition sent_of (tr : list Action) : list string :=
  omap (fun a => match a with Send c => Some c | _ => None end) tr.

Definition count_stop (tr : list Action) : nat :=
  length (filter (fun c => c = "stop") (sent_of tr)).

(** ** The scheduler: [ClusterServer]

    The coroutines of the server run on one event loop and give up
    control only where they wait for I/O: a broadcast to the clients, the
    child's pipes.  No [async with self._lock] block contains such a
    wait, so each block, together with the code that follows it up to
    the next broadcast, runs as one atomic piece.  A coroutine is
    modelled as its atomic pieces: each is a function on the server
    state that returns what it did ([Effect]) and what is left of the
    coroutine ([Continue]). *)

(** An [EngineJobRunner] held in [active_jobs], with the state of its
    [_run_job] task: [runner_todo] is [None] until the task has started,
    then the calls of [send_job_update] that [run] has still to make. *)
Record Runner : Type := {
  runner_job : PendingJob;
  runner_cancel : bool;        (* [cancel_event.is_set()] *)
  runner_todo : option (list (Z * Fields * string))
}.

Record Server : Type := {
  server_id : string;
  threads : Z;
  max_jobs : Z;
  logical_cores : Z;           (* [os.cpu_count() or 0] *)
  store : option JobStore;
  job_records : gmap string JobRecord;
  active_jobs : gmap string Runner;
  pending : list PendingJob;
  ticks : nat                  (* calls of [epoch_ms()] so far *)
}.

Inductive Msg : Type :=
| ServerStatus (id : string) (status running max threads cores : Z)
| JobUpdate (id : string) (status : Z) (fields : Fields)
    (log_line : option string).

(** What is left of a coroutine after a broadcast. *)
Inductive Cont : Type :=
| KSubmitStatus (id : string)
    (* [submit_job], queued: from [send_server_status()] on *)
| KSubmitPersist (id : string) (queued : bool)
    (* [submit_job]: from the store write on *)
| KCancelStatus
    (* [cancel_job]: from [send_server_status()] on *)
| KTryStartNext.
    (* [_try_start_next]: the next iteration of its loop *)

Inductive Effect : Type :=
| Broadcast (m : Msg)
| CreateTask (id : string)   (* [asyncio.create_task(self._run_job(runner))] *)
| Continue (k : Cont).

Inductive Outcome : Type :=
| Done (s : Server) (effs : list Effect)
| Raised (s : Server).

Definition set_store (v : option JobStore) (s : Server) : Server :=
  {| server_id := server_id s; threads := threads s; max_jobs := max_jobs s;
     logical_cores := logical_cores s; store := v;
     job_records := job_records s; active_jobs := active_jobs s;
     pending := pending s; ticks := ticks s |}.

Definition set_job_records (v : gmap string JobRecord) (s : Server) : Server :=
  {| server_id := server_id s; threads := threads s; max_jobs := max_jobs s;
     logical_cores := logical_cores s; store := store s;
     job_records := v; active_jobs := active_jobs s;
     pending := pending s; ticks := ticks s |}.

Definition set_active_jobs (v : gmap string Runner) (s : Server) : Server :=
  {| server_id := server_id s; threads := threads s; max_jobs := max_jobs s;
     logical_cores := logical_cores s; store := store s;
     job_records := job_records s; active_jobs := v;
     pending := pending s; ticks := ticks s |}.

Definition set_pending (v : list PendingJob) (s : Server) : Server :=
  {| server_id := server_id s; threads := threads s; max_jobs := max_jobs s;
     logical_cores := logical_cores s; store := store s;
     job_records := job_records s; active_jobs := active_jobs s;
     pending := v; ticks := ticks s |}.

(** One call of [epoch_ms()] has been made. *)
Definition tick (s : Server) : Server :=
  {| server_id := server_id s; threads := threads s; max_jobs := max_jobs s;
     logical_cores := logical_cores s; store := store s;
     job_records := job_records s; active_jobs := active_jobs s;
     pending := pending s; ticks := S (ticks s) |}.

(** [max_jobs > 0 and len(active_jobs) >= max_jobs]. *)
Definition slots_full (s : Server) : bool :=
  (0 <? max_jobs s) && (max_jobs s <=? Z.of_nat (size (active_jobs s))).

(** The message [send_server_status] broadcasts. *)
Definition status_msg (s : Server) : Msg :=
  ServerStatus (server_id s)
    (if slots_full s then SERVER_DEGRADED else SERVER_ONLINE)
    (Z.of_nat (size (active_jobs s))) (max_jobs s) (threads s)
    (logical_cores s).

Definition update_keys : list string :=
  ["multipv"; "depth"; "seldepth"; "score_cp"; "score_mate"; "nodes"; "nps";
   "bestmove"; "pv"].

(** [int(fields.get("multipv", 1) or 1) if fields else 1]. *)
Definition update_mpv (fields : Fields) : option Z :=
  if fields_truthy fields then
    let v := default (JInt 1) (dict_get "multipv" fields) in
    json_int (if json_truthy v then v else JInt 1)
  else Some 1.

Section WithClock.
(** The n-th call of [epoch_ms()] returns [clock n]. *)
Variable clock : nat -> Z.

(** The part of [send_job_update] that changes the record's status and
    time stamps, up to the line that computes [mpv]. *)
Definition stamp_record (status ts : Z) (r : JobRecord) : JobRecord :=
  let r := set_status status r in
  let r := set_last_update_ms ts r in
  let r :=
    if Z.eqb status JOB_RUNNING && bool_decide (rec_started_at_ms r = None)
    then set_started_at_ms (Some ts) r else r in
  if is_terminal status && bool_decide (rec_finished_at_ms r = None)
  then set_finished_at_ms (Some ts) r else r.

(** The rest of the locked block of [send_job_update]. *)
Definition merge_update (mpv : Z) (fields : Fields)
    (log_line : option string) (r : JobRecord) : JobRecord :=
  let r :=
    if fields_truthy fields then
      let cur := default [] (dict_get (KInt mpv) (rec_last_by_mpv r)) in
      let cur := dict_update cur fields in
      let cur := dict_set "multipv" (JInt mpv) cur in
      set_last_by_mpv (dict_set (KInt mpv) cur (rec_last_by_mpv r)) r
    else r in
  let r :=
    match dict_get "bestmove" fields with
    | Some v => set_bestmove (json_str v) r
    | None => r
    end in
  match log_line with
  | Some l => append_log l r
  | None => r
  end.

(** [send_job_update] up to its broadcast.  [Raised]: [int()] refused
    the value under ["multipv"]; the record has its new status and time
    stamps by then. *)
Definition send_job_update (id : string) (status : Z) (fields : Fields)
    (log_line : option string) (s : Server) : Outcome :=
  let ts := clock (ticks s) in
  let s := tick s in
  let '(r, s) :=
    match job_records s !! id with
    | Some r => (r, s)
    | None =>
        (new_record id (clock (ticks s)) (clock (S (ticks s))),
         tick (tick s))
    end in
  let r := stamp_record status ts r in
  match update_mpv fields with
  | None => Raised (set_job_records (<[id := r]> (job_records s)) s)
  | Some mpv =>
      let r := merge_update mpv fields log_line r in
      let s := set_job_records (<[id := r]> (job_records s)) s in
      let s :=
        match store s with
        | None => s
        | Some db =>
            let db := upsert_job r db in
            let db :=
              match log_line with
              | Some l => store_append_log id ts l db
              | None => db
              end in
            set_store (Some db) s
        end in
      let msg_fields :=
        omap (fun k => pair k <$> dict_get k fields) update_keys in
      Done s [Broadcast (JobUpdate id status msg_fields log_line)]
  end.

(** The record [submit_job] creates. *)
Definition submitted_record (job : PendingJob) (t_created t_last : Z)
    : JobRecord :=
  {| rec_job_id := job_id job; rec_opponent := job_opponent job;
     rec_fen := job_fen job; rec_limit_type := job_limit_type job;
     rec_limit_value := job_limit_value job;
     rec_multipv := if Z.eqb (job_multipv job) 0 then 1 else job_multipv job;
     rec_status := JOB_PENDING;
     rec_created_at_ms := t_created; rec_started_at_ms := None;
     rec_finished_at_ms := None; rec_last_update_ms := t_last;
     rec_last_by_mpv := []; rec_bestmove := EmptyString;
     rec_log := []; rec_log_maxlen := 2000 |}.

Definition new_runner (job : PendingJob) : Runner :=
  {| runner_job := job; runner_cancel := false; runner_todo := None |}.

(** [any(j.job_id == id for j in self.pending)]. *)
Definition in_pending (id : string) (q : list PendingJob) : bool :=
  existsb (fun j => String.eqb (job_id j) id) q.

(** [submit_job] up to its first broadcast. *)
Definition submit_job (job : PendingJob) (s : Server)
    : Server * list Effect :=
  let id := job_id job in
  if bool_decide (is_Some (job_records s !! id)) then (s, [])
  else if bool_decide (is_Some (active_jobs s !! id))
          || in_pending id (pending s) then (s, [])
  else
    let r := submitted_record job (clock (ticks s)) (clock (S (ticks s))) in
    let s := tick (tick s) in
    let s := set_job_records (<[id := r]> (job_records s)) s in
    if slots_full s then
      let s := set_pending (pending s ++ [job]) s in
      match send_job_update id JOB_QUEUED [] (Some "queued") s with
      | Done s' effs => (s', effs ++ [Continue (KSubmitStatus id)])
      | Raised s' => (s', [])
      end
    else
      let s := set_active_jobs (<[id := new_runner job]> (active_jobs s)) s in
      (s, [CreateTask id; Broadcast (status_msg s);
           Continue (KSubmitPersist id false)])
  .

(** One iteration of the loop of [_try_start_next]. *)
Definition _try_start_next (s : Server) : Server * list Effect :=
  if slots_full s then (s, [])
  else
    match pending s with
    | [] => (s, [])
    | job :: q =>
        let s := set_pending q s in
        let s :=
          set_active_jobs (<[job_id job := new_runner job]> (active_jobs s)) s in
        (s, [CreateTask (job_id job); Broadcast (status_msg s);
             Continue KTryStartNext])
    end.

(** The store write of [submit_job]; the record written is the one in
    [job_records], as it is by now. *)
Definition submit_persist (id : string) (s : Server) : Server :=
  match store s, job_records s !! id with
  | Some db, Some r =>
      let db := upsert_job r db in
      let db := store_append_log id (clock (ticks s)) "submitted" db in
      set_store (Some db) (tick s)
  | _, _ => s
  end.

(** [del self.pending[i]] for the first job of that id. *)
Fixpoint remove_pending (id : string) (q : list PendingJob)
    : list PendingJob :=
  match q with
  | [] => []
  | j :: q' =>
      if String.eqb (job_id j) id then q' else j :: remove_pending id q'
  end.

Definition request_cancel (r : Runner) : Runner :=
  {| runner_job := runner_job r; runner_cancel := true;
     runner_todo := runner_todo r |}.

(** [cancel_job] up to its first broadcast. *)
Definition cancel_job (id : string) (s : Server) : Server * list Effect :=
  match active_jobs s !! id with
  | Some runner =>
      (set_active_jobs (<[id := request_cancel runner]> (active_jobs s)) s, [])
  | None =>
      if in_pending id (pending s) then
        let s := set_pending (remove_pending id (pending s)) s in
        match send_job_update id JOB_CANCELLED [] (Some "cancelled (queued)") s with
        | Done s' effs => (s', effs ++ [Continue KCancelStatus])
        | Raised s' => (s', [])
        end
      else (s, [])
  end.

(** The next atomic piece of a coroutine that waited on a broadcast. *)
Definition resume (k : Cont) (s : Server) : Server * list Effect :=
  match k with
  | KSubmitStatus id =>
      (s, [Broadcast (status_msg s); Continue (KSubmitPersist id true)])
  | KSubmitPersist id queued =>
      let s := submit_persist id s in
      if queued then _try_start_next s else (s, [])
  | KCancelStatus =>
      (s, [Broadcast (status_msg s); Continue KTryStartNext])
  | KTryStartNext => _try_start_next s
  end.

Definition set_todo (v : option (list (Z * Fields * string))) (r : Runner)
    : Runner :=
  {| runner_job := runner_job r; runner_cancel := runner_cancel r;
     runner_todo := v |}.

(** [_run_job] from its start to the broadcast of ["started"]; [env] is
    what the run of the driver is going to meet: what the child writes
    and when the cancel event is seen set.  No link is made between
    [env] and [runner_cancel], so the runs of this model include those
    of the server. *)
Definition run_job_start (id : string) (env : Env) (s : Server)
    : option (Server * list Effect) :=
  match active_jobs s !! id with
  | Some runner =>
      match runner_todo runner with
      | None =>
          match send_job_update id JOB_RUNNING [] (Some "started") s with
          | Done s' effs =>
              let todo :=
                updates_of (run_trace (run env (threads s) (runner_job runner))) in
              Some (set_active_jobs
                      (<[id := set_todo (Some todo) runner]> (active_jobs s')) s',
                    effs)
          | Raised _ => None
          end
      | Some _ => None
      end
  | None => None
  end.

(** The next call of [send_job_update] by the driver of that job. *)
Definition run_job_update (id : string) (s : Server)
    : option (Server * list Effect) :=
  match active_jobs s !! id with
  | Some runner =>
      match runner_todo runner with
      | Some ((status, fields, log_line) :: todo) =>
          match send_job_update id status fields (Some log_line) s with
          | Done s' effs =>
              Some (set_active_jobs
                      (<[id := set_todo (Some todo) runner]> (active_jobs s')) s',
                    effs)
          | Raised _ => None
          end
      | _ => None
      end
  | None => None
  end.

(** The [finally] block of [_run_job], once [run] has returned. *)
Definition run_job_finish (id : string) (s : Server)
    : option (Server * list Effect) :=
  match active_jobs s !! id with
  | Some runner =>
      match runner_todo runner with
      | Some [] =>
          let s := set_active_jobs (delete id (active_jobs s)) s in
          Some (s, [Broadcast (status_msg s); Continue KTryStartNext])
      | _ => None
      end
  | None => None
  end.

(** The [job_get] request with a store: the in-memory log of the record
    is replaced by [tail], the lines [fetch_log_tail] returned. *)
Definition job_get_refresh (id : string) (log_tail : Z) (tail : list string)
    (s : Server) : Server :=
  match store s, job_records s !! id with
  | Some _, Some r =>
      if 0 <? log_tail then
        let n := Z.to_nat (Z.max 2000 log_tail) in
        set_job_records
          (<[id := set_log (deque_of tail n) n r]> (job_records s)) s
      else s
  | _, _ => s
  end.

Inductive Event : Type :=
| EvSubmit (job : PendingJob)
| EvCancel (id : string)
| EvJobGet (id : string) (log_tail : Z) (tail : list string)
| EvResume (k : Cont)
| EvRunJobStart (id : string) (env : Env)
| EvRunJobUpdate (id : string)
| EvRunJobFinish (id : string).

(** One atomic piece of some coroutine runs. *)
Definition step (ev : Event) (s : Server) : option (Server * list Effect) :=
  match ev with
  | EvSubmit job => Some (submit_job job s)
  | EvCancel id => Some (cancel_job id s)
  | EvJobGet id log_tail tail => Some (job_get_refresh id log_tail tail s, [])
  | EvResume k => Some (resume k s)
  | EvRunJobStart id env => run_job_start id env s
  | EvRunJobUpdate id => run_job_update id s
  | EvRunJobFinish id => run_job_finish id s
  end.

(** A run of the server: the events, oldest first. *)
Inductive steps : Server -> list Event -> Server -> Prop :=
| steps_nil s : steps s [] s
| steps_cons s ev s1 effs evs s2 :
    step ev s = Some (s1, effs) -> steps s1 evs s2 -> steps s (ev :: evs) s2.

(** The state after a list of events, when each of them can run. *)
Fixpoint exec (evs : list Event) (s : Server) : option Server :=
  match evs with
  | [] => Some s
  | ev :: evs' =>
      match step ev s with
      | Some (s', _) => exec evs' s'
      | None => None
      end
  end.

(** The state [__init__] leaves: records loaded from the store, nothing
    active, nothing queued. *)
Definition initial (s : Server) : Prop :=
  active_jobs s = ∅ /\ pending s = [].

Definition reachable (s : Server) : Prop :=
  exists s0 evs, initial s0 /\ steps s0 evs s.
End WithClock.

(** * Properties

    Predicates used in the statements. *)

(** ** Decimal numerals *)

(** The value of a run of digits read after [acc]. *)
Fixpoint uint_val (d : Decimal.uint) (acc : Z) : Z :=
  match d with
  | Decimal.Nil => acc
  | Decimal.D0 d => uint_val d (acc * 10)
  | Decimal.D1 d => uint_val d (acc * 10 + 1)
  | Decimal.D2 d => uint_val d (acc * 10 + 2)
  | Decimal.D3 d => uint_val d (acc * 10 + 3)
  | Decimal.D4 d => uint_val d (acc * 10 + 4)
  | Decimal.D5 d => uint_val d (acc * 10 + 5)
  | Decimal.D6 d => uint_val d (acc * 10 + 6)
  | Decimal.D7 d => uint_val d (acc * 10 + 7)
  | Decimal.D8 d => uint_val d (acc * 10 + 8)
  | Decimal.D9 d => uint_val d (acc * 10 + 9)
  end.

(** ** The parsers *)

(** The keywords [parse_info_line] looks for. *)
Definition is_keyword (tok : string) : Prop :=
  tok ∈ ["depth"; "seldepth"; "score"; "nodes"; "nps"; "multipv"; "pv"].

(** The keywords followed by one integer. *)
Definition numeric_keyword (tok : string) : Prop :=
  tok ∈ ["depth"; "seldepth"; "nodes"; "nps"; "multipv"].

(** The keys [parse_info_line] can store. *)
Definition info_keys : list string :=
  ["depth"; "seldepth"; "score_cp"; "score_mate"; "nodes"; "nps"; "multipv";
   "pv"].

(** Every token after a numeric keyword, and every token after [score cp]
    or [score mate], is accepted by [int()]. *)
Definition values_are_ints (toks : list string) : Prop :=
  (forall (i : nat) (k v : string),
      toks !! i = Some k -> numeric_keyword k ->
      toks !! S i = Some v -> is_Some (py_int v))
  /\ (forall (i : nat) (t v : string),
      toks !! i = Some "score" -> toks !! S i = Some t ->
      t = "cp" \/ t = "mate" ->
      toks !! S (S i) = Some v -> is_Some (py_int v)).

(** Every key of [out] is one of [keys]. *)
Definition keys_within (keys : list string) (out : Fields) : Prop :=
  forall k, dict_mem k out = true -> k ∈ keys.

(** ** The engine driver *)

(** No entry of the driver's table holds a bestmove. *)
Definition table_clean (lbm : list (Z * Fields)) : Prop :=
  forall k f, dict_get k lbm = Some f -> dict_mem "bestmove" f = false.

(** An update made for an [info] line. *)
Definition running_update (u : Z * Fields * string) : Prop :=
  u.1.1 = JOB_RUNNING
  /\ (exists z, dict_get "multipv" u.1.2 = Some (JInt z))
  /\ dict_mem "bestmove" u.1.2 = false.

(** The update made for the [bestmove] line. *)
Definition final_update (u : Z * Fields * string) : Prop :=
  (u.1.1 = JOB_FINISHED \/ u.1.1 = JOB_CANCELLED)
  /\ dict_get "multipv" u.1.2 = Some (JInt 1)
  /\ dict_mem "bestmove" u.1.2 = dict_mem "bestmove" (parse_bestmove_line u.2).

(** The iterations [a, b) of the streaming loop that begin with the
    cancel event set. *)
Definition count_cancel (env : Env) (a b : nat) : nat :=
  length (filter (fun k => env_cancel_at env k = true) (seq a (b - a))).

(** Nothing but commands other than [stop] has happened. *)
Definition quiet (st : DState) : Prop :=
  d_iter st = 0%nat /\ updates_of (d_trace st) = []
  /\ count_stop (d_trace st) = 0%nat.

(** ** Sample data *)

Definition demo_job : PendingJob :=
  {| job_id := "j1"; job_opponent := "anna"; job_fen := "8/8/8/8/8/8/8/K6k w - - 0 1";
     job_limit_type := 0; job_limit_value := 4; job_multipv := 1 |}.

(** An engine that closes its output in the middle of the analysis. *)
Definition env_crash : Env :=
  {| env_spawn_error := None;
     env_stdout := ["Stockfish"; "uciok"; "readyok";
                    "info depth 1 score cp 20 pv e2e4"];
     env_write_error := fun _ => None;
     env_cancel_at := fun _ => false;
     env_cancel_at_bestmove := false;
     env_value_error := fun _ => "invalid literal for int()" |}.

(** A run cancelled while the first [info] line is handled; the engine
    writes one more [info] line before its [bestmove]. *)
Definition env_cancelled : Env :=
  {| env_spawn_error := None;
     env_stdout := ["uciok"; "readyok";
                    "info depth 1 score cp 20 pv e2e4";
                    "info depth 2 score cp 18 pv e2e4 e7e5";
                    "bestmove e2e4 ponder e7e5"];
     env_write_error := fun _ => None;
     env_cancel_at := fun k => (1 <=? k)%nat;
     env_cancel_at_bestmove := true;
     env_value_error := fun _ => "invalid literal for int()" |}.

(** An engine that answers [go] with a bare [bestmove]. *)
Definition env_bare_bestmove : Env :=
  {| env_spawn_error := None;
     env_stdout := ["uciok"; "readyok"; "bestmove"];
     env_write_error := fun _ => None;
     env_cancel_at := fun _ => false;
     env_cancel_at_bestmove := false;
     env_value_error := fun _ => "invalid literal for int()" |}.

(** A clock that advances by one millisecond at every reading. *)
Definition demo_clock (n : nat) : Z := 1700000000000 + Z.of_nat n.

(** A server just started, with an empty store and one slot. *)
Definition demo_server : Server :=
  {| server_id := "srv1"; threads := 1; max_jobs := 1; logical_cores := 8;
     store := Some {| db_jobs := []; db_job_logs := [] |};
     job_records := ∅; active_jobs := ∅; pending := []; ticks := 0 |}.

(** ** The scheduler *)

(** The record [send_job_update] works on: the one in [job_records], or
    the one it creates. *)
Definition record_before (clock : nat -> Z) (id : string) (s : Server)
    : JobRecord :=
  match job_records s !! id with
  | Some r => r
  | None => new_record id (clock (S (ticks s))) (clock (S (S (ticks s))))
  end.

(** The record [send_job_update] leaves in [job_records]. *)
Definition updated_record (clock : nat -> Z) (id : string) (status : Z)
    (fields : Fields) (log_line : option string) (s : Server) (mpv : Z)
    : JobRecord :=
  merge_update mpv fields log_line
    (stamp_record status (clock (ticks s)) (record_before clock id s)).

(** The fields of the [job_update] message. *)
Definition msg_fields (fields : Fields) : Fields :=
  omap (fun k => pair k <$> dict_get k fields) update_keys.

(** ** The store *)


(** A table [last_by_mpv] as the running server builds it: a dict whose
    keys are all [int]s. *)
Definition runtime_table (d : list (MpvKey * Fields)) : Prop :=
  NoDup (dict_keys d) /\ Forall (fun kv => exists z, kv.1 = KInt z) d.

(** Two rows agree on every column that [mark_incomplete_as_error] does
    not set. *)
Definition same_job_columns (a b : Row) : Prop :=
  row_id a = row_id b /\ row_opponent a = row_opponent b
  /\ row_fen a = row_fen b /\ row_limit_type a = row_limit_type b
  /\ row_limit_value a = row_limit_value b /\ row_multipv a = row_multipv b
  /\ row_created_at_ms a = row_created_at_ms b
  /\ row_started_at_ms a = row_started_at_ms b
  /\ row_bestmove a = row_bestmove b
  /\ row_last_by_mpv_json a = row_last_by_mpv_json b.

(** A store left by a server that was killed while [j1] was running. *)
Definition demo_db : JobStore :=
  {| db_jobs :=
       [ {| row_id := "j0"; row_opponent := Some "anna"; row_fen := Some "fen0";
            row_limit_type := Some 0; row_limit_value := Some 4;
            row_multipv := Some 1; row_status := Some JOB_FINISHED;
            row_created_at_ms := Some 100; row_started_at_ms := Some 101;
            row_finished_at_ms := Some 150; row_last_update_ms := Some 150;
            row_bestmove := Some "e2e4"; row_last_by_mpv_json := Some [] |};
         {| row_id := "j1"; row_opponent := Some "bob"; row_fen := Some "fen1";
            row_limit_type := Some 1; row_limit_value := Some 60000;
            row_multipv := Some 1; row_status := Some JOB_RUNNING;
            row_created_at_ms := Some 200; row_started_at_ms := Some 201;
            row_finished_at_ms := None; row_last_update_ms := Some 230;
            row_bestmove := Some EmptyString;
            row_last_by_mpv_json := Some [] |} ];
     db_job_logs := [("j1", 201, "started")] |}.

(** A record as the server holds it after two [info] lines. *)
Definition demo_record : JobRecord :=
  {| rec_job_id := "j1"; rec_opponent := "bob"; rec_fen := "fen1";
     rec_limit_type := 1; rec_limit_value := 60000; rec_multipv := 2;
     rec_status := JOB_RUNNING;
     rec_created_at_ms := 200; rec_started_at_ms := Some 201;
     rec_finished_at_ms := None; rec_last_update_ms := 230;
     rec_last_by_mpv :=
       [(KInt 2, [("depth", JInt 7); ("score_cp", JInt (-3)); ("multipv", JInt 2)]);
        (KInt 1, [("depth", JInt 7); ("score_cp", JInt 25); ("multipv", JInt 1)])];
     rec_bestmove := EmptyString;
     rec_log := ["started"]; rec_log_maxlen := 2000 |}.


(** The last update of a run: the one for [bestmove], or the one for a
    failure. *)
Definition last_ok (u : Z * Fields * string) : Prop :=
  final_update u \/ (u.1.1 = JOB_ERROR /\ u.1.2 = []).

(** The updates a started driver has still to send, against the status
    of its record: none once the record is terminal, else updates for
    [info] lines followed by the last one. *)
Definition todo_ok (status : Z) (todo : list (Z * Fields * string)) : Prop :=
  (todo = []
   /\ (status = JOB_FINISHED \/ status = JOB_ERROR \/ status = JOB_CANCELLED))
  \/ (status = JOB_RUNNING
      /\ exists infos last,
           todo = infos ++ [last]
           /\ Forall running_update infos /\ last_ok last).

(** The invariant of the scheduler. *)
Record Inv (s : Server) : Prop := {
  inv_pending_nodup : NoDup (map job_id (pending s));
  inv_pending :
    forall j, j ∈ pending s ->
      active_jobs s !! job_id j = None
      /\ exists r, job_records s !! job_id j = Some r
                   /\ rec_status r = JOB_QUEUED;
  inv_active :
    forall id runner, active_jobs s !! id = Some runner ->
      exists r, job_records s !! id = Some r
                /\ match runner_todo runner with
                   | None => rec_status r = JOB_PENDING
                             \/ rec_status r = JOB_QUEUED
                   | Some todo => todo_ok (rec_status r) todo
                   end;
  inv_slots :
    0 < max_jobs s -> Z.of_nat (size (active_jobs s)) <= max_jobs s
}.

(** The state machine as section 4.5 of the specification draws it. *)
Definition spec_edge (a b : Z) : Prop :=
  (a = JOB_PENDING /\ b = JOB_QUEUED)
  \/ (a = JOB_QUEUED /\ b = JOB_RUNNING)
  \/ (a = JOB_RUNNING
      /\ (b = JOB_FINISHED \/ b = JOB_ERROR \/ b = JOB_CANCELLED
          \/ b = JOB_STOPPED))
  \/ (a = JOB_PENDING /\ b = JOB_CANCELLED).

(** The transitions the scheduler makes. *)
Definition code_edge (a b : Z) : Prop :=
  (a = JOB_PENDING /\ b = JOB_QUEUED)
  \/ (a = JOB_PENDING /\ b = JOB_RUNNING)
  \/ (a = JOB_QUEUED /\ b = JOB_RUNNING)
  \/ (a = JOB_QUEUED /\ b = JOB_CANCELLED)
  \/ (a = JOB_RUNNING
      /\ (b = JOB_FINISHED \/ b = JOB_ERROR \/ b = JOB_CANCELLED)).

(** What one atomic piece may do to a record. *)
Definition record_step (r r' : JobRecord) : Prop :=
  (rec_status r' = rec_status r \/ code_edge (rec_status r) (rec_status r'))
  /\ (is_terminal (rec_status r) = true ->
      rec_status r' = rec_status r
      /\ rec_started_at_ms r' = rec_started_at_ms r
      /\ rec_finished_at_ms r' = rec_finished_at_ms r).

(** What one atomic piece may do to the table of records: no record
    disappears, each makes a [record_step], and a new record is PENDING,
    or QUEUED when [submit_job] queued it in the same piece. *)
Definition records_step (s s' : Server) : Prop :=
  forall id,
    match job_records s !! id with
    | Some r => exists r', job_records s' !! id = Some r' /\ record_step r r'
    | None =>
        forall r', job_records s' !! id = Some r' ->
                   rec_status r' = JOB_PENDING \/ rec_status r' = JOB_QUEUED
    end.

(** What every atomic piece keeps. *)
Definition Good (s s' : Server) : Prop :=
  Inv s' /\ records_step s s'
  /\ max_jobs s' = max_jobs s /\ threads s' = threads s.

(** A second submission under the id of [demo_job], with other contents. *)
Definition demo_job_again : PendingJob :=
  {| job_id := "j1"; job_opponent := "carl"; job_fen := "8/8/8/8/8/8/8/k6K b - - 0 1";
     job_limit_type := 2; job_limit_value := 100000; job_multipv := 3 |}.

Definition demo_job2 : PendingJob :=
  {| job_id := "j2"; job_opponent := "dora"; job_fen := "8/8/8/8/8/8/8/K6k w - - 0 1";
     job_limit_type := 0; job_limit_value := 4; job_multipv := 1 |}.

(** How the record of [id] in [s'] came out of the atomic piece that led
    from [s] to [s']: it was left alone, or its log was reloaded, or
    [send_job_update] stamped and merged the record that was there, or
    [submit_job] created it (and, for a queued job, sent the QUEUED
    update in the same piece). *)
Definition record_origin (clock : nat -> Z) (s s' : Server) (id : string)
    (r' : JobRecord) : Prop :=
  job_records s !! id = Some r'
  \/ (exists r tail n, job_records s !! id = Some r /\ r' = set_log tail n r)
  \/ (exists r status fields log_line mpv,
         job_records s !! id = Some r
         /\ (ticks s < ticks s')%nat
         /\ r' = merge_update mpv fields log_line
                   (stamp_record status (clock (ticks s)) r))
  \/ (exists job,
         job_records s !! id = None
         /\ (S (S (ticks s)) <= ticks s')%nat
         /\ let r0 :=
              submitted_record job (clock (ticks s)) (clock (S (ticks s))) in
            r' = r0
            \/ ((S (S (S (ticks s))) <= ticks s')%nat
                /\ r' = merge_update 1 [] (Some "queued")
                          (stamp_record JOB_QUEUED (clock (S (S (ticks s)))) r0))).

(** A record as the running server builds it: integer keys in the
    per-multipv table, and no zero in [multipv] and the two time stamps
    that [_row_to_record] would replace. *)
Definition record_wf (r : JobRecord) : Prop :=
  runtime_table (rec_last_by_mpv r)
  /\ rec_multipv r <> 0
  /\ rec_created_at_ms r <> 0
  /\ rec_last_update_ms r <> 0.

(** The time stamps of the records of [s] are in order and not ahead of
    the clock. *)
Definition stamps_ok (clock : nat -> Z) (s : Server) : Prop :=
  forall id r,
    job_records s !! id = Some r ->
    rec_created_at_ms r <= rec_last_update_ms r
    /\ rec_last_update_ms r <= clock (ticks s).





(** * Further parts of the server

    The queries of the store on the log of a job and on the list of
    jobs, the loading of a record at start-up, and the branches of
    [handle_message] that answer a request. *)

From Stdlib Require Import Sorted Permutation.


(** ** The job store: the log of a job, the list of jobs *)



(** [LIMIT ?]: a negative limit is no limit in SQLite. *)
Definition sql_limit {A : Type} (limit : Z) (rows : list A) : list A :=
  if limit <? 0 then rows else take (Z.to_nat limit) rows.

(** [ORDER BY ts_ms DESC] on rows of [job_logs].  SQL leaves the order of
    two rows with one [ts_ms] open; here the later row comes first, as a
    backward scan of the index on [(job_id, ts_ms)] gives them. *)
Fixpoint insert_ts_desc (e : string * Z * string)
    (rows : list (string * Z * string)) : list (string * Z * string) :=
  match rows with
  | [] => [e]
  | x :: rows' =>
      if x.1.2 <? e.1.2 then e :: rows else x :: insert_ts_desc e rows'
  end.

(** The rows of [job_logs] with [job_id = id], in row order. *)
Definition job_log_rows (id : string) (db : JobStore)
    : list (string * Z * string) :=
  filter (fun e => e.1.1 = id) (db_job_logs db).

(** [JobStore.fetch_log_tail]: the [limit] latest lines of the job, the
    oldest of them first. *)
Definition fetch_log_tail (id : string) (limit : Z) (db : JobStore)
    : list string :=
  let rows := fold_right insert_ts_desc [] (job_log_rows id db) in
  rev (map snd (sql_limit limit rows)).

(** [status NOT IN (JOB_FINISHED, JOB_ERROR, JOB_CANCELLED, JOB_STOPPED)];
    NULL passes no such test. *)
Definition row_unfinished (r : Row) : bool :=
  match row_status r with
  | Some s => negb (is_terminal s)
  | None => false
  end.

(** [JobStore.list_jobs]. *)
Definition list_jobs (include_finished : bool) (limit : Z) (db : JobStore)
    : list Row :=
  let rows :=
    if include_finished then db_jobs db
    else filter (fun r => row_unfinished r = true) (db_jobs db) in
  sql_limit limit (order_by_created_desc rows).

(** The body of the loop of [ClusterServer.__init__] that loads the
    history: the record of a row, with the tail of its log. *)
Definition load_record (now : Z) (db : JobStore) (row : Row) : JobRecord :=
  let r := _row_to_record now row in
  set_log (deque_of (fetch_log_tail (rec_job_id r) 2000 db) 2000) 2000 r.

(** ** Requests: the branches of [handle_message] *)

(** A value of a decoded request, as [json.loads] returns it.  A number
    with a fraction or an exponent, which becomes a [float], is left
    out. *)
#[local] Unset Elimination Schemes.
Inductive Json : Type :=
| JNull
| JBool (b : bool)
| JNum (z : Z)
| JText (s : string)
| JArr (items : list Json)
| JObj (members : list (string * Json)).
#[local] Set Elimination Schemes.

(** The truth value of a decoded value, as [bool()] and [or] see it. *)
Definition py_truthy (v : Json) : bool :=
  match v with
  | JNull => false
  | JBool b => b
  | JNum z => negb (Z.eqb z 0)
  | JText s => negb (str_is_empty s)
  | JArr items => match items with [] => false | _ :: _ => true end
  | JObj members => match members with [] => false | _ :: _ => true end
  end.

(** [int(v)] on a decoded value; [None] is the [TypeError] or the
    [ValueError]. *)
Definition py_int_of (v : Json) : option Z :=
  match v with
  | JBool b => Some (if b then 1 else 0)
  | JNum z => Some z
  | JText s => py_int s
  | JNull | JArr _ | JObj _ => None
  end.

(** [int(obj.get(key, d) or d)]; [v] is the member under [key], if any. *)
Definition int_or_default (v : option Json) (d : Z) : option Z :=
  let x := default (JNum d) v in
  py_int_of (if py_truthy x then x else JNum d).

(** What a request is answered with, to the client that sent it. *)
Inductive Reply : Type :=
| NoReply
| JobsList (jobs : list JobView)
| JobState (job : option JobView).

(** [recs.sort(key=lambda r: int(r.created_at_ms), reverse=True)]: the
    sort is stable, records with one key keep their order. *)
Fixpoint insert_created_desc (r : JobRecord) (recs : list JobRecord)
    : list JobRecord :=
  match recs with
  | [] => [r]
  | x :: recs' =>
      if rec_created_at_ms r <? rec_created_at_ms x
      then x :: insert_created_desc r recs' else r :: recs
  end.

Definition sort_created_desc (recs : list JobRecord) : list JobRecord :=
  fold_right insert_created_desc [] recs.

(** The branch [jobs_list]; [recs] is [list(self.job_records.values())],
    the records in the order in which they came into the table.  [None]:
    [int()] refused the member [limit]. *)
Definition handle_jobs_list (include_finished limit : option Json)
    (recs : list JobRecord) : option Reply :=
  let include_finished :=
    match include_finished with Some v => py_truthy v | None => true end in
  limit ← int_or_default limit 200;
  let recs :=
    if include_finished then recs
    else filter (fun r => is_terminal (rec_status r) = false) recs in
  let recs := sort_created_desc recs in
  let recs := take (Z.to_nat (Z.max 0 limit)) recs in
  Some (JobsList (map (fun r => _record_to_dict r 200) recs)).

(** The number of log lines a [job_get] request is served with. *)
Definition job_get_log_tail (v : option Json) : option Z :=
  n ← int_or_default v 2000; Some (Z.max 0 (Z.min n 20000)).

(** The branch [job_get], from the test of [job_id] on; [id] is
    [str(obj.get("job_id", ""))].  [None]: [int()] refused the member
    [log_tail]. *)
Definition handle_job_get (id : string) (log_tail : option Json) (s : Server)
    : option (Server * Reply) :=
  if str_is_empty id then Some (s, NoReply)
  else
    n ← job_get_log_tail log_tail;
    let s :=
      match store s with
      | Some db => job_get_refresh id n (fetch_log_tail id n db) s
      | None => s
      end in
    Some (s, JobState ((fun r => _record_to_dict r n) <$> job_records s !! id)).

(** The branch [job_submit_or_update], from the test of [job_id] and
    [fen] on, up to the call of [submit_job]; the three texts are the
    results of [str()].  [None]: [int()] refused a member; [Some None]:
    the request is dropped. *)
Definition handle_job_submit (id opponent fen : string)
    (limit_type limit_value multipv : option Json)
    : option (option PendingJob) :=
  if str_is_empty id || str_is_empty fen then Some None
  else
    lt ← py_int_of (default (JNum 0) limit_type);
    lv ← py_int_of (default (JNum 30) limit_value);
    mpv ← int_or_default multipv 1;
    Some (Some {| job_id := id; job_opponent := opponent; job_fen := fen;
                  job_limit_type := lt; job_limit_value := lv;
                  job_multipv := mpv |}).

(** ** Further predicates *)

(** A token of a line: not empty, no white space in it. *)
Fixpoint no_space (s : string) : bool :=
  match s with
  | EmptyString => true
  | String c s' => negb (py_isspace c) && no_space s'
  end.

Definition is_token (s : string) : bool :=
  negb (str_is_empty s) && no_space s.

(** What an engine reports in an [info] line before the moves. *)
Inductive InfoItem : Type :=
| ItemNum (keyword : string) (z : Z)
| ItemScoreCp (z : Z)
| ItemScoreMate (z : Z).

Definition item_tokens (i : InfoItem) : list string :=
  match i with
  | ItemNum k z => [k; py_str_int z]
  | ItemScoreCp z => ["score"; "cp"; py_str_int z]
  | ItemScoreMate z => ["score"; "mate"; py_str_int z]
  end.

Definition item_field (i : InfoItem) : string * JsonVal :=
  match i with
  | ItemNum k z => (k, JInt z)
  | ItemScoreCp z => ("score_cp", JInt z)
  | ItemScoreMate z => ("score_mate", JInt z)
  end.

Definition item_ok (i : InfoItem) : Prop :=
  match i with
  | ItemNum k _ => numeric_keyword k
  | _ => True
  end.

(** The tokens of an [info] line with these items and this principal
    variation. *)
Definition info_tokens (items : list InfoItem) (moves : list string)
    : list string :=
  "info" :: flat_map item_tokens items
  ++ match moves with [] => [] | _ :: _ => "pv" :: moves end.

(** The commands of [run] up to [go], in the order of the source. *)
Definition handshake (threads : Z) (job : PendingJob) : list string :=
  ["uci"]
  ++ (if 0 <? threads
      then ["setoption name Threads value " +:+ py_str_int threads] else [])
  ++ ["setoption name MultiPV value " +:+ py_str_int (effective_multipv job);
      "isready"; "ucinewgame"; "position fen " +:+ job_fen job; go_cmd job].

(** What the streaming loop of [run] does: it writes [stop], it makes an
    update. *)
Definition stream_action (a : Action) : Prop :=
  a = Send "stop" \/ exists st f l, a = Update st f l.

(** An update made for an [info] line tells what the line says: its log
    line is the line, its [multipv] is that of the line, 1 if the line
    names none, and every other value parsed from the line is in its
    fields. *)
Definition reports_its_line (u : Z * Fields * string) : Prop :=
  u.1.1 = JOB_RUNNING ->
  py_startswith "info" u.2 = true
  /\ exists parsed mpv,
       parse_info_line u.2 = Some parsed
       /\ json_int (default (JInt 1) (dict_get "multipv" parsed)) = Some mpv
       /\ dict_get "multipv" u.1.2 = Some (JInt mpv)
       /\ forall k v, k <> "multipv" -> dict_get k parsed = Some v ->
                      dict_get k u.1.2 = Some v.

(** An engine that reports two lines and its best move. *)
Definition env_two_lines : Env :=
  {| env_spawn_error := None;
     env_stdout := ["id name Stockfish"; "uciok"; "readyok";
                    "info depth 1 multipv 1 score cp 20 pv e2e4";
                    "info depth 1 multipv 2 score cp 11 pv d2d4";
                    "bestmove e2e4 ponder e7e5"];
     env_write_error := fun _ => None;
     env_cancel_at := fun _ => false;
     env_cancel_at_bestmove := false;
     env_value_error := fun _ => "invalid literal for int()" |}.

(** [a] does not come after [b] in [ORDER BY created_at_ms DESC]. *)
Definition created_ge (a b : Row) : Prop :=
  sql_lt (row_created_at_ms a) (row_created_at_ms b) = false.

(** The time stamps of a record agree with its status and are in order. *)
Definition times_ok (r : JobRecord) : Prop :=
  (is_terminal (rec_status r) = true <-> is_Some (rec_finished_at_ms r))
  /\ (rec_status r = JOB_PENDING \/ rec_status r = JOB_QUEUED ->
      rec_started_at_ms r = None)
  /\ (rec_status r = JOB_RUNNING -> is_Some (rec_started_at_ms r))
  /\ (forall t, rec_started_at_ms r = Some t ->
        rec_created_at_ms r <= t <= rec_last_update_ms r)
  /\ (forall t, rec_finished_at_ms r = Some t ->
        rec_created_at_ms r <= t <= rec_last_update_ms r
        /\ forall t0, rec_started_at_ms r = Some t0 -> t0 <= t).

(** Every entry of the per-multipv table names its own key. *)
Definition mpv_tagged (r : JobRecord) : Prop :=
  forall k f, (k, f) ∈ rec_last_by_mpv r ->
    exists z, key_int k = Some z /\ dict_get "multipv" f = Some (JInt z).

(** The log of a record is within its bound, which is 2000 lines or more. *)
Definition log_bounded (r : JobRecord) : Prop :=
  (length (rec_log r) <= rec_log_maxlen r)%nat
  /\ (2000 <= rec_log_maxlen r)%nat.

(** The server knows the job and has it neither queued nor running. *)
Definition retired (id : string) (s : Server) : Prop :=
  is_Some (job_records s !! id)
  /\ active_jobs s !! id = None
  /\ in_pending id (pending s) = false.

(** The server [s] started with [--max-jobs 0]. *)
Definition set_max_jobs_0 (s : Server) : Server :=
  {| server_id := server_id s; threads := threads s; max_jobs := 0;
     logical_cores := logical_cores s; store := store s;
     job_records := job_records s; active_jobs := active_jobs s;
     pending := pending s; ticks := ticks s |}.

(** A store with two log lines of [j1]. *)
Definition demo_log_db : JobStore :=
  {| db_jobs := db_jobs demo_db;
     db_job_logs := [("j1", 201, "started"); ("j0", 205, "other");
                     ("j1", 210, "info depth 1")] |}.

(** * Proofs *)

(** ** Dicts *)

Section DictFacts.
Context {K V : Type} `{EqDecision K}.
Implicit Types (d : list (K * V)) (k : K) (v : V).

Lemma dict_get_set d k k' v :
  dict_get k (dict_set k' v d)
  = if decide (k = k') then Some v else dict_get k d.
Proof.
  induction d as [|[k0 v0] d IH]; simpl.
  - repeat case_decide; congruence.
  - destruct (decide (k' = k0)) as [->|Hne]; simpl.
    + repeat case_decide; congruence.
    + rewrite IH. repeat case_decide; congruence.
Qed.

Lemma dict_get_set_eq d k v : dict_get k (dict_set k v d) = Some v.
Proof. rewrite dict_get_set. by rewrite decide_True. Qed.

Lemma dict_get_set_ne d k k' v :
  k <> k' -> dict_get k (dict_set k' v d) = dict_get k d.
Proof. intros. rewrite dict_get_set. by rewrite decide_False. Qed.

Lemma dict_mem_set d k k' v :
  dict_mem k (dict_set k' v d) = true -> k = k' \/ dict_mem k d = true.
Proof.
  unfold dict_mem. rewrite dict_get_set.
  case_decide; [by left | by right].
Qed.

Lemma dict_set_nonempty d k v : dict_set k v d <> [].
Proof. destruct d as [|[k0 v0] d]; simpl; [done|]. by case_decide. Qed.

Lemma dict_get_update d upd k :
  dict_get k (dict_update d upd)
  = match dict_get k (rev upd) with
    | Some v => Some v
    | None => dict_get k d
    end.
Proof.
  unfold dict_update. revert d.
  induction upd as [|[k0 v0] upd IH] using rev_ind; intros d; [done|].
  rewrite fold_left_app, rev_app_distr. simpl.
  rewrite dict_get_set. case_decide; [done|]. apply IH.
Qed.

Lemma dict_get_None_not_in d k :
  dict_get k d = None <-> k ∉ dict_keys d.
Proof.
  induction d as [|[k0 v0] d IH]; simpl.
  - split; [intros _; apply not_elem_of_nil | done].
  - case_decide as Hk.
    + subst. split; [done|]. intros Hn. exfalso. apply Hn. left.
    + rewrite IH, not_elem_of_cons. tauto.
Qed.

Lemma dict_keys_set d k v :
  dict_keys (dict_set k v d)
  = if dict_mem k d then dict_keys d else dict_keys d ++ [k].
Proof.
  unfold dict_mem. induction d as [|[k0 v0] d IH]; simpl; [done|].
  case_decide as Hk; simpl.
  - by subst.
  - rewrite IH. by destruct (dict_get k d).
Qed.
Lemma dict_mem_update d upd k :
  dict_mem k (dict_update d upd) = dict_mem k d || dict_mem k upd.
Proof.
  unfold dict_update. revert d.
  induction upd as [|[k0 v0] upd IH] using rev_ind; intros d.
  - simpl. unfold dict_mem at 3. simpl. by rewrite orb_false_r.
  - rewrite fold_left_app. simpl. unfold dict_mem at 1.
    rewrite dict_get_set. case_decide as Hk.
    + subst. symmetry. apply orb_true_iff. right.
      unfold dict_mem.
      destruct (dict_get k0 (upd ++ [(k0, v0)])) eqn:Hg; [done|].
      apply dict_get_None_not_in in Hg. exfalso. apply Hg.
      unfold dict_keys. rewrite map_app. apply elem_of_app. right. left.
    + fold (dict_mem k (fold_left (fun acc kv => dict_set kv.1 kv.2 acc) upd d)).
      rewrite IH. f_equal. unfold dict_mem.
      assert (dict_get k (upd ++ [(k0, v0)]) = None <-> dict_get k upd = None)
        as Hiff.
      { rewrite !dict_get_None_not_in. unfold dict_keys.
        rewrite map_app, not_elem_of_app. simpl.
        rewrite not_elem_of_cons. split; [tauto|].
        intros ?. split; [done|]. split; [done | apply not_elem_of_nil]. }
      destruct (dict_get k (upd ++ [(k0, v0)])), (dict_get k upd);
        try done; destruct Hiff as [H1 H2]; try (by specialize (H1 eq_refl));
        by specialize (H2 eq_refl).
Qed.
End DictFacts.

(** ** [int(str(z)) == z] *)

Lemma int_digits_uint d acc prev :
  d <> Decimal.Nil \/ prev = true ->
  int_digits (NilEmpty.string_of_uint d) acc prev = Some (uint_val d acc).
Proof.
  revert acc prev.
  induction d; intros acc prev Hd; simpl;
    try (rewrite IHd by (by right); f_equal; f_equal; lia).
  destruct Hd as [Hd | ->]; [done | done].
Qed.

Lemma uint_val_acc d (acc : positive) :
  uint_val d (Z.pos acc) = Z.pos (Pos.of_uint_acc d acc).
Proof.
  revert acc. induction d; intros acc; simpl; try done;
    try (rewrite <- IHd; f_equal; lia).
Qed.

Lemma uint_val_0 d : uint_val d 0 = Z.of_N (Pos.of_uint d).
Proof.
  induction d; simpl; [done | exact IHd | exact (uint_val_acc d _) ..].
Qed.

Lemma py_int_str_uint (p : positive) :
  int_digits (NilEmpty.string_of_uint (Pos.to_uint p)) 0 false = Some (Z.pos p).
Proof.
  rewrite int_digits_uint by (left; apply DecimalPos.Unsigned.to_uint_nonnil).
  by rewrite uint_val_0, DecimalPos.Unsigned.of_to.
Qed.

Lemma int_lstrip_uint d :
  int_lstrip (NilEmpty.string_of_uint d) = NilEmpty.string_of_uint d.
Proof. by destruct d. Qed.

Lemma int_rstrip_uint d :
  int_rstrip (NilEmpty.string_of_uint d) = NilEmpty.string_of_uint d.
Proof. induction d; simpl; [done | by rewrite IHd ..]. Qed.

Lemma py_int_unsigned d :
  d <> Decimal.Nil ->
  py_int (NilEmpty.string_of_uint d)
  = int_digits (NilEmpty.string_of_uint d) 0 false.
Proof.
  intros Hd. unfold py_int.
  rewrite int_lstrip_uint, int_rstrip_uint. by destruct d.
Qed.

Lemma py_int_negative d :
  py_int (String "-" (NilEmpty.string_of_uint d))
  = Z.opp <$> int_digits (NilEmpty.string_of_uint d) 0 false.
Proof.
  unfold py_int.
  change (int_lstrip (String "-" ?s)) with (String "-" s).
  change (int_rstrip (String "-" ?s)) with (String "-" (int_rstrip s)).
  by rewrite int_rstrip_uint.
Qed.

(** [int(str(z)) == z]. *)
Lemma py_int_str_int (z : Z) : py_int (py_str_int z) = Some z.
Proof.
  unfold py_str_int. destruct z as [|p|p]; simpl; [done | |].
  - pose proof (DecimalPos.Unsigned.to_uint_nonnil p) as Hp.
    assert (NilZero.string_of_uint (Pos.to_uint p)
            = NilEmpty.string_of_uint (Pos.to_uint p)) as ->
      by (by destruct (Pos.to_uint p)).
    rewrite py_int_unsigned by done. apply py_int_str_uint.
  - pose proof (DecimalPos.Unsigned.to_uint_nonnil p) as Hp.
    assert (NilZero.string_of_uint (Pos.to_uint p)
            = NilEmpty.string_of_uint (Pos.to_uint p)) as ->
      by (by destruct (Pos.to_uint p)).
    rewrite py_int_negative, py_int_str_uint. done.
Qed.


(** ** [parse_info_line] *)

Lemma parse_skip tok rest out :
  ~ is_keyword tok ->
  parse_info_tokens (tok :: rest) out = parse_info_tokens rest out.
Proof.
  unfold is_keyword. rewrite !not_elem_of_cons. intros (?&?&?&?&?&?&?&_).
  simpl.
  repeat match goal with
         | H : tok <> ?k |- _ =>
             apply String.eqb_neq in H; rewrite H; clear H
         end.
  simpl. by destruct rest as [|? [|? ?]].
Qed.

Lemma parse_numeric tok v rest out :
  numeric_keyword tok ->
  parse_info_tokens (tok :: v :: rest) out
  = z ← py_int v; parse_info_tokens rest (dict_set tok (JInt z) out).
Proof.
  unfold numeric_keyword. rewrite !elem_of_cons, elem_of_nil.
  intros [->|[->|[->|[->|[->|[]]]]]]; reflexivity.
Qed.

Lemma parse_keyword_last tok out :
  parse_info_tokens [tok] out = Some out.
Proof.
  simpl. rewrite !andb_false_r. done.
Qed.

Lemma parse_score_short t out :
  parse_info_tokens ["score"; t] out = parse_info_tokens [t] out.
Proof. reflexivity. Qed.

Lemma parse_score tok v rest out :
  parse_info_tokens ("score" :: tok :: v :: rest) out
  = if String.eqb tok "cp" then
      z ← py_int v; parse_info_tokens rest (dict_set "score_cp" (JInt z) out)
    else if String.eqb tok "mate" then
      z ← py_int v; parse_info_tokens rest (dict_set "score_mate" (JInt z) out)
    else parse_info_tokens rest out.
Proof. reflexivity. Qed.

Lemma parse_pv v rest out :
  parse_info_tokens ("pv" :: v :: rest) out
  = Some (dict_set "pv" (JStr (py_join " " (v :: rest))) out).
Proof. reflexivity. Qed.

Lemma values_are_ints_tail tok toks :
  values_are_ints (tok :: toks) -> values_are_ints toks.
Proof.
  intros [H1 H2]. split.
  - intros i k v Hk Hn Hv. exact (H1 (S i) k v Hk Hn Hv).
  - intros i t v Hs Ht Hc Hv. exact (H2 (S i) t v Hs Ht Hc Hv).
Qed.

Lemma keys_within_set keys k v out :
  k ∈ keys -> keys_within keys out -> keys_within keys (dict_set k v out).
Proof.
  intros Hk Hout k' Hm. apply dict_mem_set in Hm as [->|Hm]; auto.
Qed.

Lemma numeric_keyword_info_key tok : numeric_keyword tok -> tok ∈ info_keys.
Proof.
  unfold numeric_keyword, info_keys. rewrite !elem_of_cons, !elem_of_nil.
  tauto.
Qed.

Lemma parse_info_tokens_total (n : nat) :
  forall toks out,
    (length toks <= n)%nat ->
    values_are_ints toks ->
    keys_within info_keys out ->
    exists out', parse_info_tokens toks out = Some out'
                 /\ keys_within info_keys out'.
Proof.
  induction n as [|n IH]; intros toks out Hlen Hints Hout.
  { destruct toks; [exists out; by split | simpl in Hlen; lia]. }
  destruct toks as [|tok rest]; [exists out; by split|].
  simpl in Hlen.
  destruct (decide (is_keyword tok)) as [Hkw|Hkw].
  2:{ rewrite parse_skip by done.
      apply IH; [lia | by eapply values_are_ints_tail | done]. }
  destruct rest as [|v rest].
  { rewrite parse_keyword_last. exists out. by split. }
  pose proof (values_are_ints_tail _ _ Hints) as Hints1.
  destruct (decide (numeric_keyword tok)) as [Hnum|Hnum].
  { rewrite parse_numeric by done.
    destruct Hints as [H1 _].
    destruct (H1 0%nat tok v eq_refl Hnum eq_refl) as [z ->]. simpl.
    apply IH; [simpl in Hlen; lia | by eapply values_are_ints_tail |].
    apply keys_within_set; [by apply numeric_keyword_info_key | done]. }
  assert (tok = "score" \/ tok = "pv") as [->| ->].
  { revert Hkw Hnum. unfold is_keyword, numeric_keyword.
    rewrite !elem_of_cons, !elem_of_nil. tauto. }
  - destruct rest as [|w rest].
    { rewrite parse_score_short. apply IH; [simpl in *; lia | done | done]. }
    pose proof (values_are_ints_tail _ _ Hints1) as Hints2.
    rewrite parse_score. destruct Hints as [_ H2].
    destruct (String.eqb_spec v "cp") as [->|Hcp].
    { destruct (H2 0%nat "cp" w eq_refl eq_refl (or_introl eq_refl) eq_refl)
        as [z ->]. simpl.
      apply IH; [simpl in Hlen; lia | by eapply values_are_ints_tail |].
      apply keys_within_set; [|done].
      unfold info_keys. rewrite !elem_of_cons. tauto. }
    destruct (String.eqb_spec v "mate") as [->|Hmate].
    { destruct (H2 0%nat "mate" w eq_refl eq_refl (or_intror eq_refl) eq_refl)
        as [z ->]. simpl.
      apply IH; [simpl in Hlen; lia | by eapply values_are_ints_tail |].
      apply keys_within_set; [|done].
      unfold info_keys. rewrite !elem_of_cons. tauto. }
    apply IH; [simpl in Hlen; lia | by eapply values_are_ints_tail | done].
  - rewrite parse_pv. eexists; split; [done|].
    apply keys_within_set; [|done].
    unfold info_keys. rewrite !elem_of_cons. tauto.
Qed.

Lemma parse_info_tokens_no_keyword toks out :
  Forall (fun tok => ~ is_keyword tok) toks ->
  parse_info_tokens toks out = Some out.
Proof.
  induction 1 as [|tok toks Hk _ IH]; [done|].
  by rewrite parse_skip.
Qed.

Lemma parse_info_tokens_keys (n : nat) :
  forall toks out out',
    (length toks <= n)%nat ->
    parse_info_tokens toks out = Some out' ->
    keys_within info_keys out ->
    keys_within info_keys out'.
Proof.
  induction n as [|n IH]; intros toks out out' Hlen Hp Hout.
  { destruct toks; [by injection Hp as <- | simpl in Hlen; lia]. }
  destruct toks as [|tok rest]; [by injection Hp as <-|].
  simpl in Hlen.
  destruct (decide (is_keyword tok)) as [Hkw|Hkw].
  2:{ rewrite parse_skip in Hp by done. eapply IH; [|done..]. lia. }
  destruct rest as [|v rest].
  { rewrite parse_keyword_last in Hp. by injection Hp as <-. }
  destruct (decide (numeric_keyword tok)) as [Hnum|Hnum].
  { rewrite parse_numeric in Hp by done.
    destruct (py_int v) as [z|]; [simpl in Hp|done].
    eapply IH; [|done|]; [simpl in Hlen; lia|].
    apply keys_within_set; [by apply numeric_keyword_info_key | done]. }
  assert (tok = "score" \/ tok = "pv") as [->| ->].
  { revert Hkw Hnum. unfold is_keyword, numeric_keyword.
    rewrite !elem_of_cons, !elem_of_nil. tauto. }
  - destruct rest as [|w rest].
    { rewrite parse_score_short in Hp. eapply IH; [|done..]. simpl in *; lia. }
    rewrite parse_score in Hp.
    destruct (String.eqb v "cp").
    { destruct (py_int w) as [z|]; [simpl in Hp|done].
      eapply IH; [|done|]; [simpl in Hlen; lia|].
      apply keys_within_set; [|done].
      unfold info_keys. rewrite !elem_of_cons. tauto. }
    destruct (String.eqb v "mate").
    { destruct (py_int w) as [z|]; [simpl in Hp|done].
      eapply IH; [|done|]; [simpl in Hlen; lia|].
      apply keys_within_set; [|done].
      unfold info_keys. rewrite !elem_of_cons. tauto. }
    eapply IH; [|done..]. simpl in Hlen; lia.
  - rewrite parse_pv in Hp. injection Hp as <-.
    apply keys_within_set; [|done].
    unfold info_keys. rewrite !elem_of_cons. tauto.
Qed.

Lemma parse_info_line_keys line parsed :
  parse_info_line line = Some parsed -> keys_within info_keys parsed.
Proof.
  intros Hp. eapply parse_info_tokens_keys; [done | exact Hp | by intros k].
Qed.

Lemma parse_info_line_no_bestmove line parsed :
  parse_info_line line = Some parsed -> dict_mem "bestmove" parsed = false.
Proof.
  intros Hp. apply parse_info_line_keys in Hp.
  destruct (dict_mem "bestmove" parsed) eqn:Hm; [|done].
  apply Hp in Hm. revert Hm. unfold info_keys.
  rewrite !elem_of_cons, elem_of_nil. intros H. exfalso.
  repeat destruct H as [H|H]; done.
Qed.

(** C9, as stated, fails: [parse_info_line] is not total.  On the line
    [info depth x] the call [int("x")] raises [ValueError], so no map is
    returned. *)
Lemma parse_info_line_raises :
  ~ exists out, parse_info_line "info depth x" = Some out.
Proof. intros [out Hout]. vm_compute in Hout. discriminate. Qed.

(** C9, as amended.  [parse_info_line] returns a map, without raising,
    for every line in which each token after [depth], [seldepth],
    [nodes], [nps] or [multipv] and each token after [score cp] or
    [score mate] is an integer literal [int()] accepts, and the keys of
    the map are among the recognised ones; a line that holds no
    recognised keyword yields the empty map; a token that is not a
    recognised keyword is skipped by advancing one token, and so is a
    keyword that is the last token of the line.  [int()] raises when the
    first recognised keyword of the line is one of the five and the token
    after it is not such a literal; a token that is not read as a value,
    as one after [pv], is not converted. *)
Theorem parse_info_line_total_on_integers (line : string) :
  (values_are_ints (py_split line) ->
   exists out,
     parse_info_line line = Some out /\ keys_within info_keys out)
  /\ (Forall (fun tok => ~ is_keyword tok) (py_split line) ->
      parse_info_line line = Some [])
  /\ (forall tok rest acc,
         ~ is_keyword tok ->
         parse_info_tokens (tok :: rest) acc = parse_info_tokens rest acc)
  /\ (forall tok acc, parse_info_tokens [tok] acc = Some acc)
  /\ (forall pre k v rest,
         py_split line = pre ++ k :: v :: rest ->
         Forall (fun tok => ~ is_keyword tok) pre ->
         numeric_keyword k -> py_int v = None ->
         parse_info_line line = None)
  /\ (forall pre v rest,
         py_split line = pre ++ "pv" :: v :: rest ->
         Forall (fun tok => ~ is_keyword tok) pre ->
         parse_info_line line = Some [("pv", JStr (py_join " " (v :: rest)))]).
Proof.
  split; [|split; [|split; [|split; [|split]]]].
  5:{ intros pre k v rest Hsplit Hpre Hk Hv. unfold parse_info_line.
      rewrite Hsplit. clear Hsplit.
      induction Hpre as [|tok pre Htok _ IH]; simpl app.
      - rewrite parse_numeric by done. by rewrite Hv.
      - by rewrite parse_skip. }
  5:{ intros pre v rest Hsplit Hpre. unfold parse_info_line.
      rewrite Hsplit. clear Hsplit.
      induction Hpre as [|tok pre Htok _ IH]; simpl app.
      - apply parse_pv.
      - by rewrite parse_skip. }
  - intros Hints.
    destruct (parse_info_tokens_total (length (py_split line))
                (py_split line) [])
      as (out & Hout & Hkeys); [done | done | by intros k |].
    by exists out.
  - intros Hno. by apply parse_info_tokens_no_keyword.
  - intros tok rest acc. apply parse_skip.
  - intros tok acc. apply parse_keyword_last.
Qed.

Lemma parse_info_line_total_on_integers_witness :
  values_are_ints (py_split "info depth 12")
  /\ parse_info_line "info depth 12" = Some [("depth", JInt 12)]
  /\ parse_info_line "info nps fast" = None
  /\ parse_info_line "info pv depth x" = Some [("pv", JStr "depth x")].
Proof.
  assert (Forall (fun tok => ~ is_keyword tok) ["info"]) as Hpre.
  { constructor; [|done]. unfold is_keyword. rewrite !not_elem_of_cons.
    split_and!; try done. apply not_elem_of_nil. }
  assert (numeric_keyword "nps") as Hnps
    by (unfold numeric_keyword; rewrite !elem_of_cons; tauto).
  assert (values_are_ints (py_split "info depth 12")) as Hints.
  { split.
    - intros [|[|[|i]]] k v Hk Hnum Hv; simpl in *; simplify_eq.
      + exfalso. revert Hnum. unfold numeric_keyword.
        rewrite !elem_of_cons, elem_of_nil. intros H.
        repeat destruct H as [H|H]; done.
      + by eexists.
    - intros [|[|[|i]]] t v Hs Ht Hc Hv; simpl in *; simplify_eq. }
  split; [exact Hints|].
  destruct (proj1 (parse_info_line_total_on_integers "info depth 12") Hints)
    as (out & Hout & _).
  split; [reflexivity|]. split.
  - destruct (parse_info_line_total_on_integers "info nps fast")
      as (_ & _ & _ & _ & Hraise & _).
    exact (Hraise ["info"] "nps" "fast" [] eq_refl Hpre Hnps eq_refl).
  - destruct (parse_info_line_total_on_integers "info pv depth x")
      as (_ & _ & _ & _ & _ & Hpv).
    exact (Hpv ["info"] "depth" ["x"] eq_refl Hpre).
Defined.

(** ** The engine driver *)

Lemma updates_of_app tr1 tr2 :
  updates_of (tr1 ++ tr2) = updates_of tr1 ++ updates_of tr2.
Proof. apply omap_app. Qed.

Lemma sent_of_app tr1 tr2 : sent_of (tr1 ++ tr2) = sent_of tr1 ++ sent_of tr2.
Proof. apply omap_app. Qed.

Lemma count_stop_app tr1 tr2 :
  count_stop (tr1 ++ tr2) = (count_stop tr1 + count_stop tr2)%nat.
Proof.
  unfold count_stop. by rewrite sent_of_app, filter_app, length_app.
Qed.

Lemma loop_head_spec env st st1 r :
  loop_head env st = (st1, r) ->
  d_iter st1 = S (d_iter st)
  /\ d_trace st1
     = d_trace st ++ (if env_cancel_at env (d_iter st) then [Send "stop"] else []).
Proof.
  unfold loop_head, send. simpl.
  destruct (env_cancel_at env (d_iter st)); simpl.
  - destruct (env_write_error env (d_sent st)); intros [= <- <-]; done.
  - intros [= <- <-]. simpl. by rewrite app_nil_r.
Qed.

(** An induction principle that follows the cases of the streaming
    loop. *)
Lemma stream_cases (env : Env)
    (P : list string -> list (Z * Fields) -> DState
         -> DState * Res (Z * Fields) -> Prop) :
  (forall lines lbm st st1 e,
      loop_head env st = (st1, Raise e) -> P lines lbm st (st1, Raise e)) ->
  (forall lbm st st1,
      loop_head env st = (st1, Ret tt) ->
      P [] lbm st (st1, Raise "Engine terminated unexpectedly")) ->
  (forall line rest lbm st st1,
      loop_head env st = (st1, Ret tt) ->
      str_is_empty (py_strip line) = true ->
      P rest lbm st1 (stream env rest lbm st1) ->
      P (line :: rest) lbm st (stream env rest lbm st1)) ->
  (forall line rest lbm st st1,
      loop_head env st = (st1, Ret tt) ->
      str_is_empty (py_strip line) = false ->
      py_startswith "info" (py_strip line) = true ->
      (parse_info_line (py_strip line)
       ≫= fun parsed => json_int (default (JInt 1) (dict_get "multipv" parsed)))
      = None ->
      P (line :: rest) lbm st
        (st1, Raise (env_value_error env (py_strip line)))) ->
  (forall line rest lbm st st1 parsed mpv,
      loop_head env st = (st1, Ret tt) ->
      str_is_empty (py_strip line) = false ->
      py_startswith "info" (py_strip line) = true ->
      parse_info_line (py_strip line) = Some parsed ->
      json_int (default (JInt 1) (dict_get "multipv" parsed)) = Some mpv ->
      let cur :=
        dict_set "multipv" (JInt mpv)
          (dict_update (default [] (dict_get mpv lbm)) parsed) in
      let st2 :=
        fst (log_action (Update JOB_RUNNING cur (py_strip line)) st1) in
      P rest (dict_set mpv cur lbm) st2
        (stream env rest (dict_set mpv cur lbm) st2) ->
      P (line :: rest) lbm st (stream env rest (dict_set mpv cur lbm) st2)) ->
  (forall line rest lbm st st1,
      loop_head env st = (st1, Ret tt) ->
      str_is_empty (py_strip line) = false ->
      py_startswith "info" (py_strip line) = false ->
      py_startswith "bestmove" (py_strip line) = true ->
      let final_status :=
        if env_cancel_at_bestmove env then JOB_CANCELLED else JOB_FINISHED in
      let fields :=
        dict_set "multipv" (JInt 1)
          (dict_update (default [] (dict_get 1 lbm))
             (parse_bestmove_line (py_strip line))) in
      P (line :: rest) lbm st
        (fst (log_action (Update final_status fields (py_strip line)) st1),
         Ret (final_status, fields))) ->
  (forall line rest lbm st st1,
      loop_head env st = (st1, Ret tt) ->
      str_is_empty (py_strip line) = false ->
      py_startswith "info" (py_strip line) = false ->
      py_startswith "bestmove" (py_strip line) = false ->
      P rest lbm st1 (stream env rest lbm st1) ->
      P (line :: rest) lbm st (stream env rest lbm st1)) ->
  forall lines lbm st, P lines lbm st (stream env lines lbm st).
Proof.
  intros Hraise Heof Hblank Hbad Hinfo Hbest Hother lines.
  induction lines as [|line rest IH]; intros lbm st.
  - simpl. unfold mbind, Drv_bind.
    destruct (loop_head env st) as [st1 [[]|e]] eqn:Hh; eauto.
  - simpl. unfold mbind, Drv_bind.
    destruct (loop_head env st) as [st1 [[]|e]] eqn:Hh; [|eauto].
    destruct (str_is_empty (py_strip line)) eqn:Hempty; [eauto|].
    destruct (py_startswith "info" (py_strip line)) eqn:Hi.
    + destruct (parse_info_line (py_strip line)) as [parsed|] eqn:Hp.
      * destruct (json_int (default (JInt 1) (dict_get "multipv" parsed)))
          as [mpv|] eqn:Hm.
        -- apply (Hinfo line rest lbm st st1 parsed mpv); auto.
        -- apply Hbad; auto. rewrite Hp. simpl. done.
      * apply Hbad; auto. rewrite Hp. done.
    + destruct (py_startswith "bestmove" (py_strip line)) eqn:Hb; [|eauto].
      apply (Hbest line rest lbm st st1); auto.
Qed.

Lemma loop_head_updates env st st1 r :
  loop_head env st = (st1, r) ->
  updates_of (d_trace st1) = updates_of (d_trace st).
Proof.
  intros H. apply loop_head_spec in H as [_ ->].
  rewrite updates_of_app. destruct (env_cancel_at _ _); simpl;
    by rewrite app_nil_r.
Qed.

Lemma table_clean_nil : table_clean [].
Proof. intros k f. done. Qed.

Lemma table_clean_set lbm k f :
  table_clean lbm -> dict_mem "bestmove" f = false ->
  table_clean (dict_set k f lbm).
Proof.
  intros Hl Hf k' f'. rewrite dict_get_set.
  case_decide; [by intros [= <-] | apply Hl].
Qed.

Lemma table_clean_get lbm k :
  table_clean lbm -> dict_mem "bestmove" (default [] (dict_get k lbm)) = false.
Proof.
  intros Hl. destruct (dict_get k lbm) as [f|] eqn:Hg; [by eapply Hl | done].
Qed.

Lemma dict_mem_set_ne {V : Type} (d : list (string * V)) k k' v :
  k <> k' -> dict_mem k (dict_set k' v d) = dict_mem k d.
Proof. intros. unfold dict_mem. by rewrite dict_get_set_ne. Qed.

(** What the streaming loop passes to [send_job_update]: updates for
    [info] lines, then, unless it fails, the one for [bestmove]. *)
Lemma stream_updates env lines lbm st :
  table_clean lbm ->
  exists ups,
    updates_of (d_trace (stream env lines lbm st).1)
    = updates_of (d_trace st) ++ ups
    /\ match (stream env lines lbm st).2 with
       | Ret v =>
           exists infos l,
             ups = infos ++ [(v.1, v.2, l)]
             /\ Forall running_update infos /\ final_update (v.1, v.2, l)
       | Raise _ => Forall running_update ups
       end.
Proof.
  revert lines lbm st.
  apply (stream_cases env (fun lines lbm st res =>
    table_clean lbm ->
    exists ups,
      updates_of (d_trace res.1) = updates_of (d_trace st) ++ ups
      /\ match res.2 with
         | Ret v =>
             exists infos l,
               ups = infos ++ [(v.1, v.2, l)]
               /\ Forall running_update infos /\ final_update (v.1, v.2, l)
         | Raise _ => Forall running_update ups
         end)); simpl.
  - intros _ lbm st st1 e Hh _. exists []. rewrite app_nil_r.
    split; [by eapply loop_head_updates | done].
  - intros lbm st st1 Hh _. exists []. rewrite app_nil_r.
    split; [by eapply loop_head_updates | done].
  - intros line rest lbm st st1 Hh _ IH Hl.
    rewrite <- (loop_head_updates _ _ _ _ Hh). by apply IH.
  - intros line rest lbm st st1 Hh _ _ _ _. exists []. rewrite app_nil_r.
    split; [by eapply loop_head_updates | done].
  - intros line rest lbm st st1 parsed mpv Hh _ _ Hp Hm IH Hl.
    set (cur := dict_set "multipv" (JInt mpv)
                  (dict_update (default [] (dict_get mpv lbm)) parsed)) in *.
    assert (dict_mem "bestmove" cur = false) as Hcur.
    { unfold cur. rewrite dict_mem_set_ne by done.
      rewrite dict_mem_update, table_clean_get by done. simpl.
      by eapply parse_info_line_no_bestmove. }
    destruct IH as (ups & Hups & Hres); [by apply table_clean_set|].
    exists ((JOB_RUNNING, cur, py_strip line) :: ups). split.
    { rewrite Hups. simpl. rewrite updates_of_app. simpl.
      rewrite (loop_head_updates _ _ _ _ Hh). by rewrite <- app_assoc. }
    assert (running_update (JOB_RUNNING, cur, py_strip line)) as Hrun.
    { split; [done|]. split; [|done]. exists mpv. apply dict_get_set_eq. }
    destruct (stream env rest (dict_set mpv cur lbm) _).2 as [v|e].
    + destruct Hres as (infos & l & -> & Hinfos & Hfin).
      exists ((JOB_RUNNING, cur, py_strip line) :: infos), l.
      split; [done|]. split; [by constructor | done].
    + by constructor.
  - intros line rest lbm st st1 Hh _ _ _ Hl. eexists. split.
    { rewrite updates_of_app. simpl.
      by rewrite (loop_head_updates _ _ _ _ Hh). }
    exists [], (py_strip line). split; [done|]. split; [done|].
    split; [by destruct (env_cancel_at_bestmove env); [right|left]|].
    split; [apply dict_get_set_eq|]. simpl.
    rewrite dict_mem_set_ne by done.
    by rewrite dict_mem_update, table_clean_get.
  - intros line rest lbm st st1 Hh _ _ _ IH Hl.
    rewrite <- (loop_head_updates _ _ _ _ Hh). by apply IH.
Qed.

Lemma count_cancel_S env a c :
  (a < c)%nat ->
  count_cancel env a c
  = ((if env_cancel_at env a then 1 else 0) + count_cancel env (S a) c)%nat.
Proof.
  intros Hac. unfold count_cancel.
  replace (c - a)%nat with (S (c - S a)) by lia. simpl.
  rewrite filter_cons.
  destruct (decide (env_cancel_at env a = true)) as [->|Hf]; simpl; [done|].
  apply not_true_is_false in Hf. by rewrite Hf.
Qed.

Lemma count_cancel_same env a : count_cancel env a a = 0%nat.
Proof. unfold count_cancel. by rewrite Nat.sub_diag. Qed.

Lemma loop_head_stops env st st1 r :
  loop_head env st = (st1, r) ->
  count_stop (d_trace st1)
  = (count_stop (d_trace st)
     + if env_cancel_at env (d_iter st) then 1 else 0)%nat.
Proof.
  intros H. apply loop_head_spec in H as [_ ->].
  rewrite count_stop_app. by destruct (env_cancel_at _ _).
Qed.

(** [stop] is written once in every iteration that begins with the
    cancel event set, and nowhere else in the loop. *)
Lemma stream_stops env lines lbm st :
  (d_iter st < d_iter (stream env lines lbm st).1)%nat
  /\ count_stop (d_trace (stream env lines lbm st).1)
     = (count_stop (d_trace st)
        + count_cancel env (d_iter st) (d_iter (stream env lines lbm st).1))%nat.
Proof.
  revert lines lbm st.
  apply (stream_cases env (fun lines lbm st res =>
    (d_iter st < d_iter res.1)%nat
    /\ count_stop (d_trace res.1)
       = (count_stop (d_trace st)
          + count_cancel env (d_iter st) (d_iter res.1))%nat)); simpl.
  - intros _ _ st st1 e Hh.
    pose proof (loop_head_stops _ _ _ _ Hh) as Hs.
    apply loop_head_spec in Hh as [Hi _]. split; [lia|].
    rewrite count_cancel_S, Hi, count_cancel_same by lia. lia.
  - intros _ st st1 Hh.
    pose proof (loop_head_stops _ _ _ _ Hh) as Hs.
    apply loop_head_spec in Hh as [Hi _]. split; [lia|].
    rewrite count_cancel_S, Hi, count_cancel_same by lia. lia.
  - intros line rest lbm st st1 Hh _ [IHi IHs].
    pose proof (loop_head_stops _ _ _ _ Hh) as Hs.
    apply loop_head_spec in Hh as [Hi _]. split; [lia|].
    rewrite IHs, Hs, (count_cancel_S env (d_iter st)), Hi by lia. lia.
  - intros line rest lbm st st1 Hh _ _ _.
    pose proof (loop_head_stops _ _ _ _ Hh) as Hs.
    apply loop_head_spec in Hh as [Hi _]. split; [lia|].
    rewrite count_cancel_S, Hi, count_cancel_same by lia. lia.
  - intros line rest lbm st st1 parsed mpv Hh _ _ _ _. simpl.
    intros [IHi IHs].
    pose proof (loop_head_stops _ _ _ _ Hh) as Hs.
    apply loop_head_spec in Hh as [Hi _]. split; [lia|].
    rewrite IHs, count_stop_app, Hs, (count_cancel_S env (d_iter st)), Hi
      by lia.
    change (count_stop [Update _ _ _]) with 0%nat. lia.
  - intros line rest lbm st st1 Hh _ _ _.
    pose proof (loop_head_stops _ _ _ _ Hh) as Hs.
    apply loop_head_spec in Hh as [Hi _]. split; [lia|].
    rewrite count_stop_app, Hs, count_cancel_S, Hi, count_cancel_same by lia.
    change (count_stop [Update _ _ _]) with 0%nat. lia.
  - intros line rest lbm st st1 Hh _ _ _ [IHi IHs].
    pose proof (loop_head_stops _ _ _ _ Hh) as Hs.
    apply loop_head_spec in Hh as [Hi _]. split; [lia|].
    rewrite IHs, Hs, (count_cancel_S env (d_iter st)), Hi by lia. lia.
Qed.

Lemma quiet_init : quiet d_init.
Proof. done. Qed.

Lemma send_quiet env cmd st st' r :
  send env cmd st = (st', r) -> cmd <> "stop" -> quiet st -> quiet st'.
Proof.
  unfold send. intros Hs Hc (Hi & Hu & Hn).
  assert (st' = {| d_trace := d_trace st ++ [Send cmd];
                   d_sent := S (d_sent st); d_iter := d_iter st |}) as ->
    by (destruct (env_write_error env (d_sent st)); congruence).
  split; [done|]. simpl. split.
  - rewrite updates_of_app, Hu. done.
  - rewrite count_stop_app, Hn. unfold count_stop. simpl.
    rewrite filter_cons, decide_False by done. done.
Qed.

Lemma read_until_state target err lines st :
  (read_until target err lines st).1 = st.
Proof.
  induction lines as [|line rest IH]; simpl; [done|].
  by destruct (String.eqb (py_strip line) target).
Qed.

Lemma go_cmd_not_stop job : go_cmd job <> "stop".
Proof.
  unfold go_cmd.
  destruct (Z.eqb (job_limit_type job) 0); [done|].
  destruct (Z.eqb (job_limit_type job) 1); [done|].
  destruct (Z.eqb (job_limit_type job) 2); done.
Qed.

(** One [send], or one wait for a line, of [run_try]. *)
Ltac step_send Hq :=
  match goal with
  | |- context [send ?env ?c ?st] =>
      let H := fresh "Hs" in
      let st' := fresh "st" in
      destruct (send env c st) as [st' [[]|?]] eqn:H;
      [ apply send_quiet in H; [clear Hq; rename H into Hq | try done | done]
      | apply send_quiet in H;
        [left; split; [done | by eexists] | try done | done] ]
  end.
Ltac step_read Hq :=
  match goal with
  | |- context [read_until ?t ?e ?l ?st] =>
      let H := fresh "Hr" in
      pose proof (read_until_state t e l st) as H;
      destruct (read_until t e l st) as [? [?|?]];
      simpl in H; subst;
      [| left; split; [done | by eexists] ]
  end.

(** [run_try] either fails before the streaming loop, having sent no
    [stop] and no update, or goes on as the streaming loop does. *)
Lemma run_try_cases env thr job :
  (quiet (run_try env thr job d_init).1
   /\ exists e, (run_try env thr job d_init).2 = Raise e)
  \/ (exists st0 rest,
        quiet st0 /\ run_try env thr job d_init = stream env rest [] st0).
Proof.
  unfold run_try.
  destruct (env_spawn_error env) as [msg|]; [left; split; [done | by eexists]|].
  unfold mbind, Drv_bind.
  pose proof quiet_init as Hq. revert Hq. generalize d_init as st. intros st Hq.
  step_send Hq. step_read Hq.
  destruct (0 <? thr).
  - step_send Hq. step_send Hq. step_send Hq. step_read Hq.
    step_send Hq. step_send Hq. step_send Hq; [|apply go_cmd_not_stop..].
    right. by eexists _, _.
  - unfold mret, Drv_ret.
    step_send Hq. step_send Hq. step_read Hq.
    step_send Hq. step_send Hq. step_send Hq; [|apply go_cmd_not_stop..].
    right. by eexists _, _.
Qed.

Lemma run_unfold env thr job :
  let res := run_try env thr job d_init in
  updates_of (run_trace (run env thr job))
  = match res.2 with
    | Ret _ => updates_of (d_trace res.1)
    | Raise msg =>
        updates_of (d_trace res.1)
        ++ [(JOB_ERROR, [], error_log_line (job_id job) msg)]
    end
  /\ run_return (run env thr job)
     = match res.2 with Ret v => v | Raise _ => (JOB_ERROR, []) end
  /\ run_iterations (run env thr job) = d_iter res.1
  /\ count_stop (run_trace (run env thr job)) = count_stop (d_trace res.1).
Proof.
  unfold run. destruct (run_try env thr job d_init) as [st [v|msg]]; simpl;
    destruct (env_spawn_error env); simpl;
    rewrite ?updates_of_app, ?count_stop_app; simpl;
    rewrite ?app_nil_r, ?Nat.add_0_r; done.
Qed.

(** What [run_try] passes to [send_job_update]. *)
Lemma run_try_updates env thr job :
  let res := run_try env thr job d_init in
  match res.2 with
  | Ret v =>
      exists infos l,
        updates_of (d_trace res.1) = infos ++ [(v.1, v.2, l)]
        /\ Forall running_update infos /\ final_update (v.1, v.2, l)
  | Raise _ => Forall running_update (updates_of (d_trace res.1))
  end.
Proof.
  simpl. destruct (run_try_cases env thr job)
    as [[(_ & Hu & _) [e ->]] | (st0 & rest & (_ & Hu & _) & ->)].
  - by rewrite Hu.
  - destruct (stream_updates env rest [] st0 table_clean_nil)
      as (ups & Hups & Hres).
    rewrite Hu in Hups. simpl in Hups. by rewrite Hups.
Qed.

(** The calls of [send_job_update] of a whole run: updates for [info]
    lines, then exactly one last update, for [bestmove] or for the
    failure. *)
Lemma run_updates env thr job :
  exists infos last,
    updates_of (run_trace (run env thr job)) = infos ++ [last]
    /\ Forall running_update infos
    /\ (final_update last \/ (last.1.1 = JOB_ERROR /\ last.1.2 = [])).
Proof.
  destruct (run_unfold env thr job) as (Hu & _).
  pose proof (run_try_updates env thr job) as Ht. simpl in *.
  destruct (run_try env thr job d_init).2 as [v|msg].
  - destruct Ht as (infos & l & Heq & Hinfos & Hfin).
    exists infos, (v.1, v.2, l). rewrite Hu. auto.
  - eexists _, _. split; [exact Hu|]. split; [done|]. by right.
Qed.


(** C5, as amended.  [stop] is written to the child once in every
    iteration of the streaming loop that begins with the cancel event
    set, and at no other time: the number of [stop] commands of a run is
    the number of such iterations. *)
Theorem stop_sent_once_per_cancelled_iteration env thr job :
  count_stop (run_trace (run env thr job))
  = length (filter (fun k => env_cancel_at env k = true)
              (seq 0 (run_iterations (run env thr job)))).
Proof.
  destruct (run_unfold env thr job) as (_ & _ & -> & ->).
  transitivity (count_cancel env 0 (d_iter (run_try env thr job d_init).1));
    [|unfold count_cancel; by rewrite Nat.sub_0_r].
  destruct (run_try_cases env thr job)
    as [[(-> & _ & ->) _] | (st0 & rest & (Hi & _ & Hn) & ->)].
  - done.
  - destruct (stream_stops env rest [] st0) as [_ ->]. by rewrite Hn, Hi.
Qed.


(** The other failures named in C4 raise in [run_try] as well. *)
Lemma run_try_spawn_failure env thr job msg :
  env_spawn_error env = Some msg ->
  run_try env thr job d_init = (d_init, Raise msg).
Proof. intros H. unfold run_try. by rewrite H. Qed.

Lemma run_try_write_failure env thr job msg :
  env_spawn_error env = None ->
  env_write_error env 0 = Some msg ->
  (run_try env thr job d_init).2 = Raise msg.
Proof.
  intros Hs Hw. unfold run_try. rewrite Hs.
  unfold mbind, Drv_bind, send. simpl. by rewrite Hw.
Qed.

Lemma read_until_eof target err lines st :
  Forall (fun line => py_strip line <> target) lines ->
  read_until target err lines st = (st, Raise err).
Proof.
  induction 1 as [|line rest Hne _ IH]; simpl; [done|].
  apply String.eqb_neq in Hne. by rewrite Hne.
Qed.

Lemma run_try_eof_before_uciok env thr job :
  env_spawn_error env = None ->
  env_write_error env 0 = None ->
  Forall (fun line => py_strip line <> "uciok") (env_stdout env) ->
  (run_try env thr job d_init).2
  = Raise "Engine closed stdout during UCI init".
Proof.
  intros Hs Hw Hno. unfold run_try. rewrite Hs.
  unfold mbind, Drv_bind, send. simpl. rewrite Hw.
  by rewrite read_until_eof.
Qed.

(** C5, as stated, fails: in this run the cancel event is set from the
    second iteration of the streaming loop on, the engine writes one more
    [info] line before [bestmove], and [stop] is written twice. *)
Lemma stop_sent_twice :
  ~ (count_stop (run_trace (run env_cancelled 1 demo_job)) <= 1)%nat.
Proof. vm_compute. lia. Qed.

(** ** [send_job_update] *)

Lemma append_log_fields line r :
  rec_status (append_log line r) = rec_status r
  /\ rec_created_at_ms (append_log line r) = rec_created_at_ms r
  /\ rec_started_at_ms (append_log line r) = rec_started_at_ms r
  /\ rec_finished_at_ms (append_log line r) = rec_finished_at_ms r
  /\ rec_last_update_ms (append_log line r) = rec_last_update_ms r
  /\ rec_bestmove (append_log line r) = rec_bestmove r
  /\ rec_multipv (append_log line r) = rec_multipv r
  /\ rec_last_by_mpv (append_log line r) = rec_last_by_mpv r.
Proof. unfold append_log. by destruct (str_is_empty line). Qed.

Lemma merge_update_fields mpv fields log_line r :
  rec_status (merge_update mpv fields log_line r) = rec_status r
  /\ rec_created_at_ms (merge_update mpv fields log_line r) = rec_created_at_ms r
  /\ rec_started_at_ms (merge_update mpv fields log_line r) = rec_started_at_ms r
  /\ rec_finished_at_ms (merge_update mpv fields log_line r)
     = rec_finished_at_ms r
  /\ rec_last_update_ms (merge_update mpv fields log_line r)
     = rec_last_update_ms r
  /\ rec_multipv (merge_update mpv fields log_line r) = rec_multipv r.
Proof.
  unfold merge_update.
  destruct log_line as [l|];
    [pose proof (append_log_fields l) as Ha|];
    destruct (fields_truthy fields), (dict_get "bestmove" fields);
    rewrite ?(proj1 (Ha _)), ?(proj1 (proj2 (Ha _))),
      ?(proj1 (proj2 (proj2 (Ha _)))),
      ?(proj1 (proj2 (proj2 (proj2 (Ha _))))),
      ?(proj1 (proj2 (proj2 (proj2 (proj2 (Ha _)))))),
      ?(proj1 (proj2 (proj2 (proj2 (proj2 (proj2 (proj2 (Ha _))))))));
    done.
Qed.

Lemma merge_update_bestmove mpv fields log_line r :
  rec_bestmove (merge_update mpv fields log_line r)
  = match dict_get "bestmove" fields with
    | Some v => json_str v
    | None => rec_bestmove r
    end.
Proof.
  unfold merge_update.
  destruct log_line as [l|];
    [pose proof (append_log_fields l) as Ha|];
    destruct (fields_truthy fields), (dict_get "bestmove" fields);
    rewrite ?(proj1 (proj2 (proj2 (proj2 (proj2 (proj2 (Ha _)))))));
    done.
Qed.

Lemma stamp_record_fields status ts r :
  rec_status (stamp_record status ts r) = status
  /\ rec_created_at_ms (stamp_record status ts r) = rec_created_at_ms r
  /\ rec_last_update_ms (stamp_record status ts r) = ts
  /\ rec_bestmove (stamp_record status ts r) = rec_bestmove r
  /\ rec_multipv (stamp_record status ts r) = rec_multipv r
  /\ rec_started_at_ms (stamp_record status ts r)
     = (if Z.eqb status JOB_RUNNING
           && bool_decide (rec_started_at_ms r = None)
        then Some ts else rec_started_at_ms r)
  /\ rec_finished_at_ms (stamp_record status ts r)
     = (if is_terminal status && bool_decide (rec_finished_at_ms r = None)
        then Some ts else rec_finished_at_ms r).
Proof.
  unfold stamp_record. simpl.
  destruct (Z.eqb status JOB_RUNNING && _); simpl;
    destruct (is_terminal status && _); done.
Qed.

Lemma updated_record_fields clock id status fields log_line s mpv :
  let r := record_before clock id s in
  let r' := updated_record clock id status fields log_line s mpv in
  rec_status r' = status
  /\ rec_created_at_ms r' = rec_created_at_ms r
  /\ rec_last_update_ms r' = clock (ticks s)
  /\ rec_multipv r' = rec_multipv r
  /\ rec_started_at_ms r'
     = (if Z.eqb status JOB_RUNNING
           && bool_decide (rec_started_at_ms r = None)
        then Some (clock (ticks s)) else rec_started_at_ms r)
  /\ rec_finished_at_ms r'
     = (if is_terminal status && bool_decide (rec_finished_at_ms r = None)
        then Some (clock (ticks s)) else rec_finished_at_ms r).
Proof.
  simpl. unfold updated_record.
  destruct (merge_update_fields mpv fields log_line
              (stamp_record status (clock (ticks s)) (record_before clock id s)))
    as (-> & -> & -> & -> & -> & ->).
  destruct (stamp_record_fields status (clock (ticks s))
              (record_before clock id s))
    as (-> & -> & -> & _ & -> & -> & ->).
  done.
Qed.

(** [send_job_update] completes whenever [int()] accepts the value under
    ["multipv"]; it replaces the record of [id] and leaves the queue and
    the runners alone. *)
Lemma send_job_update_done clock id status fields log_line s mpv :
  update_mpv fields = Some mpv ->
  exists s',
    send_job_update clock id status fields log_line s
    = Done s' [Broadcast (JobUpdate id status (msg_fields fields) log_line)]
    /\ job_records s'
       = <[id := updated_record clock id status fields log_line s mpv]>
           (job_records s)
    /\ active_jobs s' = active_jobs s
    /\ pending s' = pending s
    /\ max_jobs s' = max_jobs s
    /\ threads s' = threads s.
Proof.
  intros Hmpv. unfold send_job_update, updated_record, record_before.
  rewrite Hmpv. simpl.
  destruct (job_records s !! id) as [r|]; simpl;
    destruct (store s); simpl; eexists; (split; [reflexivity|]); done.
Qed.

Lemma update_mpv_nil : update_mpv [] = Some 1.
Proof. done. Qed.

Lemma update_mpv_int fields z :
  dict_get "multipv" fields = Some (JInt z) ->
  is_Some (update_mpv fields).
Proof.
  intros Hg. unfold update_mpv. rewrite Hg.
  destruct (fields_truthy fields); [|by eexists]. simpl.
  destruct (negb (Z.eqb z 0)); by eexists.
Qed.

Lemma running_update_mpv u : running_update u -> is_Some (update_mpv u.1.2).
Proof. intros (_ & [z Hz] & _). by eapply update_mpv_int. Qed.

Lemma final_update_mpv u : final_update u -> is_Some (update_mpv u.1.2).
Proof. intros (_ & Hz & _). by eapply update_mpv_int. Qed.

Lemma msg_fields_get fields k :
  dict_get k (msg_fields fields)
  = if bool_decide (k ∈ update_keys) then dict_get k fields else None.
Proof.
  unfold msg_fields. induction update_keys as [|k0 keys IH]; [done|].
  assert (k <> k0 -> bool_decide (k ∈ k0 :: keys) = bool_decide (k ∈ keys))
    as Hcons.
  { intros Hk. apply bool_decide_ext. rewrite elem_of_cons. tauto. }
  destruct (decide (k = k0)) as [->|Hk].
  - rewrite bool_decide_eq_true_2 by left. simpl.
    destruct (dict_get k0 fields) as [v|] eqn:Hk0; simpl.
    + by rewrite decide_True.
    + etransitivity; [exact IH|]. by case_bool_decide.
  - rewrite Hcons by done. simpl.
    destruct (dict_get k0 fields) as [v|]; simpl; [|exact IH].
    by rewrite decide_False.
Qed.

(** The updates [run] makes are accepted by [send_job_update], and only
    the one for a [bestmove] line with a move carries a bestmove. *)
Lemma run_update_shape env thr job u :
  u ∈ updates_of (run_trace (run env thr job)) ->
  is_Some (update_mpv u.1.2)
  /\ (dict_mem "bestmove" u.1.2 = true -> parse_bestmove_line u.2 <> []).
Proof.
  destruct (run_updates env thr job) as (infos & last & -> & Hinfos & Hlast).
  rewrite elem_of_app, list_elem_of_singleton. intros [Hin| ->].
  - rewrite Forall_forall in Hinfos. specialize (Hinfos _ Hin).
    split; [by apply running_update_mpv|].
    destruct Hinfos as (_ & _ & ->). done.
  - destruct Hlast as [Hfin|[_ Hnil]].
    + split; [by apply final_update_mpv|].
      destruct Hfin as (_ & _ & ->). intros Hm Hnil. by rewrite Hnil in Hm.
    + rewrite Hnil. split; [by eexists | done].
Qed.

(** C10.  For every line that splits into fewer than two tokens,
    [parse_bestmove_line] returns the empty map; an update that a run of
    the driver makes with that line as its log line (the terminal update
    for a bare [bestmove]) has no bestmove among its fields, the
    [job_update] message built from it has none either, and
    [send_job_update] leaves the bestmove of the record as it was. *)
Theorem bare_bestmove_keeps_bestmove (line : string) :
  (length (py_split line) < 2)%nat ->
  parse_bestmove_line line = []
  /\ forall env thr job status fields,
       (status, fields, line) ∈ updates_of (run_trace (run env thr job)) ->
       dict_mem "bestmove" fields = false
       /\ forall clock id s,
            exists s' mf,
              send_job_update clock id status fields (Some line) s
              = Done s' [Broadcast (JobUpdate id status mf (Some line))]
              /\ dict_mem "bestmove" mf = false
              /\ forall r,
                   job_records s !! id = Some r ->
                   exists r',
                     job_records s' !! id = Some r'
                     /\ rec_bestmove r' = rec_bestmove r.
Proof.
  intros Hlen.
  assert (parse_bestmove_line line = []) as Hbm.
  { unfold parse_bestmove_line.
    destruct (py_split line) as [|? [|? ?]]; [done | done | simpl in Hlen; lia]. }
  split; [exact Hbm|].
  intros env thr job status fields Hin.
  apply run_update_shape in Hin as [[mpv Hmpv] Hno]. simpl in *.
  assert (dict_mem "bestmove" fields = false) as Hnb.
  { destruct (dict_mem "bestmove" fields); [by destruct Hno | done]. }
  split; [exact Hnb|]. intros clock id s.
  destruct (send_job_update_done clock id status fields (Some line) s mpv Hmpv)
    as (s' & Hs' & Hrec & _).
  exists s', (msg_fields fields). split; [exact Hs'|]. split.
  - unfold dict_mem in *. rewrite msg_fields_get.
    destruct (dict_get "bestmove" fields); [done|]. by case_bool_decide.
  - intros r Hr. rewrite Hrec, lookup_insert_eq. eexists. split; [done|].
    unfold updated_record. rewrite merge_update_bestmove.
    unfold dict_mem in Hnb. destruct (dict_get "bestmove" fields); [done|].
    destruct (stamp_record_fields status (clock (ticks s))
                (record_before clock id s)) as (_ & _ & _ & -> & _).
    unfold record_before. by rewrite Hr.
Qed.

Lemma bare_bestmove_keeps_bestmove_witness :
  (length (py_split "bestmove") < 2)%nat
  /\ (JOB_FINISHED, [("multipv", JInt 1)], "bestmove")
       ∈ updates_of (run_trace (run env_bare_bestmove 1 demo_job))
  /\ parse_bestmove_line "bestmove" = [].
Proof.
  assert (length (py_split "bestmove") < 2)%nat as Hlen by (simpl; lia).
  split; [exact Hlen|]. split.
  - assert (updates_of (run_trace (run env_bare_bestmove 1 demo_job))
            = [(JOB_FINISHED, [("multipv", JInt 1)], "bestmove")]) as ->
      by (vm_compute; reflexivity).
    left.
  - exact (proj1 (bare_bestmove_keeps_bestmove "bestmove" Hlen)).
Defined.

(** ** The store *)

Lemma mark_incomplete_rows now db :
  db_jobs (mark_incomplete_as_error now db).1
  = map (fun r => if row_incomplete r then mark_row now r else r) (db_jobs db)
  /\ db_job_logs (mark_incomplete_as_error now db).1 = db_job_logs db
  /\ (mark_incomplete_as_error now db).2
     = map row_id (filter (fun r => row_incomplete r = true) (db_jobs db)).
Proof.
  unfold mark_incomplete_as_error.
  destruct (map row_id (filter _ (db_jobs db))) as [|id ids] eqn:Hids;
    simpl; [|done].
  split; [|done]. apply map_eq_nil in Hids.
  symmetry. rewrite <- (map_id (db_jobs db)) at 2. apply map_ext_in.
  intros r Hr. destruct (row_incomplete r) eqn:Hinc; [|done].
  exfalso. apply list_elem_of_In in Hr.
  assert (r ∈ filter (fun r => row_incomplete r = true) (db_jobs db)) as Hf
    by (by apply list_elem_of_filter).
  rewrite Hids in Hf. by apply elem_of_nil in Hf.
Qed.

Lemma fold_append_logs (now : Z) (line : string) ids db :
  str_is_empty line = false ->
  fold_left (fun d id => store_append_log id now line d) ids db
  = {| db_jobs := db_jobs db;
       db_job_logs := db_job_logs db ++ map (fun id => (id, now, line)) ids |}.
Proof.
  intros Hl. revert db. induction ids as [|id ids IH]; intros db; simpl.
  - rewrite app_nil_r. by destruct db.
  - rewrite IH. unfold store_append_log. rewrite Hl. simpl.
    by rewrite <- app_assoc.
Qed.

(** C7, as stated, fails: the line appended at startup is
    ["[server] restart: job aborted"], not
    ["server restart: job aborted"]. *)
Lemma restart_log_line_is_bracketed :
  ("j1", 300, "[server] restart: job aborted")
    ∈ db_job_logs (startup_reconcile 300 demo_db)
  /\ ~ exists id ts,
         (id, ts, "server restart: job aborted")
           ∈ db_job_logs (startup_reconcile 300 demo_db).
Proof.
  vm_compute. split.
  - right. left.
  - intros (id & ts & Hin).
    repeat (apply elem_of_cons in Hin as [Hin|Hin]; [discriminate|]).
    by apply elem_of_nil in Hin.
Qed.

(** C7, as amended.  [mark_incomplete_as_error(now_ms)] sets exactly the
    rows whose status is PENDING, QUEUED or RUNNING to ERROR, sets their
    [finished_at_ms] to [now_ms] where it was unset and their
    [last_update_ms] to [now_ms], leaves their other columns and all
    other rows unchanged, and returns the ids of the rows it changed; at
    startup the caller appends the log line
    ["[server] restart: job aborted"], stamped [now_ms], for each
    returned id. *)
Theorem mark_incomplete_as_error_spec (now_ms : Z) (db : JobStore) :
  let db' := (mark_incomplete_as_error now_ms db).1 in
  let ids := (mark_incomplete_as_error now_ms db).2 in
  length (db_jobs db') = length (db_jobs db)
  /\ (forall (i : nat) (row : Row),
         db_jobs db !! i = Some row ->
         exists row',
           db_jobs db' !! i = Some row'
           /\ if row_incomplete row
              then row_status row' = Some JOB_ERROR
                   /\ row_finished_at_ms row'
                      = Some (default now_ms (row_finished_at_ms row))
                   /\ row_last_update_ms row' = Some now_ms
                   /\ same_job_columns row' row
              else row' = row)
  /\ (forall row, row_incomplete row = true <->
         exists s, row_status row = Some s
                   /\ (s = JOB_PENDING \/ s = JOB_QUEUED \/ s = JOB_RUNNING))
  /\ ids = map row_id (filter (fun r => row_incomplete r = true) (db_jobs db))
  /\ db_job_logs db' = db_job_logs db
  /\ startup_reconcile now_ms db
     = {| db_jobs := db_jobs db';
          db_job_logs :=
            db_job_logs db
            ++ map (fun id => (id, now_ms, "[server] restart: job aborted")) ids |}.
Proof.
  simpl. destruct (mark_incomplete_rows now_ms db) as (Hrows & Hlogs & Hids).
  split; [by rewrite Hrows, length_map|].
  split.
  { intros i row Hi. rewrite Hrows, list_lookup_fmap, Hi. simpl.
    eexists. split; [done|].
    destruct (row_incomplete row); [|done]. simpl.
    split; [done|]. split; [by destruct (row_finished_at_ms row)|].
    split; [done|]. by repeat split. }
  split.
  { intros row. unfold row_incomplete. destruct (row_status row) as [s|].
    - rewrite !orb_true_iff, !Z.eqb_eq. split.
      + intros H. exists s. tauto.
      + intros (s' & [= <-] & H). tauto.
    - split; [done | by intros (? & ? & _)]. }
  split; [exact Hids|]. split; [exact Hlogs|].
  unfold startup_reconcile.
  destruct (mark_incomplete_as_error now_ms db) as [db1 affected].
  simpl in *. rewrite fold_append_logs by done. by rewrite Hlogs.
Qed.

(** *** Round trip through the store *)











Lemma insert_desc_elem r rows x :
  x ∈ insert_desc r rows -> x = r \/ x ∈ rows.
Proof.
  induction rows as [|y rows IH]; simpl.
  - rewrite list_elem_of_singleton. by left.
  - destruct (sql_lt _ _).
    + rewrite !elem_of_cons. intros [->|Hin]; [tauto|].
      destruct (IH Hin); tauto.
    + rewrite elem_of_cons. tauto.
Qed.

Lemma load_recent_elem limit db row :
  row ∈ load_recent_into_memory limit db -> row ∈ db_jobs db.
Proof.
  unfold load_recent_into_memory.
  assert (forall rows x, x ∈ order_by_created_desc rows -> x ∈ rows) as Hsort.
  { induction rows as [|y rows IH]; simpl; [done|].
    intros x Hx. apply insert_desc_elem in Hx as [->|Hx]; [left|].
    right. by apply IH. }
  destruct (limit <? 0); intros Hin.
  - by apply Hsort.
  - apply Hsort. by eapply subseteq_take.
Qed.

Lemma int_or_some x d : x <> 0 -> int_or (Some x) d = x.
Proof. intros Hx. unfold int_or. by rewrite (proj2 (Z.eqb_neq x 0)). Qed.

Lemma int_or_some_0 x : int_or (Some x) 0 = x.
Proof. unfold int_or. destruct (Z.eqb_spec x 0); congruence. Qed.



(** ** The scheduler *)

Section Scheduler.
Variable clock : nat -> Z.

Lemma record_step_refl r : record_step r r.
Proof. split; [by left | done]. Qed.

Lemma records_step_same s s' :
  job_records s' = job_records s -> records_step s s'.
Proof.
  intros Heq id. rewrite Heq. destruct (job_records s !! id) as [r|].
  - exists r. split; [done | apply record_step_refl].
  - done.
Qed.

(** One record is replaced or added. *)
Lemma records_step_insert s s' id r' :
  job_records s' = <[id := r']> (job_records s) ->
  match job_records s !! id with
  | Some r => record_step r r'
  | None => rec_status r' = JOB_PENDING \/ rec_status r' = JOB_QUEUED
  end ->
  records_step s s'.
Proof.
  intros Heq Hid id'. rewrite Heq.
  destruct (decide (id = id')) as [<-|Hne].
  - rewrite lookup_insert_eq. destruct (job_records s !! id) as [r|].
    + by exists r'.
    + by intros r'' [= <-].
  - rewrite lookup_insert_ne by done.
    destruct (job_records s !! id') as [r|]; [|done].
    exists r. split; [done | apply record_step_refl].
Qed.

Lemma records_step_trans s1 s2 s3 :
  records_step s1 s2 ->
  job_records s3 = job_records s2 ->
  records_step s1 s3.
Proof. intros H12 Heq id. rewrite Heq. apply H12. Qed.

Lemma Inv_ext s s' :
  job_records s' = job_records s ->
  active_jobs s' = active_jobs s ->
  pending s' = pending s ->
  max_jobs s' = max_jobs s ->
  Inv s -> Inv s'.
Proof.
  intros Hr Ha Hp Hm [H1 H2 H3 H4].
  split; rewrite ?Hr, ?Ha, ?Hp, ?Hm; done.
Qed.

Lemma in_pending_spec id q :
  in_pending id q = true <-> id ∈ map job_id q.
Proof.
  unfold in_pending. rewrite existsb_exists, list_elem_of_fmap.
  split.
  - intros (j & Hj & Heq). apply String.eqb_eq in Heq.
    exists j. split; [done | by apply list_elem_of_In].
  - intros (j & -> & Hj). exists j.
    split; [by apply list_elem_of_In | apply String.eqb_refl].
Qed.

Lemma in_pending_false id q :
  in_pending id q = false <-> id ∉ map job_id q.
Proof.
  rewrite <- in_pending_spec. destruct (in_pending id q); split; try done.
  all: try (intros H; by destruct H).
Qed.

Lemma slots_free s :
  slots_full s = false -> 0 < max_jobs s ->
  Z.of_nat (size (active_jobs s)) < max_jobs s.
Proof.
  unfold slots_full. intros Hf Hm.
  apply andb_false_iff in Hf as [Hf|Hf].
  - apply Z.ltb_ge in Hf. lia.
  - apply Z.leb_gt in Hf. lia.
Qed.

Lemma remove_pending_elem id q j :
  NoDup (map job_id q) ->
  j ∈ remove_pending id q <-> j ∈ q /\ job_id j <> id.
Proof.
  induction q as [|j0 q IH]; simpl; intros Hnd.
  - rewrite elem_of_nil. tauto.
  - apply NoDup_cons in Hnd as [Hj0 Hnd].
    destruct (String.eqb_spec (job_id j0) id) as [Heq|Hne].
    + rewrite elem_of_cons. split.
      * intros Hj. split; [by right|]. intros Hid. apply Hj0.
        rewrite Heq, <- Hid. apply list_elem_of_fmap. by exists j.
      * intros [[->|Hj] Hid]; [done | done].
    + rewrite !elem_of_cons, IH by done. split.
      * intros [->|[Hj Hid]]; [by split; [left|] | by split; [right|]].
      * intros [[->|Hj] Hid]; [by left | by right].
Qed.

Lemma remove_pending_nodup id q :
  NoDup (map job_id q) -> NoDup (map job_id (remove_pending id q)).
Proof.
  induction q as [|j0 q IH]; simpl; intros Hnd; [done|].
  apply NoDup_cons in Hnd as [Hj0 Hnd].
  destruct (String.eqb (job_id j0) id); [done|]. simpl.
  apply NoDup_cons. split; [|by apply IH].
  intros Hin. apply Hj0. apply list_elem_of_fmap in Hin as (j & Heq & Hj).
  apply list_elem_of_fmap. exists j. split; [done|].
  by apply remove_pending_elem in Hj as [Hj _].
Qed.

Lemma Good_same s s' :
  job_records s' = job_records s ->
  active_jobs s' = active_jobs s ->
  pending s' = pending s ->
  max_jobs s' = max_jobs s ->
  threads s' = threads s ->
  Inv s -> Good s s'.
Proof.
  intros Hr Ha Hp Hm Ht Hinv. split; [by eapply Inv_ext|].
  split; [by apply records_step_same | done].
Qed.

Lemma submit_job_good job s s' effs :
  Inv s -> submit_job clock job s = (s', effs) -> Good s s'.
Proof.
  intros Hinv. unfold submit_job.
  case_bool_decide as Hrec; [intros [= <- <-]; by apply Good_same|].
  destruct (bool_decide (is_Some (active_jobs s !! job_id job))
            || in_pending (job_id job) (pending s)) eqn:Hknown;
    [intros [= <- <-]; by apply Good_same|].
  apply orb_false_iff in Hknown as [Hact Hpend].
  apply bool_decide_eq_false in Hact.
  apply in_pending_false in Hpend.
  assert (job_records s !! job_id job = None) as Hrec'
    by (destruct (job_records s !! job_id job); [by destruct Hrec | done]).
  assert (active_jobs s !! job_id job = None) as Hact'
    by (destruct (active_jobs s !! job_id job); [by destruct Hact | done]).
  clear Hrec Hact.
  set (r := submitted_record job (clock (ticks s)) (clock (S (ticks s)))).
  set (s1 := set_job_records _ (tick (tick s))).
  change (slots_full s1) with (slots_full s).
  destruct Hinv as [Hnd Hpe Hac Hsl].
  destruct (slots_full s) eqn:Hfull.
  - (* queued *)
    set (s2 := set_pending _ s1).
    destruct (send_job_update_done clock (job_id job) JOB_QUEUED []
                (Some "queued") s2 1 eq_refl)
      as (s3 & -> & Hr3 & Ha3 & Hp3 & Hm3 & Ht3).
    intros [= <- <-].
    set (ur := updated_record _ _ _ _ _ _ _) in Hr3.
    assert (rec_status ur = JOB_QUEUED) as Hur
      by apply updated_record_fields.
    change (job_records s2) with (<[job_id job := r]> (job_records s)) in Hr3.
    rewrite insert_insert_eq in Hr3.
    change (active_jobs s2) with (active_jobs s) in Ha3.
    change (pending s2) with (pending s ++ [job]) in Hp3.
    change (max_jobs s2) with (max_jobs s) in Hm3.
    change (threads s2) with (threads s) in Ht3.
    split; [|split; [|done]].
    + split.
      * rewrite Hp3, map_app. apply NoDup_app. split; [done|]. split.
        -- intros id Hid. simpl. rewrite list_elem_of_singleton.
           by intros ->.
        -- apply NoDup_singleton.
      * intros j. rewrite Hp3, Ha3, Hr3, elem_of_app, list_elem_of_singleton.
        intros [Hj| ->].
        -- destruct (Hpe j Hj) as (Hnone & rj & Hrj & Hst).
           split; [done|]. exists rj. split; [|done].
           rewrite lookup_insert_ne; [done|].
           intros Heq. apply Hpend. rewrite Heq.
           apply list_elem_of_fmap. by exists j.
        -- split; [done|]. exists ur. by rewrite lookup_insert_eq.
      * intros id runner. rewrite Ha3, Hr3. intros Hrun.
        destruct (Hac id runner Hrun) as (rr & Hrr & Htodo).
        exists rr. split; [|done]. rewrite lookup_insert_ne; [done|].
        intros <-. congruence.
      * by rewrite Ha3, Hm3.
    + apply (records_step_insert _ _ (job_id job) ur Hr3).
      rewrite Hrec'. by right.
  - (* started at once *)
    intros [= <- <-]. simpl.
    split; [|split; [|done]].
    + split; simpl.
      * done.
      * intros j Hj. destruct (Hpe j Hj) as (Hnone & rj & Hrj & Hst).
        assert (job_id job <> job_id j) as Hne.
        { intros Heq. apply Hpend. rewrite Heq.
          apply list_elem_of_fmap. by exists j. }
        rewrite !lookup_insert_ne by done. split; [done|]. by exists rj.
      * intros id runner. destruct (decide (job_id job = id)) as [<-|Hne].
        -- rewrite !lookup_insert_eq. intros [= <-]. simpl.
           exists r. split; [done | by left].
        -- rewrite !lookup_insert_ne by done. apply Hac.
      * intros Hm. rewrite map_size_insert_None by done.
        pose proof (slots_free s Hfull Hm). lia.
    + apply (records_step_insert _ _ (job_id job) r); [done|].
      rewrite Hrec'. by left.
Qed.

Lemma cancel_job_good id s s' effs :
  Inv s -> cancel_job clock id s = (s', effs) -> Good s s'.
Proof.
  intros Hinv. unfold cancel_job.
  destruct Hinv as [Hnd Hpe Hac Hsl].
  destruct (active_jobs s !! id) as [runner|] eqn:Hrun.
  - (* running: the cancel event is set *)
    intros [= <- <-].
    split; [|split; [by apply records_step_same | done]].
    split; simpl.
    + done.
    + intros j Hj. destruct (Hpe j Hj) as (Hnone & Hrj).
      rewrite lookup_insert_ne by congruence. done.
    + intros id' runner'. destruct (decide (id = id')) as [<-|Hne].
      * rewrite lookup_insert_eq. intros [= <-]. simpl. by apply Hac.
      * rewrite lookup_insert_ne by done. apply Hac.
    + intros Hm. rewrite map_size_insert_Some by done. by apply Hsl.
  - destruct (in_pending id (pending s)) eqn:Hin;
      [|intros [= <- <-]; by apply Good_same].
    (* queued: taken out of the queue *)
    apply in_pending_spec in Hin.
    apply list_elem_of_fmap in Hin as (j0 & Hid & Hj0).
    destruct (Hpe j0 Hj0) as (_ & r0 & Hr0 & Hst0). rewrite <- Hid in Hr0.
    set (s1 := set_pending _ s).
    destruct (send_job_update_done clock id JOB_CANCELLED []
                (Some "cancelled (queued)") s1 1 eq_refl)
      as (s2 & -> & Hr2 & Ha2 & Hp2 & Hm2 & Ht2).
    intros [= <- <-].
    set (ur := updated_record _ _ _ _ _ _ _) in Hr2.
    assert (rec_status ur = JOB_CANCELLED) as Hur
      by apply updated_record_fields.
    change (job_records s1) with (job_records s) in Hr2.
    change (active_jobs s1) with (active_jobs s) in Ha2.
    change (pending s1) with (remove_pending id (pending s)) in Hp2.
    change (max_jobs s1) with (max_jobs s) in Hm2.
    change (threads s1) with (threads s) in Ht2.
    split; [|split; [|done]].
    + split.
      * rewrite Hp2. by apply remove_pending_nodup.
      * intros j. rewrite Hp2, Ha2, Hr2.
        rewrite remove_pending_elem by done. intros [Hj Hne].
        destruct (Hpe j Hj) as (Hnone & rj & Hrj & Hst).
        split; [done|]. exists rj. by rewrite lookup_insert_ne.
      * intros id' runner. rewrite Ha2, Hr2. intros Hrun'.
        destruct (Hac id' runner Hrun') as (rr & Hrr & Htodo).
        exists rr. split; [|done]. rewrite lookup_insert_ne; [done|].
        intros <-. congruence.
      * by rewrite Ha2, Hm2.
    + apply (records_step_insert _ _ id ur Hr2). rewrite Hr0.
      split.
      * right. rewrite Hst0, Hur. unfold code_edge. tauto.
      * by rewrite Hst0.
Qed.

Lemma try_start_next_good s s' effs :
  Inv s -> _try_start_next s = (s', effs) -> Good s s'.
Proof.
  intros Hinv. unfold _try_start_next.
  destruct (slots_full s) eqn:Hfull; [intros [= <- <-]; by apply Good_same|].
  destruct (pending s) as [|job q] eqn:Hq;
    [intros [= <- <-]; by apply Good_same|].
  intros [= <- <-].
  destruct Hinv as [Hnd Hpe Hac Hsl]. rewrite Hq in Hnd, Hpe.
  simpl in Hnd. apply NoDup_cons in Hnd as [Hjob Hnd].
  destruct (Hpe job) as (Hnone & r & Hr & Hst); [left|].
  split; [|split; [by apply records_step_same | done]].
  split; simpl.
  - done.
  - intros j Hj. destruct (Hpe j) as (Hjn & Hrj); [by right|].
    rewrite lookup_insert_ne; [done|].
    intros Heq. apply Hjob. rewrite Heq. apply list_elem_of_fmap.
    by exists j.
  - intros id runner. destruct (decide (job_id job = id)) as [<-|Hne].
    + rewrite lookup_insert_eq. intros [= <-]. simpl.
      exists r. split; [done | by right].
    + rewrite lookup_insert_ne by done. apply Hac.
  - intros Hm. rewrite map_size_insert_None by done.
    pose proof (slots_free s Hfull Hm). lia.
Qed.

Lemma submit_persist_same id s :
  job_records (submit_persist clock id s) = job_records s
  /\ active_jobs (submit_persist clock id s) = active_jobs s
  /\ pending (submit_persist clock id s) = pending s
  /\ max_jobs (submit_persist clock id s) = max_jobs s
  /\ threads (submit_persist clock id s) = threads s.
Proof.
  unfold submit_persist.
  by destruct (store s), (job_records s !! id).
Qed.

Lemma Good_after_same s1 s2 s3 :
  job_records s2 = job_records s1 ->
  max_jobs s2 = max_jobs s1 ->
  threads s2 = threads s1 ->
  Good s2 s3 -> Good s1 s3.
Proof.
  intros Hr Hm Ht (Hinv & Hstep & Hm' & Ht').
  split; [done|]. split; [|split; congruence].
  intros id. specialize (Hstep id). by rewrite Hr in Hstep.
Qed.

Lemma resume_good k s s' effs :
  Inv s -> resume clock k s = (s', effs) -> Good s s'.
Proof.
  intros Hinv. destruct k as [id|id queued| |]; simpl.
  - intros [= <- <-]. by apply Good_same.
  - destruct (submit_persist_same id s) as (Hr & Ha & Hp & Hm & Ht).
    assert (Inv (submit_persist clock id s)) as Hinv'
      by (by eapply Inv_ext).
    destruct queued.
    + intros Hnext. eapply Good_after_same; [done..|].
      by eapply try_start_next_good.
    + intros [= <- <-]. by apply Good_same.
  - intros [= <- <-]. by apply Good_same.
  - by apply try_start_next_good.
Qed.

Lemma job_get_refresh_good id log_tail tail s :
  Inv s -> Good s (job_get_refresh id log_tail tail s).
Proof.
  intros Hinv. unfold job_get_refresh.
  destruct (store s) as [db|]; [|by apply Good_same].
  destruct (job_records s !! id) as [r|] eqn:Hr; [|by apply Good_same].
  destruct (0 <? log_tail); [|by apply Good_same].
  set (r' := set_log _ _ r).
  destruct Hinv as [Hnd Hpe Hac Hsl].
  split; [|split; [|done]].
  - split; simpl; [done | | | done].
    + intros j Hj. destruct (Hpe j Hj) as (Hnone & rj & Hrj & Hst).
      split; [done|]. destruct (decide (id = job_id j)) as [->|Hne].
      * rewrite lookup_insert_eq. exists r'. split; [done|].
        rewrite Hr in Hrj. by injection Hrj as <-.
      * rewrite lookup_insert_ne by done. by exists rj.
    + intros id' runner Hrun.
      destruct (Hac id' runner Hrun) as (rr & Hrr & Htodo).
      destruct (decide (id = id')) as [->|Hne].
      * rewrite lookup_insert_eq. exists r'. split; [done|].
        rewrite Hr in Hrr. by injection Hrr as <-.
      * rewrite lookup_insert_ne by done. by exists rr.
  - apply (records_step_insert _ _ id r'); [done|]. rewrite Hr.
    split; [by left | done].
Qed.

(** The record of a runner is replaced by a send of its driver. *)
Lemma driver_update_good id runner todo' ur s s1 :
  Inv s ->
  active_jobs s !! id = Some runner ->
  job_records s1 = <[id := ur]> (job_records s) ->
  active_jobs s1 = active_jobs s ->
  pending s1 = pending s ->
  max_jobs s1 = max_jobs s ->
  threads s1 = threads s ->
  todo_ok (rec_status ur) todo' ->
  (forall r, job_records s !! id = Some r -> record_step r ur) ->
  Good s (set_active_jobs
            (<[id := set_todo (Some todo') runner]> (active_jobs s1)) s1).
Proof.
  intros [Hnd Hpe Hac Hsl] Hrun Hr1 Ha1 Hp1 Hm1 Ht1 Htodo Hstep.
  destruct (Hac id runner Hrun) as (r & Hr & _).
  split; [|split; [|done]].
  - split; simpl; rewrite ?Hr1, ?Ha1, ?Hp1, ?Hm1.
    + done.
    + intros j Hj. destruct (Hpe j Hj) as (Hnone & rj & Hrj & Hst).
      assert (id <> job_id j) as Hne by congruence.
      rewrite !lookup_insert_ne by done. split; [done|]. by exists rj.
    + intros id' runner'. destruct (decide (id = id')) as [<-|Hne].
      * rewrite !lookup_insert_eq. intros [= <-]. simpl. by exists ur.
      * rewrite !lookup_insert_ne by done. apply Hac.
    + intros Hm. rewrite map_size_insert_Some by done. by apply Hsl.
  - apply (records_step_insert _ _ id ur); [done|]. rewrite Hr.
    by apply Hstep.
Qed.

Lemma run_job_start_good id env s s' effs :
  Inv s -> run_job_start clock id env s = Some (s', effs) -> Good s s'.
Proof.
  intros Hinv. unfold run_job_start.
  destruct (active_jobs s !! id) as [runner|] eqn:Hrun; [|done].
  destruct (runner_todo runner) as [todo|] eqn:Htodo; [done|].
  destruct (send_job_update_done clock id JOB_RUNNING [] (Some "started") s 1
              eq_refl) as (s1 & -> & Hr1 & Ha1 & Hp1 & Hm1 & Ht1).
  intros [= <- <-].
  set (ur := updated_record _ _ _ _ _ _ _) in Hr1.
  assert (rec_status ur = JOB_RUNNING) as Hur by apply updated_record_fields.
  eapply driver_update_good; try done.
  - rewrite Hur. right. split; [done|].
    destruct (run_updates env (threads s) (runner_job runner))
      as (infos & last & Heq & Hinfos & Hlast).
    by exists infos, last.
  - intros r Hr. destruct (inv_active s Hinv id runner Hrun)
      as (r0 & Hr0 & Hst). rewrite Hr in Hr0. injection Hr0 as <-.
    rewrite Htodo in Hst. split.
    + right. rewrite Hur. unfold code_edge. destruct Hst as [-> | ->]; tauto.
    + by destruct Hst as [-> | ->].
Qed.

Lemma run_job_update_good id s s' effs :
  Inv s -> run_job_update clock id s = Some (s', effs) -> Good s s'.
Proof.
  intros Hinv. unfold run_job_update.
  destruct (active_jobs s !! id) as [runner|] eqn:Hrun; [|done].
  destruct (runner_todo runner) as [[|[[status fields] log_line] todo]|]
    eqn:Htodo; [done| |done].
  destruct (inv_active s Hinv id runner Hrun) as (r0 & Hr0 & Hst).
  rewrite Htodo in Hst.
  destruct Hst as [[? _]|(Hrunning & infos & last & Heq & Hinfos & Hlast)];
    [done|].
  assert (is_Some (update_mpv fields)
          /\ todo_ok status todo
          /\ (status = JOB_RUNNING \/ status = JOB_FINISHED
              \/ status = JOB_ERROR \/ status = JOB_CANCELLED))
    as ([mpv Hmpv] & Htodo' & Hstatus).
  { destruct infos as [|u infos]; simpl in Heq.
    - injection Heq as <- ->.
      destruct Hlast as [Hfin|[Herr Hnil]]; simpl in *.
      + split; [by apply (final_update_mpv _ Hfin)|].
        destruct Hfin as (Hs & _). simpl in Hs.
        split; [left; split; [done|]|]; tauto.
      + subst. split; [by eexists|].
        split; [left; split; [done|]|]; tauto.
    - injection Heq as <- ->. apply Forall_cons in Hinfos as [Hu Hinfos].
      split; [by apply (running_update_mpv _ Hu)|].
      destruct Hu as (Hs & _). simpl in Hs. subst status.
      split; [|tauto]. right. split; [done|]. by exists infos, last. }
  destruct (send_job_update_done clock id status fields (Some log_line) s mpv
              Hmpv) as (s1 & -> & Hr1 & Ha1 & Hp1 & Hm1 & Ht1).
  intros [= <- <-].
  set (ur := updated_record _ _ _ _ _ _ _) in Hr1.
  assert (rec_status ur = status) as Hur by apply updated_record_fields.
  eapply driver_update_good; try done.
  - by rewrite Hur.
  - intros r Hr. rewrite Hr in Hr0. injection Hr0 as <-. split.
    + rewrite Hur, Hrunning. unfold code_edge.
      destruct Hstatus as [->|Hstatus]; [by left | right; tauto].
    + by rewrite Hrunning.
Qed.

Lemma run_job_finish_good id s s' effs :
  Inv s -> run_job_finish id s = Some (s', effs) -> Good s s'.
Proof.
  intros Hinv. unfold run_job_finish.
  destruct (active_jobs s !! id) as [runner|] eqn:Hrun; [|done].
  destruct (runner_todo runner) as [[|? ?]|]; [|done..].
  intros [= <- <-].
  destruct Hinv as [Hnd Hpe Hac Hsl].
  split; [|split; [by apply records_step_same | done]].
  split; simpl.
  - done.
  - intros j Hj. destruct (Hpe j Hj) as (Hnone & Hrj).
    split; [|done]. rewrite lookup_delete_ne; [done|]. congruence.
  - intros id' runner'. destruct (decide (id = id')) as [<-|Hne].
    + by rewrite lookup_delete_eq.
    + rewrite lookup_delete_ne by done. apply Hac.
  - intros Hm. rewrite map_size_delete_Some by done.
    specialize (Hsl Hm). lia.
Qed.

Lemma step_good ev s s' effs :
  Inv s -> step clock ev s = Some (s', effs) -> Good s s'.
Proof.
  intros Hinv. destruct ev; simpl.
  - intros [= Hs]. by eapply submit_job_good.
  - intros [= Hs]. by eapply cancel_job_good.
  - intros [= <- <-]. by apply job_get_refresh_good.
  - intros [= Hs]. by eapply resume_good.
  - by apply run_job_start_good.
  - by apply run_job_update_good.
  - by apply run_job_finish_good.
Qed.

Lemma initial_inv s : initial s -> Inv s.
Proof.
  intros [Ha Hp]. split; rewrite ?Ha, ?Hp.
  - constructor.
  - intros j Hj. by apply elem_of_nil in Hj.
  - intros id runner. by rewrite lookup_empty.
  - rewrite map_size_empty. lia.
Qed.

Lemma steps_inv s evs s' : Inv s -> steps clock s evs s' -> Inv s'.
Proof.
  intros Hinv Hsteps. induction Hsteps as [|s ev s1 effs evs s2 Hstep _ IH];
    [done|].
  apply IH. by destruct (step_good _ _ _ _ Hinv Hstep).
Qed.

Lemma reachable_inv s : reachable clock s -> Inv s.
Proof.
  intros (s0 & evs & Hinit & Hsteps).
  eapply steps_inv; [|done]. by apply initial_inv.
Qed.

(** No record is ever dropped. *)
Lemma steps_known s evs s' id :
  Inv s -> steps clock s evs s' ->
  is_Some (job_records s !! id) -> is_Some (job_records s' !! id).
Proof.
  intros Hinv Hsteps. induction Hsteps as [|s ev s1 effs evs s2 Hstep _ IH];
    [done|].
  destruct (step_good _ _ _ _ Hinv Hstep) as (Hinv1 & Hrec & _).
  intros [r Hr]. apply IH; [done|].
  specialize (Hrec id). rewrite Hr in Hrec.
  destruct Hrec as (r' & -> & _). by eexists.
Qed.

Lemma steps_max_jobs s evs s' :
  Inv s -> steps clock s evs s' -> max_jobs s' = max_jobs s.
Proof.
  intros Hinv Hsteps. induction Hsteps as [|s ev s1 effs evs s2 Hstep _ IH];
    [done|].
  destruct (step_good _ _ _ _ Hinv Hstep) as (Hinv1 & _ & Hm & _).
  rewrite IH by done. done.
Qed.
End Scheduler.

(** ** Where the records of a state come from *)

Lemma send_job_update_ticks clock id status fields log_line s s' effs :
  send_job_update clock id status fields log_line s = Done s' effs ->
  (ticks s < ticks s')%nat
  /\ (is_Some (job_records s !! id) -> ticks s' = S (ticks s)).
Proof.
  unfold send_job_update.
  destruct (update_mpv fields) as [mpv|];
    destruct (job_records (tick s) !! id) as [r|] eqn:Hr; simpl in Hr;
    rewrite Hr; simpl; try done;
    destruct (store s); simpl; intros [= <- <-]; simpl;
    (split; [lia|]); try done; by intros [? ?].
Qed.

Lemma origin_same clock s s' :
  job_records s' = job_records s ->
  forall id r', job_records s' !! id = Some r' -> record_origin clock s s' id r'.
Proof. intros Heq id r' Hr. left. by rewrite <- Heq. Qed.

Lemma origin_insert clock s s' id r' :
  job_records s' = <[id := r']> (job_records s) ->
  record_origin clock s s' id r' ->
  forall id' r'',
    job_records s' !! id' = Some r'' -> record_origin clock s s' id' r''.
Proof.
  intros Heq Hor id' r''. rewrite Heq.
  destruct (decide (id = id')) as [<-|Hne].
  - rewrite lookup_insert_eq. by intros [= <-].
  - rewrite lookup_insert_ne by done. intros Hr. by left.
Qed.

Section Origin.
Variable clock : nat -> Z.

Lemma submit_job_origin job s s' effs :
  Inv s -> submit_job clock job s = (s', effs) ->
  (ticks s <= ticks s')%nat
  /\ forall id r',
       job_records s' !! id = Some r' -> record_origin clock s s' id r'.
Proof.
  intros Hinv. unfold submit_job.
  case_bool_decide as Hrec;
    [intros [= <- <-]; split; [done | by apply origin_same]|].
  destruct (bool_decide (is_Some (active_jobs s !! job_id job))
            || in_pending (job_id job) (pending s));
    [intros [= <- <-]; split; [done | by apply origin_same]|].
  assert (job_records s !! job_id job = None) as Hrec'
    by (destruct (job_records s !! job_id job); [by destruct Hrec | done]).
  set (r := submitted_record job (clock (ticks s)) (clock (S (ticks s)))).
  set (s1 := set_job_records _ (tick (tick s))).
  change (slots_full s1) with (slots_full s).
  destruct (slots_full s).
  - set (s2 := set_pending _ s1).
    destruct (send_job_update_done clock (job_id job) JOB_QUEUED []
                (Some "queued") s2 1 eq_refl) as (s3 & Hs3 & Hr3 & _).
    destruct (send_job_update_ticks _ _ _ _ _ _ _ _ Hs3) as [Ht3 _].
    rewrite Hs3. intros [= <- <-].
    change (ticks s2) with (S (S (ticks s))) in Ht3.
    change (job_records s2) with (<[job_id job := r]> (job_records s)) in Hr3.
    rewrite insert_insert_eq in Hr3.
    split; [lia|]. eapply origin_insert; [exact Hr3|].
    right. right. right. exists job. split; [done|]. split; [lia|].
    right. split; [lia|].
    unfold updated_record, record_before.
    change (job_records s2 !! job_id job)
      with (<[job_id job := r]> (job_records s) !! job_id job).
    by rewrite lookup_insert_eq.
  - intros [= <- <-]. split; [simpl; lia|].
    eapply (origin_insert clock s _ (job_id job) r); [reflexivity|].
    right. right. right. exists job. split; [done|]. split; [simpl; lia|].
    by left.
Qed.

(** [send_job_update] on a record that exists. *)
Lemma update_origin id status fields log_line mpv s s1 s' r :
  job_records s !! id = Some r ->
  job_records s1 = job_records s ->
  ticks s1 = ticks s ->
  update_mpv fields = Some mpv ->
  send_job_update clock id status fields log_line s1
  = Done s' [Broadcast (JobUpdate id status (msg_fields fields) log_line)] ->
  (ticks s < ticks s')%nat
  /\ job_records s'
     = <[id := merge_update mpv fields log_line
                 (stamp_record status (clock (ticks s)) r)]> (job_records s).
Proof.
  intros Hr Hr1 Ht1 Hmpv Hs'.
  destruct (send_job_update_ticks _ _ _ _ _ _ _ _ Hs') as [Hlt _].
  destruct (send_job_update_done clock id status fields log_line s1 mpv Hmpv)
    as (s'' & Hs'' & Hr'' & _).
  rewrite Hs' in Hs''. injection Hs'' as <-.
  split; [lia|]. rewrite Hr'', Hr1. f_equal.
  unfold updated_record, record_before. by rewrite Hr1, Hr, Ht1.
Qed.

Lemma cancel_job_origin id s s' effs :
  Inv s -> cancel_job clock id s = (s', effs) ->
  (ticks s <= ticks s')%nat
  /\ forall id' r',
       job_records s' !! id' = Some r' -> record_origin clock s s' id' r'.
Proof.
  intros Hinv. unfold cancel_job.
  destruct (active_jobs s !! id) as [runner|];
    [intros [= <- <-]; split; [done | by apply origin_same]|].
  destruct (in_pending id (pending s)) eqn:Hin;
    [|intros [= <- <-]; split; [done | by apply origin_same]].
  apply in_pending_spec, list_elem_of_fmap in Hin as (j0 & Hid & Hj0).
  destruct (inv_pending s Hinv j0 Hj0) as (_ & r0 & Hr0 & _).
  rewrite <- Hid in Hr0.
  set (s1 := set_pending _ s).
  destruct (send_job_update_done clock id JOB_CANCELLED []
              (Some "cancelled (queued)") s1 1 eq_refl) as (s2 & Hs2 & _).
  destruct (update_origin id JOB_CANCELLED [] (Some "cancelled (queued)") 1
              s s1 s2 r0 Hr0 eq_refl eq_refl eq_refl Hs2) as [Hlt Hr2].
  rewrite Hs2. intros [= <- <-]. split; [lia|].
  eapply origin_insert; [exact Hr2|].
  right. right. left. by eexists r0, _, _, _, _.
Qed.

Lemma resume_origin k s s' effs :
  resume clock k s = (s', effs) ->
  (ticks s <= ticks s')%nat /\ job_records s' = job_records s.
Proof.
  assert (forall s0 s0' effs0,
             _try_start_next s0 = (s0', effs0) ->
             ticks s0' = ticks s0 /\ job_records s0' = job_records s0) as Hnext.
  { intros s0 s0' effs0. unfold _try_start_next.
    destruct (slots_full s0); [by intros [= <- <-]|].
    destruct (pending s0); by intros [= <- <-]. }
  assert (forall id, (ticks s <= ticks (submit_persist clock id s))%nat
                     /\ job_records (submit_persist clock id s) = job_records s)
    as Hpersist.
  { intros id. unfold submit_persist.
    destruct (store s), (job_records s !! id); simpl; split; (lia || done). }
  destruct k as [id|id queued| |]; simpl.
  - by intros [= <- <-].
  - destruct (Hpersist id) as [Ht Hr]. destruct queued.
    + intros Hs'. apply Hnext in Hs' as [-> ->]. done.
    + by intros [= <- <-].
  - by intros [= <- <-].
  - intros Hs'. apply Hnext in Hs' as [-> ->]. done.
Qed.

Lemma job_get_refresh_origin id log_tail tail s :
  ticks (job_get_refresh id log_tail tail s) = ticks s
  /\ forall id' r',
       job_records (job_get_refresh id log_tail tail s) !! id' = Some r' ->
       record_origin clock s (job_get_refresh id log_tail tail s) id' r'.
Proof.
  unfold job_get_refresh.
  destruct (store s) as [db|]; [|split; [done | by apply origin_same]].
  destruct (job_records s !! id) as [r|] eqn:Hr;
    [|split; [done | by apply origin_same]].
  destruct (0 <? log_tail); [|split; [done | by apply origin_same]].
  split; [done|]. eapply origin_insert; [done|].
  right. left. by eexists r, _, _.
Qed.

Lemma run_job_start_origin id env s s' effs :
  Inv s -> run_job_start clock id env s = Some (s', effs) ->
  (ticks s <= ticks s')%nat
  /\ forall id' r',
       job_records s' !! id' = Some r' -> record_origin clock s s' id' r'.
Proof.
  intros Hinv. unfold run_job_start.
  destruct (active_jobs s !! id) as [runner|] eqn:Hrun; [|done].
  destruct (runner_todo runner) as [todo|]; [done|].
  destruct (inv_active s Hinv id runner Hrun) as (r0 & Hr0 & _).
  destruct (send_job_update_done clock id JOB_RUNNING [] (Some "started") s 1
              eq_refl) as (s1 & Hs1 & _).
  destruct (update_origin id JOB_RUNNING [] (Some "started") 1
              s s s1 r0 Hr0 eq_refl eq_refl eq_refl Hs1) as [Hlt Hr1].
  rewrite Hs1. intros [= <- <-]. split; [simpl; lia|].
  eapply origin_insert; [simpl; exact Hr1|].
  right. right. left. by eexists r0, _, _, _, _.
Qed.

Lemma run_job_update_origin id s s' effs :
  Inv s -> run_job_update clock id s = Some (s', effs) ->
  (ticks s <= ticks s')%nat
  /\ forall id' r',
       job_records s' !! id' = Some r' -> record_origin clock s s' id' r'.
Proof.
  intros Hinv. unfold run_job_update.
  destruct (active_jobs s !! id) as [runner|] eqn:Hrun; [|done].
  destruct (runner_todo runner) as [[|[[status fields] log_line] todo]|];
    [done| |done].
  destruct (inv_active s Hinv id runner Hrun) as (r0 & Hr0 & _).
  destruct (send_job_update clock id status fields (Some log_line) s)
    as [s1 effs1|] eqn:Hs1; [|done].
  intros [= <- <-].
  destruct (update_mpv fields) as [mpv|] eqn:Hmpv.
  - destruct (send_job_update_done clock id status fields (Some log_line) s
                mpv Hmpv) as (s1' & Hs1' & _).
    rewrite Hs1 in Hs1'. injection Hs1' as <- ->.
    destruct (update_origin id status fields (Some log_line) mpv
                s s s1 r0 Hr0 eq_refl eq_refl Hmpv Hs1) as [Hlt Hr1].
    split; [simpl; lia|]. eapply origin_insert; [simpl; exact Hr1|].
    right. right. left. by eexists r0, _, _, _, _.
  - exfalso. revert Hs1. unfold send_job_update. rewrite Hmpv.
    by destruct (job_records (tick s) !! id).
Qed.

Lemma step_origin ev s s' effs :
  Inv s -> step clock ev s = Some (s', effs) ->
  (ticks s <= ticks s')%nat
  /\ forall id r',
       job_records s' !! id = Some r' -> record_origin clock s s' id r'.
Proof.
  intros Hinv. destruct ev; simpl.
  - intros [= Hs]. by eapply submit_job_origin.
  - intros [= Hs]. by eapply cancel_job_origin.
  - intros [= <- <-].
    destruct (job_get_refresh_origin id log_tail tail s) as [-> Hor]. done.
  - intros [= Hs]. apply resume_origin in Hs as [Ht Hr].
    split; [done | by apply origin_same].
  - by apply run_job_start_origin.
  - by apply run_job_update_origin.
  - unfold run_job_finish. destruct (active_jobs s !! id) as [runner|]; [|done].
    destruct (runner_todo runner) as [[|? ?]|]; [|done..].
    intros [= <- <-]. split; [done | by apply origin_same].
Qed.
End Origin.

(** ** Records as the running server builds them *)

Lemma dict_set_runtime_table d mpv cur :
  runtime_table d -> runtime_table (dict_set (KInt mpv) cur d).
Proof.
  intros [Hnd Hint]. split.
  - rewrite dict_keys_set. destruct (dict_mem (KInt mpv) d) eqn:Hm; [done|].
    apply NoDup_app. split; [done|]. split; [|apply NoDup_singleton].
    intros k Hk. rewrite list_elem_of_singleton. intros ->.
    unfold dict_mem in Hm.
    destruct (dict_get (KInt mpv) d) eqn:Hg; [done|].
    by apply dict_get_None_not_in in Hg.
  - clear Hnd. induction Hint as [|kv d Hkv Hd IH]; simpl.
    + constructor; [by eexists | constructor].
    + destruct kv as [k v]. case_decide.
      * constructor; [by eexists | done].
      * by constructor.
Qed.

Lemma merge_update_table mpv fields log_line r :
  runtime_table (rec_last_by_mpv r) ->
  runtime_table (rec_last_by_mpv (merge_update mpv fields log_line r)).
Proof.
  intros Hr. unfold merge_update.
  assert (forall r0 : JobRecord,
             runtime_table (rec_last_by_mpv r0) ->
             runtime_table
               (rec_last_by_mpv
                  match log_line with
                  | Some l => append_log l r0
                  | None => r0
                  end)) as Hlog.
  { intros r0 Hr0. destruct log_line as [l|]; [|done].
    by rewrite (proj2 (proj2 (proj2 (proj2 (proj2 (proj2 (proj2
                 (append_log_fields l r0)))))))). }
  apply Hlog.
  destruct (fields_truthy fields), (dict_get "bestmove" fields); simpl;
    try done; by apply dict_set_runtime_table.
Qed.

Lemma stamp_record_table status ts r :
  rec_last_by_mpv (stamp_record status ts r) = rec_last_by_mpv r.
Proof.
  unfold stamp_record. simpl.
  destruct (Z.eqb status JOB_RUNNING && _); simpl;
    destruct (is_terminal status && _); done.
Qed.

Section Wellformed.
Variable clock : nat -> Z.
Hypothesis clock_nonzero : forall n, clock n <> 0.

Lemma record_origin_wf s s' id r' :
  (forall id0 r, job_records s !! id0 = Some r -> record_wf r) ->
  record_origin clock s s' id r' -> record_wf r'.
Proof.
  intros Hwf [Hsame|[(r & tail & n & Hr & ->)|
                     [(r & st & f & l & mpv & Hr & _ & ->)|
                      (job & _ & _ & Hsub)]]].
  - by eapply Hwf.
  - exact (Hwf _ _ Hr).
  - destruct (Hwf _ _ Hr) as (Ht & Hm & Hc & Hl).
    destruct (merge_update_fields mpv f l (stamp_record st (clock (ticks s)) r))
      as (_ & Hc' & _ & _ & Hl' & Hm').
    destruct (stamp_record_fields st (clock (ticks s)) r)
      as (_ & Hc'' & Hl'' & _ & Hm'' & _).
    split; [|split; [|split]].
    + apply merge_update_table. by rewrite stamp_record_table.
    + by rewrite Hm', Hm''.
    + by rewrite Hc', Hc''.
    + rewrite Hl', Hl''. apply clock_nonzero.
  - assert (record_wf
              (submitted_record job (clock (ticks s)) (clock (S (ticks s)))))
      as Hr0.
    { split; [split; [constructor | constructor]|]. simpl.
      split; [by destruct (Z.eqb_spec (job_multipv job) 0)|].
      split; apply clock_nonzero. }
    cbv zeta in Hsub. destruct Hsub as [->|[_ ->]]; [done|].
    destruct Hr0 as (Ht & Hm & Hc & Hl).
    set (r0 := submitted_record _ _ _) in *.
    destruct (merge_update_fields 1 [] (Some "queued")
                (stamp_record JOB_QUEUED (clock (S (S (ticks s)))) r0))
      as (_ & Hc' & _ & _ & Hl' & Hm').
    destruct (stamp_record_fields JOB_QUEUED (clock (S (S (ticks s)))) r0)
      as (_ & Hc'' & Hl'' & _ & Hm'' & _).
    split; [|split; [|split]].
    + apply merge_update_table. by rewrite stamp_record_table.
    + by rewrite Hm', Hm''.
    + by rewrite Hc', Hc''.
    + rewrite Hl', Hl''. apply clock_nonzero.
Qed.

(** On a server whose clock never reads 0, every record that the server
    has created or updated satisfies the hypotheses of the round trip
    through the store. *)
Lemma steps_records_wf s evs s' :
  Inv s ->
  (forall id r, job_records s !! id = Some r -> record_wf r) ->
  steps clock s evs s' ->
  forall id r, job_records s' !! id = Some r -> record_wf r.
Proof.
  intros Hinv Hwf Hsteps. induction Hsteps as [|s ev s1 effs evs s2 Hstep _ IH];
    [done|].
  destruct (step_good clock _ _ _ _ Hinv Hstep) as (Hinv1 & _).
  destruct (step_origin clock _ _ _ _ Hinv Hstep) as [_ Hor].
  apply IH; [done|]. intros id r Hr.
  eapply record_origin_wf; [exact Hwf | by apply Hor].
Qed.
End Wellformed.

(** ** Time stamps in the runs of the server *)

Section Stamps.
Variable clock : nat -> Z.
Hypothesis clock_mono : forall n m, (n <= m)%nat -> clock n <= clock m.

Lemma record_origin_stamps s s' id r' :
  stamps_ok clock s -> (ticks s <= ticks s')%nat ->
  record_origin clock s s' id r' ->
  (rec_created_at_ms r' <= rec_last_update_ms r'
   /\ rec_last_update_ms r' <= clock (ticks s'))
  /\ forall r, job_records s !! id = Some r ->
               rec_created_at_ms r' = rec_created_at_ms r
               /\ rec_last_update_ms r <= rec_last_update_ms r'.
Proof.
  intros Hok Hticks [Hsame|[(r & tail & n & Hr & ->)|
                            [(r & st & f & l & mpv & Hr & Hlt & ->)|
                             (job & Hnone & Hge & Hsub)]]].
  - destruct (Hok _ _ Hsame) as [Hc Hl]. split.
    + split; [done|]. etransitivity; [exact Hl | by apply clock_mono].
    + intros r Hr. rewrite Hsame in Hr. by injection Hr as <-.
  - destruct (Hok _ _ Hr) as [Hc Hl]. split.
    + split; [done|]. simpl. etransitivity; [exact Hl | by apply clock_mono].
    + intros r0 Hr0. rewrite Hr in Hr0. by injection Hr0 as <-.
  - destruct (Hok _ _ Hr) as [Hc Hl].
    destruct (merge_update_fields mpv f l (stamp_record st (clock (ticks s)) r))
      as (_ & -> & _ & _ & -> & _).
    destruct (stamp_record_fields st (clock (ticks s)) r)
      as (_ & -> & -> & _).
    split.
    + split; [lia|]. apply clock_mono. lia.
    + intros r0 Hr0. rewrite Hr in Hr0. injection Hr0 as <-. done.
  - split; [|by rewrite Hnone].
    cbv zeta in Hsub. destruct Hsub as [->|[Hge' ->]].
    + simpl. split; apply clock_mono; lia.
    + destruct (merge_update_fields 1 [] (Some "queued")
                  (stamp_record JOB_QUEUED (clock (S (S (ticks s))))
                     (submitted_record job (clock (ticks s))
                        (clock (S (ticks s))))))
        as (_ & -> & _ & _ & -> & _).
      destruct (stamp_record_fields JOB_QUEUED (clock (S (S (ticks s))))
                  (submitted_record job (clock (ticks s))
                     (clock (S (ticks s)))))
        as (_ & -> & -> & _).
      simpl. split; apply clock_mono; lia.
Qed.

(** In the runs of the server every update is for a job that
    [submit_job] has registered; with a clock that does not go back, the
    time stamps of all records stay in order, [created_at_ms] is never
    changed and [last_update_ms] never decreases. *)
Lemma step_stamps ev s s' effs :
  Inv s -> stamps_ok clock s ->
  step clock ev s = Some (s', effs) ->
  stamps_ok clock s'
  /\ forall id r r',
       job_records s !! id = Some r -> job_records s' !! id = Some r' ->
       rec_created_at_ms r' = rec_created_at_ms r
       /\ rec_last_update_ms r <= rec_last_update_ms r'.
Proof.
  intros Hinv Hok Hstep.
  destruct (step_origin clock _ _ _ _ Hinv Hstep) as [Hticks Hor]. split.
  - intros id r' Hr'.
    by destruct (record_origin_stamps s s' id r' Hok Hticks (Hor _ _ Hr')).
  - intros id r r' Hr Hr'.
    destruct (record_origin_stamps s s' id r' Hok Hticks (Hor _ _ Hr'))
      as [_ Hsame]. by apply Hsame.
Qed.

Lemma steps_stamps s evs s' :
  Inv s -> stamps_ok clock s -> steps clock s evs s' -> stamps_ok clock s'.
Proof.
  intros Hinv Hok Hsteps.
  induction Hsteps as [|s ev s1 effs evs s2 Hstep _ IH]; [done|].
  destruct (step_good clock _ _ _ _ Hinv Hstep) as (Hinv1 & _).
  destruct (step_stamps _ _ _ _ Hinv Hok Hstep) as [Hok1 _]. by apply IH.
Qed.
End Stamps.

(** ** The claims about the scheduler *)

Lemma exec_steps clock evs s s' :
  exec clock evs s = Some s' -> steps clock s evs s'.
Proof.
  revert s. induction evs as [|ev evs IH]; intros s; simpl.
  - intros [= <-]. constructor.
  - destruct (step clock ev s) as [[s1 effs]|] eqn:Hstep; [|done].
    intros Hexec. econstructor; [exact Hstep | by apply IH].
Qed.

Lemma reachable_initial clock s : initial s -> reachable clock s.
Proof. intros Hi. exists s, []. split; [done | constructor]. Qed.

Lemma reachable_steps clock s evs s' :
  reachable clock s -> steps clock s evs s' -> reachable clock s'.
Proof.
  intros (s0 & evs0 & Hinit & Hsteps0) Hsteps.
  exists s0, (evs0 ++ evs). split; [done|].
  clear Hinit. induction Hsteps0; simpl; [done|].
  econstructor; [done | by apply IHHsteps0].
Qed.

Lemma demo_server_initial : initial demo_server.
Proof. done. Qed.

Lemma submit_job_known clock job s s' effs :
  Inv s -> submit_job clock job s = (s', effs) ->
  is_Some (job_records s' !! job_id job).
Proof.
  intros Hinv. unfold submit_job.
  case_bool_decide as Hrec; [by intros [= <- <-]|].
  destruct (bool_decide (is_Some (active_jobs s !! job_id job))) eqn:Hact.
  { apply bool_decide_eq_true in Hact as [runner Hrun].
    destruct (inv_active s Hinv _ _ Hrun) as (r & Hr & _).
    simpl. intros [= <- <-]. by eexists. }
  destruct (in_pending (job_id job) (pending s)) eqn:Hpend.
  { apply in_pending_spec, list_elem_of_fmap in Hpend as (j & Hid & Hj).
    destruct (inv_pending s Hinv j Hj) as (_ & r & Hr & _).
    simpl. intros [= <- <-]. rewrite Hid. by eexists. }
  simpl.
  set (r := submitted_record job (clock (ticks s)) (clock (S (ticks s)))).
  set (s1 := set_job_records _ (tick (tick s))).
  change (slots_full s1) with (slots_full s).
  destruct (slots_full s).
  - set (s2 := set_pending _ s1).
    destruct (send_job_update_done clock (job_id job) JOB_QUEUED []
                (Some "queued") s2 1 eq_refl) as (s3 & -> & Hr3 & _).
    intros [= <- <-]. rewrite Hr3, lookup_insert_eq. by eexists.
  - intros [= <- <-]. simpl. rewrite lookup_insert_eq. by eexists.
Qed.

(** C1.  Once [submit_job(j)] has run on a server, whatever the server
    does afterwards, a call [submit_job(j')] with the id of [j] changes
    nothing of the server state (records, active runners, queue, store,
    clock readings) and has no effect: nothing is broadcast, no driver
    task is created, no part of the coroutine is left to run. *)
Theorem submit_job_idempotent clock s j s1 effs1 evs s2 j' :
  reachable clock s ->
  submit_job clock j s = (s1, effs1) ->
  steps clock s1 evs s2 ->
  job_id j' = job_id j ->
  submit_job clock j' s2 = (s2, []).
Proof.
  intros Hreach Hsub Hsteps Hid.
  pose proof (reachable_inv clock s Hreach) as Hinv.
  pose proof (submit_job_known clock j s s1 effs1 Hinv Hsub) as Hknown.
  destruct (submit_job_good clock j s s1 effs1 Hinv Hsub) as (Hinv1 & _).
  pose proof (steps_known clock s1 evs s2 (job_id j) Hinv1 Hsteps Hknown)
    as Hknown2.
  unfold submit_job. rewrite Hid. by rewrite bool_decide_eq_true_2.
Qed.

Lemma submit_job_idempotent_witness :
  exists s1 effs1 s2,
    submit_job demo_clock demo_job demo_server = (s1, effs1)
    /\ steps demo_clock s1
         [EvSubmit demo_job2; EvRunJobStart "j1" env_crash;
          EvRunJobUpdate "j1"; EvCancel "j2"; EvRunJobUpdate "j1";
          EvRunJobFinish "j1"; EvResume KTryStartNext] s2
    /\ submit_job demo_clock demo_job_again s2 = (s2, []).
Proof.
  destruct (submit_job demo_clock demo_job demo_server) as [s1 effs1] eqn:Hsub.
  destruct (exec demo_clock
              [EvSubmit demo_job2; EvRunJobStart "j1" env_crash;
               EvRunJobUpdate "j1"; EvCancel "j2"; EvRunJobUpdate "j1";
               EvRunJobFinish "j1"; EvResume KTryStartNext] s1)
    as [s2|] eqn:Hexec.
  - apply exec_steps in Hexec.
    exists s1, effs1, s2. split; [done|]. split; [exact Hexec|].
    exact (submit_job_idempotent demo_clock demo_server demo_job s1 effs1 _ s2
             demo_job_again
             (reachable_initial demo_clock demo_server demo_server_initial)
             Hsub Hexec eq_refl).
  - exfalso. vm_compute in Hsub. injection Hsub as <- <-.
    vm_compute in Hexec. discriminate.
Defined.

(** C3.  On a server with [max_jobs > 0] the table of active runners
    never holds more than [max_jobs] entries; [submit_job] creates a
    driver task only when fewer than [max_jobs] are active and queues the
    job of an unknown id otherwise; [_try_start_next] takes a job from
    the queue only when fewer than [max_jobs] are active. *)
Theorem active_jobs_bounded clock s :
  reachable clock s ->
  0 < max_jobs s ->
  Z.of_nat (size (active_jobs s)) <= max_jobs s
  /\ (forall job s' effs,
         submit_job clock job s = (s', effs) ->
         (CreateTask (job_id job) ∈ effs ->
          Z.of_nat (size (active_jobs s)) < max_jobs s)
         /\ (job_records s !! job_id job = None ->
             max_jobs s <= Z.of_nat (size (active_jobs s)) ->
             pending s' = pending s ++ [job]
             /\ active_jobs s' = active_jobs s))
  /\ (forall s' effs,
         _try_start_next s = (s', effs) ->
         pending s' <> pending s ->
         Z.of_nat (size (active_jobs s)) < max_jobs s).
Proof.
  intros Hreach Hmax.
  pose proof (reachable_inv clock s Hreach) as Hinv.
  split; [by apply (inv_slots s Hinv)|]. split.
  - intros job s' effs. unfold submit_job.
    case_bool_decide as Hrec.
    { intros [= <- <-]. split; [by intros ?%elem_of_nil|].
      intros Hnone. rewrite Hnone in Hrec. by destruct Hrec. }
    destruct (bool_decide (is_Some (active_jobs s !! job_id job))
              || in_pending (job_id job) (pending s)) eqn:Hknown.
    { intros [= <- <-]. split; [by intros ?%elem_of_nil|].
      intros _ _. exfalso. apply orb_true_iff in Hknown as [Hact|Hpend].
      - apply bool_decide_eq_true in Hact as [runner Hrun].
        destruct (inv_active s Hinv _ _ Hrun) as (r & Hr & _).
        apply Hrec. by eexists.
      - apply in_pending_spec, list_elem_of_fmap in Hpend as (j & Hid & Hj).
        destruct (inv_pending s Hinv j Hj) as (_ & r & Hr & _).
        apply Hrec. rewrite Hid. by eexists. }
    set (r := submitted_record job (clock (ticks s)) (clock (S (ticks s)))).
    set (s1 := set_job_records _ (tick (tick s))).
    change (slots_full s1) with (slots_full s).
    destruct (slots_full s) eqn:Hfull.
    + set (s2 := set_pending _ s1).
      destruct (send_job_update_done clock (job_id job) JOB_QUEUED []
                  (Some "queued") s2 1 eq_refl)
        as (s3 & -> & _ & Ha3 & Hp3 & _).
      intros [= <- <-]. split.
      * simpl. rewrite !elem_of_cons, elem_of_nil. intros [?|[?|[]]]; done.
      * done.
    + intros [= <- <-]. split; [intros _; by apply slots_free|].
      intros _ Hge. pose proof (slots_free s Hfull Hmax). lia.
  - intros s' effs. unfold _try_start_next.
    destruct (slots_full s) eqn:Hfull; [by intros [= <- <-]|].
    intros _ _. by apply slots_free.
Qed.

Lemma active_jobs_bounded_witness :
  exists s,
    exec demo_clock [EvSubmit demo_job; EvSubmit demo_job2] demo_server = Some s
    /\ 0 < max_jobs s
    /\ Z.of_nat (size (active_jobs s)) <= max_jobs s
    /\ map job_id (pending s) = ["j2"].
Proof.
  destruct (exec demo_clock [EvSubmit demo_job; EvSubmit demo_job2] demo_server)
    as [s|] eqn:Hexec.
  - assert (reachable demo_clock s) as Hreach.
    { eapply reachable_steps; [|by apply exec_steps].
      apply reachable_initial, demo_server_initial. }
    assert (0 < max_jobs s) as Hmax
      by (vm_compute in Hexec; injection Hexec as <-; done).
    exists s. split; [done|]. split; [exact Hmax|].
    split; [exact (proj1 (active_jobs_bounded demo_clock s Hreach Hmax))|].
    vm_compute in Hexec. injection Hexec as <-. reflexivity.
  - exfalso. vm_compute in Hexec. discriminate.
Defined.





(** A queued job that is cancelled goes from QUEUED to CANCELLED, which
    is no edge of that state machine either. *)
Lemma queued_cancel_leaves_queued :
  exists s1 s2 r1 r2,
    exec demo_clock [EvSubmit demo_job; EvSubmit demo_job2] demo_server = Some s1
    /\ exec demo_clock [EvCancel "j2"] s1 = Some s2
    /\ job_records s1 !! "j2" = Some r1
    /\ job_records s2 !! "j2" = Some r2
    /\ rec_status r1 = JOB_QUEUED
    /\ rec_status r2 = JOB_CANCELLED
    /\ ~ spec_edge (rec_status r1) (rec_status r2).
Proof.
  destruct (exec demo_clock [EvSubmit demo_job; EvSubmit demo_job2] demo_server)
    as [s1|] eqn:H1; [|vm_compute in H1; discriminate].
  destruct (exec demo_clock [EvCancel "j2"] s1) as [s2|] eqn:H2;
    [|vm_compute in H1; injection H1 as <-; vm_compute in H2; discriminate].
  vm_compute in H1. injection H1 as <-.
  vm_compute in H2. injection H2 as <-.
  eexists _, _, _, _. split; [reflexivity|]. split; [reflexivity|].
  split; [vm_compute; reflexivity|]. split; [vm_compute; reflexivity|].
  split; [reflexivity|]. split; [reflexivity|].
  simpl. unfold spec_edge.
  intros [[? ?]|[[? ?]|[[? ?]|[? ?]]]]; discriminate.
Qed.



(** ** The time stamps of a record created by [send_job_update] *)



(** The record [submit_job] creates does have
    [last_update_ms >= created_at_ms] when the clock does not go back. *)
Lemma submitted_record_stamps clock job s :
  clock (ticks s) <= clock (S (ticks s)) ->
  let r := submitted_record job (clock (ticks s)) (clock (S (ticks s))) in
  rec_created_at_ms r <= rec_last_update_ms r.
Proof. done. Qed.

(** * Further properties *)

(** ** The job store *)









Lemma mark_row_complete now r : row_incomplete (mark_row now r) = false.
Proof. done. Qed.

Lemma marked_rows_complete now rows :
  filter (fun r => row_incomplete r = true)
    (map (fun r => if row_incomplete r then mark_row now r else r) rows) = [].
Proof.
  induction rows as [|r rows IH]; simpl; [done|].
  rewrite filter_cons, IH.
  destruct (row_incomplete r) eqn:Hr.
  - by rewrite decide_False by (by rewrite mark_row_complete).
  - by rewrite decide_False by (by rewrite Hr).
Qed.

(** X3.  [mark_incomplete_as_error] leaves no row PENDING, QUEUED or
    RUNNING, so a second call finds nothing to do: it returns no id and
    changes no row, and the reconciliation of [__init__] writes no second
    line to the log. *)
Theorem mark_incomplete_as_error_idempotent (now now' : Z) (db : JobStore) :
  let db1 := (mark_incomplete_as_error now db).1 in
  Forall (fun r => row_incomplete r = false) (db_jobs db1)
  /\ mark_incomplete_as_error now' db1 = (db1, [])
  /\ startup_reconcile now' (startup_reconcile now db)
     = startup_reconcile now db.
Proof.
  simpl.
  destruct (mark_incomplete_rows now db) as (Hrows & Hlogs & Hids).
  assert (filter (fun r => row_incomplete r = true)
            (db_jobs (mark_incomplete_as_error now db).1) = []) as Hnone
    by (rewrite Hrows; apply marked_rows_complete).
  assert (forall d, filter (fun r => row_incomplete r = true) (db_jobs d) = [] ->
                    mark_incomplete_as_error now' d = (d, [])) as Hidem
    by (intros d Hd; unfold mark_incomplete_as_error; by rewrite Hd).
  split; [|split].
  - apply Forall_forall. intros r Hr.
    destruct (row_incomplete r) eqn:Hinc; [|done].
    assert (r ∈ filter (fun r => row_incomplete r = true)
                  (db_jobs (mark_incomplete_as_error now db).1)) as Hin
      by (by apply list_elem_of_filter).
    rewrite Hnone in Hin. by apply elem_of_nil in Hin.
  - by apply Hidem.
  - unfold startup_reconcile at 1.
    assert (db_jobs (startup_reconcile now db)
            = db_jobs (mark_incomplete_as_error now db).1) as Hjobs.
    { unfold startup_reconcile.
      destruct (mark_incomplete_as_error now db) as [db1 ids]. simpl.
      by rewrite fold_append_logs. }
    rewrite Hidem by (by rewrite Hjobs). done.
Qed.

Lemma sql_lt_asym a b : sql_lt a b = true -> sql_lt b a = false.
Proof. destruct a, b; simpl; try done. intros ?%Z.ltb_lt. apply Z.ltb_ge. lia. Qed.

Lemma sql_lt_trans a b c :
  sql_lt a b = false -> sql_lt b c = false -> sql_lt a c = false.
Proof.
  destruct a, b, c; simpl; try done.
  intros ?%Z.ltb_ge ?%Z.ltb_ge. apply Z.ltb_ge. lia.
Qed.

Lemma insert_desc_perm r rows : insert_desc r rows ≡ₚ r :: rows.
Proof.
  induction rows as [|x rows IH]; simpl; [done|].
  destruct (sql_lt _ _); [|done]. rewrite IH. apply Permutation_swap.
Qed.

Lemma insert_desc_sorted r rows :
  StronglySorted created_ge rows -> StronglySorted created_ge (insert_desc r rows).
Proof.
  induction 1 as [|x rows Hs IH Hx]; simpl; [by repeat constructor|].
  destruct (sql_lt (row_created_at_ms r) (row_created_at_ms x)) eqn:Hlt.
  - constructor; [done|].
    rewrite insert_desc_perm. constructor; [|done].
    by apply sql_lt_asym.
  - constructor; [by constructor|]. constructor; [done|].
    eapply Forall_impl; [exact Hx|]. intros y Hy. unfold created_ge in *.
    by eapply sql_lt_trans.
Qed.

Lemma order_by_created_desc_spec rows :
  order_by_created_desc rows ≡ₚ rows
  /\ StronglySorted created_ge (order_by_created_desc rows).
Proof.
  induction rows as [|r rows [IHp IHs]]; simpl; [split; [done | constructor]|].
  split; [by rewrite insert_desc_perm, IHp | by apply insert_desc_sorted].
Qed.

Lemma sorted_take_top {A : Type} (R : A -> A -> Prop) (l : list A) n x y :
  StronglySorted R l -> x ∈ take n l -> y ∈ drop n l -> R x y.
Proof.
  intros Hs. revert n. induction Hs as [|a l Hs IH Ha]; intros n Hx Hy.
  - rewrite take_nil in Hx. by apply elem_of_nil in Hx.
  - destruct n as [|n]; simpl in *; [by apply elem_of_nil in Hx|].
    apply elem_of_cons in Hx as [->|Hx]; [|by eapply IH].
    rewrite Forall_forall in Ha. apply Ha.
    by eapply (subseteq_drop n l).
Qed.

(** X4.  [load_recent_into_memory] returns rows of the table, newest
    first; with a limit it returns that many of them (all, if there are
    fewer), and no row it leaves out was created after a row it
    returns. *)
Theorem load_recent_into_memory_newest_first (limit : Z) (db : JobStore) :
  0 <= limit ->
  let rows := load_recent_into_memory limit db in
  length rows = Nat.min (Z.to_nat limit) (length (db_jobs db))
  /\ StronglySorted created_ge rows
  /\ (exists rest, rows ++ rest ≡ₚ db_jobs db
        /\ forall x y, x ∈ rows -> y ∈ rest -> created_ge x y).
Proof.
  intros Hlim. simpl. unfold load_recent_into_memory.
  destruct (Z.ltb_spec limit 0) as [?|_]; [lia|].
  destruct (order_by_created_desc_spec (db_jobs db)) as [Hp Hs].
  split; [|split].
  - rewrite length_take, Hp. lia.
  - clear Hp. revert Hs. generalize (order_by_created_desc (db_jobs db)).
    intros l Hs. revert l Hs. induction (Z.to_nat limit) as [|n IH];
      intros l Hs; [constructor|].
    destruct Hs as [|a l Hs Ha]; simpl; [constructor|].
    constructor; [by apply IH|].
    rewrite Forall_forall in *. intros y Hy. apply Ha.
    by eapply (subseteq_take n l).
  - exists (drop (Z.to_nat limit) (order_by_created_desc (db_jobs db))).
    split; [by rewrite take_drop|].
    intros x y Hx Hy. by eapply sorted_take_top.
Qed.

Lemma load_recent_into_memory_newest_first_witness :
  map row_id (load_recent_into_memory 1 demo_db) = ["j1"]
  /\ length (load_recent_into_memory 1 demo_db) = 1%nat.
Proof.
  split; [reflexivity|].
  exact (proj1 (load_recent_into_memory_newest_first 1 demo_db ltac:(lia))).
Defined.

Lemma reconciled_row_status now db row :
  (forall r, r ∈ db_jobs db -> is_Some (row_status r)) ->
  row ∈ db_jobs (startup_reconcile now db) ->
  exists st, row_status row = Some st
             /\ st <> JOB_PENDING /\ st <> JOB_QUEUED /\ st <> JOB_RUNNING.
Proof.
  intros Hst Hin.
  assert (db_jobs (startup_reconcile now db)
          = map (fun r => if row_incomplete r then mark_row now r else r)
                (db_jobs db)) as Hjobs.
  { destruct (mark_incomplete_rows now db) as (Hrows & _ & _).
    unfold startup_reconcile.
    destruct (mark_incomplete_as_error now db) as [db1 ids]. simpl in *.
    by rewrite fold_append_logs. }
  rewrite Hjobs in Hin. apply list_elem_of_fmap in Hin as (r & -> & Hr).
  destruct (row_incomplete r) eqn:Hinc.
  - exists JOB_ERROR. done.
  - destruct (Hst r Hr) as [st Hrst]. exists st. split; [done|].
    unfold row_incomplete in Hinc. rewrite Hrst in Hinc.
    apply orb_false_elim in Hinc as [Hinc H2].
    apply orb_false_elim in Hinc as [H0 H1].
    apply Z.eqb_neq in H0, H1, H2. done.
Qed.

(** X5.  After a restart no job of the history shows as PENDING, QUEUED
    or RUNNING: each record loaded from a reconciled store, in which
    every row has a status, has another status. *)
Theorem restart_loads_no_unfinished_job (now now' limit : Z) (db : JobStore)
    (row : Row) :
  (forall r, r ∈ db_jobs db -> is_Some (row_status r)) ->
  row ∈ load_recent_into_memory limit (startup_reconcile now db) ->
  let r := load_record now' (startup_reconcile now db) row in
  rec_job_id r = row_id row
  /\ rec_status r <> JOB_PENDING
  /\ rec_status r <> JOB_QUEUED
  /\ rec_status r <> JOB_RUNNING.
Proof.
  intros Hst Hin. apply load_recent_elem in Hin.
  destruct (reconciled_row_status now db row Hst Hin)
    as (st & Hrow & H0 & H1 & H2).
  simpl. rewrite Hrow. unfold int_or.
  destruct (Z.eqb_spec st 0) as [->|_]; [done|]. done.
Qed.

Lemma restart_loads_no_unfinished_job_witness :
  exists row,
    row_id row = "j1"
    /\ row ∈ load_recent_into_memory 500 (startup_reconcile 300 demo_db)
    /\ rec_status (load_record 301 (startup_reconcile 300 demo_db) row)
       <> JOB_RUNNING.
Proof.
  destruct (load_recent_into_memory 500 (startup_reconcile 300 demo_db))
    as [|row rows] eqn:Hrows; [vm_compute in Hrows; discriminate|].
  assert (row ∈ load_recent_into_memory 500 (startup_reconcile 300 demo_db))
    as Hin by (rewrite Hrows; left).
  exists row. split; [vm_compute in Hrows; by injection Hrows as <- _|].
  split; [left|].
  refine (proj2 (proj2 (proj2
            (restart_loads_no_unfinished_job 300 301 500 demo_db row _ Hin)))).
  intros r Hr. unfold demo_db in Hr. simpl in Hr.
  apply elem_of_cons in Hr as [->|Hr]; [by eexists|].
  apply list_elem_of_singleton in Hr as ->. by eexists.
Defined.

Lemma insert_ts_desc_last e rows :
  Forall (fun x => e.1.2 < x.1.2) rows -> insert_ts_desc e rows = rows ++ [e].
Proof.
  induction 1 as [|x rows Hx _ IH]; simpl; [done|].
  destruct (Z.ltb_spec x.1.2 e.1.2); [lia|]. by rewrite IH.
Qed.

Lemma order_ts_desc_increasing rows :
  StronglySorted (fun a b => a.1.2 < b.1.2) rows ->
  fold_right insert_ts_desc [] rows = rev rows.
Proof.
  induction 1 as [|e rows Hs IH He]; simpl; [done|].
  rewrite IH. apply insert_ts_desc_last.
  apply Forall_forall. intros x Hx. rewrite Forall_forall in He. apply He.
  by apply list_elem_of_In, in_rev, list_elem_of_In.
Qed.

(** X6.  When the log rows of a job carry increasing time stamps,
    [fetch_log_tail] returns the lines of the job in the order in which
    they were written: all of them for a negative limit, and else the
    last [limit] of them. *)
Theorem fetch_log_tail_latest_lines (id : string) (limit : Z) (db : JobStore) :
  StronglySorted (fun a b => a.1.2 < b.1.2) (job_log_rows id db) ->
  fetch_log_tail id limit db
  = let lines := map snd (job_log_rows id db) in
    if limit <? 0 then lines else last_n (Z.to_nat limit) lines.
Proof.
  intros Hs. unfold fetch_log_tail. simpl.
  rewrite order_ts_desc_increasing by done. unfold sql_limit.
  destruct (limit <? 0).
  - by rewrite map_rev, rev_involutive.
  - unfold last_n. rewrite firstn_rev, map_rev, rev_involutive.
    rewrite length_map. by rewrite skipn_map.
Qed.

Lemma fetch_log_tail_latest_lines_witness :
  fetch_log_tail "j1" 1 demo_log_db = ["info depth 1"]
  /\ fetch_log_tail "j1" 5 demo_log_db = ["started"; "info depth 1"].
Proof.
  assert (StronglySorted (fun a b => a.1.2 < b.1.2)
            (job_log_rows "j1" demo_log_db)) as Hs.
  { vm_compute job_log_rows. repeat constructor. }
  split.
  - exact (fetch_log_tail_latest_lines "j1" 1 demo_log_db Hs).
  - exact (fetch_log_tail_latest_lines "j1" 5 demo_log_db Hs).
Defined.

(** X7.  [list_jobs] without the finished jobs returns only rows of the
    table whose status is set and is none of FINISHED, ERROR, CANCELLED
    and STOPPED; with the finished jobs it is the query of
    [load_recent_into_memory]. *)
Theorem list_jobs_unfinished_only (limit : Z) (db : JobStore) :
  (forall row, row ∈ list_jobs false limit db ->
     row ∈ db_jobs db
     /\ exists st, row_status row = Some st /\ is_terminal st = false)
  /\ StronglySorted created_ge (list_jobs false limit db)
  /\ list_jobs true limit db = load_recent_into_memory limit db.
Proof.
  unfold list_jobs, sql_limit. split; [|split; [|done]].
  - intros row Hrow.
    assert (row ∈ order_by_created_desc
                    (filter (fun r => row_unfinished r = true) (db_jobs db)))
      as Hin.
    { destruct (limit <? 0); [done|]. by eapply subseteq_take. }
    rewrite (proj1 (order_by_created_desc_spec _)) in Hin.
    apply list_elem_of_filter in Hin as [Hun Hin]. split; [done|].
    unfold row_unfinished in Hun. destruct (row_status row) as [st|]; [|done].
    exists st. split; [done|]. by apply negb_true_iff.
  - destruct (order_by_created_desc_spec
                (filter (fun r => row_unfinished r = true) (db_jobs db)))
      as [_ Hs].
    destruct (limit <? 0); [done|].
    revert Hs. generalize (order_by_created_desc
      (filter (fun r => row_unfinished r = true) (db_jobs db))).
    intros l Hs. revert l Hs. induction (Z.to_nat limit) as [|n IH];
      intros l Hs; [constructor|].
    destruct Hs as [|a l Hs Ha]; simpl; [constructor|].
    constructor; [by apply IH|].
    rewrite Forall_forall in *. intros y Hy. apply Ha.
    by eapply (subseteq_take n l).
Qed.

(** ** The record and its view *)

Lemma last_n_length {A : Type} (n : nat) (l : list A) :
  length (last_n n l) = Nat.min n (length l).
Proof. unfold last_n. rewrite length_drop. lia. Qed.

Lemma last_n_all {A : Type} (n : nat) (l : list A) :
  (length l <= n)%nat -> last_n n l = l.
Proof.
  intros Hl. unfold last_n. by replace (length l - n)%nat with 0%nat by lia.
Qed.

Lemma last_n_snoc_full {A : Type} (n : nat) (l : list A) (x : A) :
  (0 < n)%nat -> length l = n -> last_n n (l ++ [x]) = drop 1 l ++ [x].
Proof.
  intros Hn Hl. unfold last_n. rewrite length_app. simpl.
  replace (length l + 1 - n)%nat with 1%nat by lia.
  destruct l as [|a l]; [simpl in Hl; lia | done].
Qed.

(** X8.  [JobRecord.append_log] keeps the log within [maxlen]: an empty
    line changes nothing; another line becomes the last line of the log,
    and when the log is full its oldest line is dropped for it. *)
Theorem append_log_keeps_the_bound (line : string) (r : JobRecord) :
  (length (rec_log r) <= rec_log_maxlen r)%nat ->
  (0 < rec_log_maxlen r)%nat ->
  let r' := append_log line r in
  (length (rec_log r') <= rec_log_maxlen r')%nat
  /\ rec_log_maxlen r' = rec_log_maxlen r
  /\ (str_is_empty line = true -> r' = r)
  /\ (str_is_empty line = false ->
      rec_log r'
      = (if bool_decide (length (rec_log r) < rec_log_maxlen r)%nat
         then rec_log r else drop 1 (rec_log r)) ++ [line]).
Proof.
  intros Hlen Hmax. simpl. unfold append_log.
  destruct (str_is_empty line); simpl.
  - repeat split; try done.
  - split; [|split; [done|split; [done|intros _]]].
    + rewrite last_n_length. lia.
    + case_bool_decide as Hfull.
      * apply last_n_all. rewrite length_app. simpl. lia.
      * apply last_n_snoc_full; lia.
Qed.

Lemma append_log_keeps_the_bound_witness :
  rec_log (append_log "info depth 8" demo_record) = ["started"; "info depth 8"]
  /\ rec_log (append_log "b" (set_log ["a"] 1 demo_record)) = ["b"].
Proof.
  split.
  - refine (proj2 (proj2 (proj2
      (append_log_keeps_the_bound "info depth 8" demo_record _ _))) eq_refl);
      simpl; lia.
  - refine (proj2 (proj2 (proj2
      (append_log_keeps_the_bound "b" (set_log ["a"] 1 demo_record) _ _)))
      eq_refl); simpl; lia.
Defined.

Lemma insert_sorted_elem z l x :
  x ∈ insert_sorted z l <-> x = z \/ x ∈ l.
Proof.
  induction l as [|y l IH]; simpl.
  - rewrite list_elem_of_singleton. split; [by left | by intros [?|?%elem_of_nil]].
  - destruct (Z.ltb_spec z y); [by rewrite elem_of_cons|].
    destruct (Z.eqb_spec z y) as [->|Hne].
    + rewrite elem_of_cons. tauto.
    + rewrite !elem_of_cons, IH. tauto.
Qed.

Lemma insert_sorted_sorted z l :
  StronglySorted Z.lt l -> StronglySorted Z.lt (insert_sorted z l).
Proof.
  induction 1 as [|y l Hs IH Hy]; simpl; [by repeat constructor|].
  destruct (Z.ltb_spec z y) as [Hlt|Hge].
  - constructor; [by constructor|]. constructor; [done|].
    eapply Forall_impl; [exact Hy|]. simpl. intros; lia.
  - destruct (Z.eqb_spec z y) as [->|Hne]; [by constructor|].
    constructor; [done|].
    apply Forall_forall. intros x [->|Hx]%insert_sorted_elem; [lia|].
    rewrite Forall_forall in Hy. by apply Hy.
Qed.

Lemma sorted_set_spec l :
  StronglySorted Z.lt (sorted_set l) /\ forall x, x ∈ sorted_set l <-> x ∈ l.
Proof.
  induction l as [|z l [IHs IHe]]; simpl.
  - split; [constructor | done].
  - split; [by apply insert_sorted_sorted|].
    intros x. rewrite insert_sorted_elem, elem_of_cons, IHe. done.
Qed.

Lemma mpv_keys_elem d z :
  z ∈ mpv_keys d <-> exists k f, (k, f) ∈ d /\ key_int k = Some z.
Proof.
  induction d as [|[k f] d IH]; simpl.
  - split; [by intros ?%elem_of_nil | by intros (? & ? & ?%elem_of_nil & _)].
  - destruct (key_int k) as [z'|] eqn:Hk.
    + rewrite elem_of_cons, IH. split.
      * intros [->|(k0 & f0 & Hin & Hk0)].
        -- exists k, f. split; [left | done].
        -- exists k0, f0. split; [by right | done].
      * intros (k0 & f0 & Hin & Hk0).
        apply elem_of_cons in Hin as [[= -> ->]|Hin].
        -- left. congruence.
        -- right. by exists k0, f0.
    + rewrite IH. split.
      * intros (k0 & f0 & Hin & Hk0). exists k0, f0. split; [by right | done].
      * intros (k0 & f0 & Hin & Hk0).
        apply elem_of_cons in Hin as [[= -> ->]|Hin]; [congruence|].
        by exists k0, f0.
Qed.

(** X9.  The [lines] of the view of a record come in increasing order of
    multipv, one line for each number that [int()] reads from a key of
    the table, each line carrying that number as its [multipv]; a number
    that is there twice, as an [int] and as a [str], gives one line. *)
Theorem record_to_dict_lines_sorted (r : JobRecord) (log_tail : Z) :
  exists ks,
    map (dict_get "multipv") (view_lines (_record_to_dict r log_tail))
    = map (fun z => Some (JInt z)) ks
    /\ StronglySorted Z.lt ks
    /\ forall z, z ∈ ks <->
         exists k f, (k, f) ∈ rec_last_by_mpv r /\ key_int k = Some z.
Proof.
  exists (sorted_set (mpv_keys (rec_last_by_mpv r))).
  destruct (sorted_set_spec (mpv_keys (rec_last_by_mpv r))) as [Hs He].
  split; [|split; [done|]].
  - simpl. rewrite map_map. apply map_ext. intros z. apply dict_get_set_eq.
  - intros z. by rewrite He, mpv_keys_elem.
Qed.

(** X10.  The [snapshot] of the view is empty exactly when the record
    has no bestmove and no line for multipv 1; when it is not empty its
    [multipv] is 1, and the bestmove of the record, when there is one, is
    its [bestmove].  Every other member is that of the line for
    multipv 1. *)
Theorem record_to_dict_snapshot (r : JobRecord) (log_tail : Z) :
  let snap := view_snapshot (_record_to_dict r log_tail) in
  (snap = [] <->
     rec_bestmove r = EmptyString /\ mpv_lookup 1 (rec_last_by_mpv r) = [])
  /\ (snap <> [] -> dict_get "multipv" snap = Some (JInt 1))
  /\ (rec_bestmove r <> EmptyString ->
      dict_get "bestmove" snap = Some (JStr (rec_bestmove r)))
  /\ (forall k, k <> "multipv" -> k <> "bestmove" ->
        dict_get k snap = dict_get k (mpv_lookup 1 (rec_last_by_mpv r))).
Proof.
  unfold _record_to_dict. cbn [view_snapshot].
  set (line := mpv_lookup 1 (rec_last_by_mpv r)).
  destruct (rec_bestmove r) as [|c bm] eqn:Hbm; cbn [str_is_empty negb].
  - destruct line as [|kv line'] eqn:Hline; cbn [fields_truthy].
    + repeat split; done.
    + split; [split; [intros H0 | by intros [_ ?]]|].
      { by apply dict_set_nonempty in H0. }
      split; [intros _; apply dict_get_set_eq|]. split; [done|].
      intros k Hk _. by rewrite dict_get_set_ne.
  - pose proof (dict_set_nonempty line "bestmove" (JStr (String c bm))) as Hne.
    destruct (dict_set "bestmove" (JStr (String c bm)) line) as [|kv snap']
      eqn:Hsnap; [done|]. cbn [fields_truthy]. rewrite <- Hsnap.
    split; [split; [intros H0 | by intros [? _]]|].
    { by apply dict_set_nonempty in H0. }
    split; [intros _; apply dict_get_set_eq|].
    split; [intros _; rewrite dict_get_set_ne by done; apply dict_get_set_eq|].
    intros k Hk Hk'. by rewrite !dict_get_set_ne.
Qed.

(** ** The engine driver *)

Lemma loop_head_trace env st st1 r :
  loop_head env st = (st1, r) ->
  exists h, d_trace st1 = d_trace st ++ h
            /\ Forall stream_action h /\ d_iter st1 = S (d_iter st).
Proof.
  intros [Hi Ht]%loop_head_spec. eexists. split; [exact Ht|]. split; [|done].
  destruct (env_cancel_at env (d_iter st)); repeat constructor.
Qed.

Lemma stream_trace env lines lbm st :
  exists rest,
    d_trace (stream env lines lbm st).1 = d_trace st ++ rest
    /\ Forall stream_action rest
    /\ (d_iter st < d_iter (stream env lines lbm st).1)%nat.
Proof.
  revert lines lbm st.
  apply (stream_cases env (fun lines lbm st res =>
    exists rest,
      d_trace res.1 = d_trace st ++ rest
      /\ Forall stream_action rest /\ (d_iter st < d_iter res.1)%nat)).
  - intros _ lbm st st1 e (h & Ht & Hh & Hi)%loop_head_trace.
    exists h. cbn [fst]. repeat split; [done..|lia].
  - intros lbm st st1 (h & Ht & Hh & Hi)%loop_head_trace.
    exists h. cbn [fst]. repeat split; [done..|lia].
  - intros line rest lbm st st1 (h & Ht & Hh & Hi)%loop_head_trace _
      (r & Hr & Hfr & Hir).
    exists (h ++ r). rewrite Hr, Ht, <- app_assoc.
    repeat split; [by apply Forall_app | lia].
  - intros line rest lbm st st1 (h & Ht & Hh & Hi)%loop_head_trace _ _ _.
    exists h. cbn [fst]. repeat split; [done..|lia].
  - intros line rest lbm st st1 parsed mpv (h & Ht & Hh & Hi)%loop_head_trace
      _ _ _ _ cur st2 (r & Hr & Hfr & Hir).
    assert (d_trace st2
            = d_trace st1 ++ [Update JOB_RUNNING cur (py_strip line)])
      as Ht2 by done.
    assert (d_iter st2 = d_iter st1) as Hi2 by done.
    exists (h ++ [Update JOB_RUNNING cur (py_strip line)] ++ r).
    rewrite Hr, Ht2, Ht, <- !app_assoc.
    split; [done|]. split; [|lia].
    apply Forall_app. split; [done|]. constructor; [|done].
    right. by eexists _, _, _.
  - intros line rest lbm st st1 (h & Ht & Hh & Hi)%loop_head_trace _ _ _
      final_status fields.
    exists (h ++ [Update final_status fields (py_strip line)]).
    cbn [fst log_action d_trace d_iter]. rewrite Ht, <- !app_assoc.
    split; [done|]. split; [|lia].
    apply Forall_app. split; [done|]. constructor; [|done].
    right. by eexists _, _, _.
  - intros line rest lbm st st1 (h & Ht & Hh & Hi)%loop_head_trace _ _ _
      (r & Hr & Hfr & Hir).
    exists (h ++ r). rewrite Hr, Ht, <- app_assoc.
    repeat split; [by apply Forall_app | lia].
Qed.

Ltac handshake_leaf :=
  first
    [ right; eexists _, _; (split; [|split; [|reflexivity]]); reflexivity
    | left;
      first [ exists 0%nat; eexists _, _; split; [reflexivity | split; reflexivity]
            | exists 1%nat; eexists _, _; split; [reflexivity | split; reflexivity]
            | exists 2%nat; eexists _, _; split; [reflexivity | split; reflexivity]
            | exists 3%nat; eexists _, _; split; [reflexivity | split; reflexivity]
            | exists 4%nat; eexists _, _; split; [reflexivity | split; reflexivity]
            | exists 5%nat; eexists _, _; split; [reflexivity | split; reflexivity]
            | exists 6%nat; eexists _, _; split; [reflexivity | split; reflexivity]
            | exists 7%nat; eexists _, _; split; [reflexivity | split; reflexivity] ] ].

Ltac handshake_step :=
  match goal with
  | |- context [env_write_error ?env ?n] =>
      destruct (env_write_error env n); simpl
  | |- context [read_until ?t ?e ?l ?st] =>
      let H := fresh "Hr" in
      pose proof (read_until_state t e l st) as H;
      destruct (read_until t e l st) as [? [?|?]];
      simpl in H; subst; simpl
  end.

(** [run_try] either fails while it sets the engine up, having written a
    beginning of the commands of [handshake] and nothing else, or writes
    all of them and goes on as the streaming loop does. *)
Lemma run_try_handshake env thr job :
  env_spawn_error env = None ->
  (exists n e st,
      run_try env thr job d_init = (st, Raise e)
      /\ d_trace st = map Send (take n (handshake thr job))
      /\ d_iter st = 0%nat)
  \/ (exists st0 rest,
        d_trace st0 = map Send (handshake thr job)
        /\ d_iter st0 = 0%nat
        /\ run_try env thr job d_init = stream env rest [] st0).
Proof.
  intros Hspawn. unfold run_try, handshake. rewrite Hspawn.
  unfold mbind, Drv_bind, mret, Drv_ret, send, d_init.
  destruct (0 <? thr); simpl; repeat handshake_step; handshake_leaf.
Qed.

Lemma send_not_reap l : Reap ∉ map Send l.
Proof. by intros (c & ? & _)%list_elem_of_fmap. Qed.

Lemma stream_action_not_reap l : Forall stream_action l -> Reap ∉ l.
Proof.
  intros Hl Hin. rewrite Forall_forall in Hl.
  by destruct (Hl _ Hin) as [?|(? & ? & ? & ?)].
Qed.

(** X11.  [run] waits for the child it has spawned on every way out: if
    the child could be spawned, the last thing [run] does, and only the
    last, is the clean-up of its [finally] block; if it could not, [run]
    makes the one ERROR update and writes nothing. *)
Theorem run_reaps_the_child_it_spawned (env : Env) (thr : Z) (job : PendingJob) :
  match env_spawn_error env with
  | None =>
      exists tr, run_trace (run env thr job) = tr ++ [Reap] /\ Reap ∉ tr
  | Some msg =>
      run_trace (run env thr job)
      = [Update JOB_ERROR [] (error_log_line (job_id job) msg)]
  end.
Proof.
  destruct (env_spawn_error env) as [msg|] eqn:Hspawn.
  - unfold run. by rewrite (run_try_spawn_failure _ _ _ _ Hspawn), Hspawn.
  - unfold run. rewrite Hspawn.
    destruct (run_try_handshake env thr job Hspawn)
      as [(n & e & st & Hrun & Ht & _) | (st0 & rest & Ht0 & _ & Hrun)].
    + rewrite Hrun. simpl. eexists. split; [done|]. rewrite Ht.
      rewrite elem_of_app, list_elem_of_singleton.
      intros [?%send_not_reap|?]; done.
    + rewrite Hrun. remember (handshake thr job) as hs.
      destruct (stream_trace env rest [] st0) as (r & Hr & Hfr & _).
      destruct (stream env rest [] st0) as [st [v|e]]; simpl in *;
        (eexists; split; [done|]); rewrite Hr, Ht0, ?elem_of_app.
      * intros [?%send_not_reap|?%stream_action_not_reap]; done.
      * rewrite list_elem_of_singleton.
        intros [[?%send_not_reap|?%stream_action_not_reap]|?]; done.
Qed.

(** X12.  A run that gets as far as the streaming loop has written the
    commands of the handshake before, in the order of [handshake]: [uci],
    the [Threads] option when [threads] is positive, the [MultiPV] option
    with a value of 1 or more, [isready], [ucinewgame], the position and
    the [go] command of the limit.  From there on it writes nothing but
    [stop] and makes updates, until it reaps the child. *)
Theorem run_streams_after_the_handshake (env : Env) (thr : Z) (job : PendingJob) :
  (0 < run_iterations (run env thr job))%nat ->
  exists rest,
    run_trace (run env thr job)
    = map Send (handshake thr job) ++ rest ++ [Reap]
    /\ Forall stream_action rest.
Proof.
  intros Hiter.
  destruct (run_unfold env thr job) as (_ & _ & Hi & _). simpl in Hi.
  rewrite Hi in Hiter. clear Hi.
  destruct (env_spawn_error env) as [msg|] eqn:Hspawn.
  { rewrite (run_try_spawn_failure _ _ _ _ Hspawn) in Hiter.
    simpl in Hiter. lia. }
  destruct (run_try_handshake env thr job Hspawn)
    as [(n & e & st & Hrun & _ & H0) | (st0 & rest & Ht0 & _ & Hrun)].
  { rewrite Hrun in Hiter. simpl in Hiter. lia. }
  unfold run. rewrite Hspawn, Hrun. remember (handshake thr job) as hs.
  destruct (stream_trace env rest [] st0) as (r & Hr & Hfr & _).
  destruct (stream env rest [] st0) as [st [v|e]]; simpl in *.
  - exists r. by rewrite Hr, Ht0, <- app_assoc.
  - eexists (r ++ [_]). rewrite Hr, Ht0, <- !app_assoc. split; [done|].
    apply Forall_app. split; [done|]. constructor; [|done].
    right. by eexists _, _, _.
Qed.

Lemma run_streams_after_the_handshake_witness :
  exists rest,
    run_trace (run env_two_lines 4 demo_job)
    = map Send ["uci"; "setoption name Threads value 4";
                "setoption name MultiPV value 1"; "isready"; "ucinewgame";
                "position fen 8/8/8/8/8/8/8/K6k w - - 0 1"; "go depth 4"]
      ++ rest ++ [Reap]
    /\ Forall stream_action rest.
Proof.
  assert (0 < run_iterations (run env_two_lines 4 demo_job))%nat as Hiter
    by (vm_compute; lia).
  exact (run_streams_after_the_handshake env_two_lines 4 demo_job Hiter).
Defined.



Lemma dict_get_app {K V : Type} `{EqDecision K} (d1 d2 : list (K * V)) k :
  dict_get k (d1 ++ d2)
  = match dict_get k d1 with Some v => Some v | None => dict_get k d2 end.
Proof.
  induction d1 as [|[k0 v0] d1 IH]; simpl; [done|]. by case_decide.
Qed.

Lemma dict_get_rev {K V : Type} `{EqDecision K} (d : list (K * V)) k :
  NoDup (dict_keys d) -> dict_get k (rev d) = dict_get k d.
Proof.
  induction d as [|[k0 v0] d IH]; simpl; [done|].
  intros [Hk0 Hd]%NoDup_cons. rewrite dict_get_app, IH by done. simpl.
  case_decide as Hk; [|by destruct (dict_get k d)].
  subst. apply dict_get_None_not_in in Hk0. by rewrite Hk0.
Qed.

Lemma dict_set_nodup {K V : Type} `{EqDecision K} (d : list (K * V)) k v :
  NoDup (dict_keys d) -> NoDup (dict_keys (dict_set k v d)).
Proof.
  intros Hd. rewrite dict_keys_set. unfold dict_mem.
  destruct (dict_get k d) eqn:Hk; [done|].
  apply NoDup_app. split; [done|]. split; [|apply NoDup_singleton].
  intros x Hx ->%list_elem_of_singleton.
  by apply dict_get_None_not_in in Hk.
Qed.

(** What every [dict_set] keeps, [parse_info_line] keeps. *)
Lemma parse_info_tokens_inv (P : Fields -> Prop) (n : nat) :
  (forall k v out, P out -> P (dict_set k v out)) ->
  forall toks out out',
    (length toks <= n)%nat ->
    parse_info_tokens toks out = Some out' ->
    P out -> P out'.
Proof.
  intros Hset.
  induction n as [|n IH]; intros toks out out' Hlen Hp Hout.
  { destruct toks; [by injection Hp as <- | simpl in Hlen; lia]. }
  destruct toks as [|tok rest]; [by injection Hp as <-|].
  simpl in Hlen.
  destruct (decide (is_keyword tok)) as [Hkw|Hkw].
  2:{ rewrite parse_skip in Hp by done. eapply IH; [|done..]. lia. }
  destruct rest as [|v rest].
  { rewrite parse_keyword_last in Hp. by injection Hp as <-. }
  destruct (decide (numeric_keyword tok)) as [Hnum|Hnum].
  { rewrite parse_numeric in Hp by done.
    destruct (py_int v) as [z|]; [simpl in Hp|done].
    eapply IH; [|done|]; [simpl in Hlen; lia|]. by apply Hset. }
  assert (tok = "score" \/ tok = "pv") as [->| ->].
  { revert Hkw Hnum. unfold is_keyword, numeric_keyword.
    rewrite !elem_of_cons, !elem_of_nil. tauto. }
  - destruct rest as [|w rest].
    { rewrite parse_score_short in Hp. eapply IH; [|done..]. simpl in *; lia. }
    rewrite parse_score in Hp.
    destruct (String.eqb v "cp").
    { destruct (py_int w) as [z|]; [simpl in Hp|done].
      eapply IH; [|done|]; [simpl in Hlen; lia|]. by apply Hset. }
    destruct (String.eqb v "mate").
    { destruct (py_int w) as [z|]; [simpl in Hp|done].
      eapply IH; [|done|]; [simpl in Hlen; lia|]. by apply Hset. }
    eapply IH; [|done..]. simpl in Hlen; lia.
  - rewrite parse_pv in Hp. injection Hp as <-. by apply Hset.
Qed.

Lemma parse_info_line_nodup line parsed :
  parse_info_line line = Some parsed -> NoDup (dict_keys parsed).
Proof.
  intros Hp.
  eapply (parse_info_tokens_inv (fun out => NoDup (dict_keys out)));
    [|done|exact Hp|apply NoDup_nil_2].
  intros k v out. apply dict_set_nodup.
Qed.

Lemma stream_reports env lines lbm st :
  exists ups,
    updates_of (d_trace (stream env lines lbm st).1)
    = updates_of (d_trace st) ++ ups
    /\ Forall reports_its_line ups.
Proof.
  revert lines lbm st.
  apply (stream_cases env (fun lines lbm st res =>
    exists ups,
      updates_of (d_trace res.1) = updates_of (d_trace st) ++ ups
      /\ Forall reports_its_line ups)).
  - intros _ lbm st st1 e Hh. exists []. rewrite app_nil_r.
    split; [by eapply loop_head_updates | done].
  - intros lbm st st1 Hh. exists []. rewrite app_nil_r.
    split; [by eapply loop_head_updates | done].
  - intros line rest lbm st st1 Hh _ IH.
    by rewrite <- (loop_head_updates _ _ _ _ Hh).
  - intros line rest lbm st st1 Hh _ _ _. exists []. rewrite app_nil_r.
    split; [by eapply loop_head_updates | done].
  - intros line rest lbm st st1 parsed mpv Hh _ Hinfo Hp Hm cur st2
      (ups & Hups & Hres).
    exists ((JOB_RUNNING, cur, py_strip line) :: ups). split.
    { rewrite Hups. unfold st2. simpl. rewrite updates_of_app. simpl.
      rewrite (loop_head_updates _ _ _ _ Hh). by rewrite <- app_assoc. }
    constructor; [|done]. intros _. simpl. split; [done|].
    exists parsed, mpv. split; [done|]. split; [done|].
    split; [apply dict_get_set_eq|].
    intros k v Hk Hkv. unfold cur.
    rewrite dict_get_set_ne, dict_get_update by done.
    rewrite dict_get_rev by (by eapply parse_info_line_nodup).
    by rewrite Hkv.
  - intros line rest lbm st st1 Hh _ _ _ final_status fields.
    exists [(final_status, fields, py_strip line)]. split.
    { simpl. rewrite updates_of_app. simpl.
      by rewrite (loop_head_updates _ _ _ _ Hh). }
    constructor; [|done]. unfold reports_its_line, final_status. simpl.
    by destruct (env_cancel_at_bestmove env).
  - intros line rest lbm st st1 Hh _ _ _ IH.
    by rewrite <- (loop_head_updates _ _ _ _ Hh).
Qed.

(** X14.  Every update that [run] makes with status RUNNING is made for
    an [info] line and tells what that line says: the line is its log
    line, its [multipv] is the one the line names, or 1, and the values
    parsed from the line are in its fields. *)
Theorem run_updates_report_their_lines (env : Env) (thr : Z) (job : PendingJob) :
  Forall reports_its_line (updates_of (run_trace (run env thr job))).
Proof.
  destruct (run_unfold env thr job) as (Hu & _). simpl in Hu. rewrite Hu.
  assert (Forall reports_its_line
            (updates_of (d_trace (run_try env thr job d_init).1))) as Hrun.
  { destruct (run_try_cases env thr job)
      as [[(_ & Hq & _) _] | (st0 & rest & (_ & Hq & _) & ->)].
    - by rewrite Hq.
    - destruct (stream_reports env rest [] st0) as (ups & -> & Hups).
      by rewrite Hq. }
  destruct (run_try env thr job d_init).2 as [v|msg]; [done|].
  apply Forall_app. split; [done|]. constructor; [|done].
  by intros ?.
Qed.

(** ** The scheduler *)

Lemma send_job_update_frame clock id status fields ll s s' effs :
  send_job_update clock id status fields ll s = Done s' effs ->
  exists mpv,
    update_mpv fields = Some mpv
    /\ effs = [Broadcast (JobUpdate id status (msg_fields fields) ll)]
    /\ job_records s'
       = <[id := updated_record clock id status fields ll s mpv]> (job_records s)
    /\ active_jobs s' = active_jobs s
    /\ pending s' = pending s
    /\ max_jobs s' = max_jobs s
    /\ threads s' = threads s.
Proof.
  intros Hdone. destruct (update_mpv fields) as [mpv|] eqn:Hm.
  - destruct (send_job_update_done clock id status fields ll s mpv Hm)
      as (s1 & Heq & Hrest).
    rewrite Heq in Hdone. injection Hdone as <- <-. by exists mpv.
  - exfalso. unfold send_job_update in Hdone. rewrite Hm in Hdone.
    by destruct (job_records (tick s) !! id).
Qed.

Lemma try_start_next_queue s s' effs :
  _try_start_next s = (s', effs) ->
  (s' = s /\ effs = [])
  \/ (exists job q,
         pending s = job :: q /\ pending s' = q /\ slots_full s = false
         /\ active_jobs s' = <[job_id job := new_runner job]> (active_jobs s)
         /\ effs = [CreateTask (job_id job); Broadcast (status_msg s');
                    Continue KTryStartNext]).
Proof.
  unfold _try_start_next. destruct (slots_full s) eqn:Hfull;
    [intros [= <- <-]; by left|].
  destruct (pending s) as [|job q] eqn:Hq; [intros [= <- <-]; by left|].
  intros [= <- <-]. right. by exists job, q.
Qed.

Lemma job_get_refresh_frame id log_tail tail s :
  active_jobs (job_get_refresh id log_tail tail s) = active_jobs s
  /\ pending (job_get_refresh id log_tail tail s) = pending s
  /\ max_jobs (job_get_refresh id log_tail tail s) = max_jobs s.
Proof.
  unfold job_get_refresh.
  by destruct (store s), (job_records s !! id), (0 <? log_tail).
Qed.

(** Where the jobs of the queue and the runners come from, in one atomic
    piece: the queue stays or loses a job that is cancelled, and a new
    runner is one of a job unknown so far; or a submitted job goes to the
    end of the queue; or the head of the queue gets its runner. *)
Lemma step_queue clock ev s s' effs :
  step clock ev s = Some (s', effs) ->
  ((pending s' = pending s
    \/ exists id,
         active_jobs s !! id = None
         /\ pending s' = remove_pending id (pending s))
   /\ forall id, is_Some (active_jobs s' !! id) ->
                 is_Some (active_jobs s !! id) \/ job_records s !! id = None)
  \/ (exists job,
         ev = EvSubmit job
         /\ job_records s !! job_id job = None
         /\ slots_full s = true
         /\ pending s' = pending s ++ [job]
         /\ active_jobs s' = active_jobs s)
  \/ (exists job q,
         pending s = job :: q /\ pending s' = q /\ slots_full s = false
         /\ active_jobs s' = <[job_id job := new_runner job]> (active_jobs s)).
Proof.
  assert (forall s0 s0' effs0,
             _try_start_next s0 = (s0', effs0) ->
             pending s0 = pending s -> active_jobs s0 = active_jobs s ->
             slots_full s0 = slots_full s ->
             ((pending s0' = pending s
               \/ exists id,
                    active_jobs s !! id = None
                    /\ pending s0' = remove_pending id (pending s))
              /\ forall id, is_Some (active_jobs s0' !! id) ->
                            is_Some (active_jobs s !! id)
                            \/ job_records s !! id = None)
             \/ (exists job,
                    ev = EvSubmit job
                    /\ job_records s !! job_id job = None
                    /\ slots_full s = true
                    /\ pending s0' = pending s ++ [job]
                    /\ active_jobs s0' = active_jobs s)
             \/ (exists job q,
                    pending s = job :: q /\ pending s0' = q
                    /\ slots_full s = false
                    /\ active_jobs s0'
                       = <[job_id job := new_runner job]> (active_jobs s)))
    as Hnext.
  { intros s0 s0' effs0 Hn Hp Ha Hf.
    apply try_start_next_queue in Hn
      as [[-> _]|(job & q & Hq & Hq' & Hfull & Hact & _)].
    - left. rewrite Hp, Ha. split; [by left | by left].
    - right. right. exists job, q. by rewrite <- Hp, <- Ha, <- Hf. }
  destruct ev as [job|id|id log_tail tail|k|id env|id|id]; simpl.
  - (* submit_job *)
    intros [= Hsub]. revert Hsub. unfold submit_job.
    case_bool_decide as Hrec;
      [intros [= <- <-]; left; split; [by left | by left]|].
    destruct (bool_decide (is_Some (active_jobs s !! job_id job))
              || in_pending (job_id job) (pending s));
      [intros [= <- <-]; left; split; [by left | by left]|].
    assert (job_records s !! job_id job = None) as Hrec'
      by (destruct (job_records s !! job_id job); [by destruct Hrec | done]).
    set (s1 := set_job_records _ (tick (tick s))).
    change (slots_full s1) with (slots_full s).
    destruct (slots_full s) eqn:Hfull.
    + set (s2 := set_pending _ s1).
      destruct (send_job_update_done clock (job_id job) JOB_QUEUED []
                  (Some "queued") s2 1 eq_refl)
        as (s3 & -> & _ & Ha3 & Hp3 & _).
      intros [= <- <-]. right. left. exists job. by rewrite Ha3, Hp3.
    + intros [= <- <-]. left. split; [by left|]. simpl. intros id.
      destruct (decide (job_id job = id)) as [<-|Hne]; [by right|].
      rewrite lookup_insert_ne by done. by left.
  - (* cancel_job *)
    intros [= Hc]. revert Hc. unfold cancel_job.
    destruct (active_jobs s !! id) as [runner|] eqn:Hrun.
    + intros [= <- <-]. left. split; [by left|]. simpl. intros id'.
      destruct (decide (id = id')) as [<-|Hne].
      * rewrite Hrun. by left.
      * rewrite lookup_insert_ne by done. by left.
    + destruct (in_pending id (pending s));
        [|intros [= <- <-]; left; split; [by left | by left]].
      set (s1 := set_pending _ s).
      destruct (send_job_update_done clock id JOB_CANCELLED []
                  (Some "cancelled (queued)") s1 1 eq_refl)
        as (s2 & -> & _ & Ha2 & Hp2 & _).
      intros [= <- <-]. left. rewrite Ha2, Hp2. split; [|by left].
      right. by exists id.
  - (* job_get *)
    intros [= <- <-].
    destruct (job_get_refresh_frame id log_tail tail s) as (-> & -> & _).
    left. split; [by left | by left].
  - (* resume *)
    intros [= Hres]. revert Hres.
    destruct k as [id|id queued| |]; simpl.
    + intros [= <- <-]. left. split; [by left | by left].
    + destruct (submit_persist_same clock id s) as (_ & Ha & Hp & Hm & _).
      destruct queued.
      * intros Hn. eapply Hnext; [exact Hn | done | done |].
        unfold slots_full. by rewrite Ha, Hm.
      * intros [= <- <-]. rewrite Ha, Hp. left. split; [by left | by left].
    + intros [= <- <-]. left. split; [by left | by left].
    + intros Hn. by eapply Hnext.
  - (* _run_job, start *)
    unfold run_job_start.
    destruct (active_jobs s !! id) as [runner|] eqn:Hrun; [|done].
    destruct (runner_todo runner); [done|].
    destruct (send_job_update_done clock id JOB_RUNNING [] (Some "started") s 1
                eq_refl) as (s1 & -> & _ & Ha1 & Hp1 & _).
    intros [= <- <-]. left. simpl. rewrite Ha1, Hp1. split; [by left|].
    intros id'. destruct (decide (id = id')) as [<-|Hne].
    * rewrite Hrun. by left.
    * rewrite lookup_insert_ne by done. by left.
  - (* _run_job, an update of the driver *)
    unfold run_job_update.
    destruct (active_jobs s !! id) as [runner|] eqn:Hrun; [|done].
    destruct (runner_todo runner) as [[|[[status fields] log_line] todo]|];
      [done| |done].
    destruct (send_job_update clock id status fields (Some log_line) s)
      as [s1 effs1|] eqn:Hsend; [|done].
    apply send_job_update_frame in Hsend as (mpv & _ & _ & _ & Ha1 & Hp1 & _).
    intros [= <- <-]. left. simpl. rewrite Ha1, Hp1. split; [by left|].
    intros id'. destruct (decide (id = id')) as [<-|Hne].
    * rewrite Hrun. by left.
    * rewrite lookup_insert_ne by done. by left.
  - (* _run_job, end *)
    unfold run_job_finish.
    destruct (active_jobs s !! id) as [runner|] eqn:Hrun; [|done].
    destruct (runner_todo runner) as [[|? ?]|]; [|done..].
    intros [= <- <-]. left. simpl. split; [by left|].
    intros id'. destruct (decide (id = id')) as [<-|Hne].
    * rewrite Hrun. by left.
    * rewrite lookup_delete_ne by done. by left.
Qed.

Lemma remove_pending_sublist id q : remove_pending id q `sublist_of` q.
Proof.
  induction q as [|j q IH]; simpl; [done|].
  destruct (String.eqb (job_id j) id).
  - by apply sublist_cons.
  - by apply sublist_skip.
Qed.

Lemma in_pending_sublist id q q' :
  q' `sublist_of` q -> in_pending id q = false -> in_pending id q' = false.
Proof.
  rewrite !in_pending_false. intros Hsub Hq Hq'. apply Hq.
  apply list_elem_of_fmap in Hq' as (j & -> & Hj).
  apply list_elem_of_fmap. exists j. split; [done|].
  by eapply sublist_subseteq.
Qed.

Lemma pending_id_inj q j j' :
  NoDup (map job_id q) -> j ∈ q -> j' ∈ q -> job_id j = job_id j' -> j = j'.
Proof.
  induction q as [|a q IH]; simpl; [by intros _ ?%elem_of_nil|].
  intros [Ha Hq]%NoDup_cons. rewrite !elem_of_cons.
  intros [->|Hj] [->|Hj'] Hid; [done | | |by apply IH].
  - exfalso. apply Ha. rewrite Hid. apply list_elem_of_fmap. by exists j'.
  - exfalso. apply Ha. rewrite <- Hid. apply list_elem_of_fmap. by exists j.
Qed.

(** X15.  The queue is first in, first out.  In one atomic piece a
    queued job gets a runner only if it is the head of the queue, which
    it then leaves; and the queue after the piece is the queue before
    it, with jobs taken out or with the submitted job at its end, in the
    same order. *)
Theorem queue_is_first_in_first_out clock (s s' : Server) (ev : Event)
    (effs : list Effect) :
  reachable clock s ->
  step clock ev s = Some (s', effs) ->
  (forall j, j ∈ pending s -> is_Some (active_jobs s' !! job_id j) ->
     exists q, pending s = j :: q /\ pending s' = q)
  /\ exists new,
       (new = [] \/ exists job, ev = EvSubmit job /\ new = [job])
       /\ pending s' `sublist_of` pending s ++ new.
Proof.
  intros Hinv%reachable_inv Hstep.
  destruct Hinv as [Hnd Hpe Hac Hsl].
  apply step_queue in Hstep
    as [[Hp Ha]|[(job & -> & Hrec & Hfull & Hp & Ha)
                |(job & q & Hq & Hq' & Hfull & Ha)]].
  - split.
    + intros j Hj Hrun. exfalso.
      destruct (Hpe j Hj) as (Hnone & r & Hr & _).
      destruct (Ha _ Hrun) as [[? ?]|?]; congruence.
    + exists []. split; [by left|]. rewrite app_nil_r.
      destruct Hp as [->|(id & _ & ->)]; [done | apply remove_pending_sublist].
  - split.
    + intros j Hj Hrun. exfalso. rewrite Ha in Hrun.
      destruct (Hpe j Hj) as (Hnone & _). destruct Hrun. congruence.
    + exists [job]. split; [right; by exists job | by rewrite Hp].
  - split.
    + intros j Hj. rewrite Ha.
      destruct (decide (job_id job = job_id j)) as [Heq|Hne].
      * intros _. exists q. split; [|done]. rewrite Hq. f_equal.
        apply (pending_id_inj (pending s)); [done | | done | done].
        rewrite Hq. left.
      * rewrite lookup_insert_ne by done. intros Hrun. exfalso.
        destruct (Hpe j Hj) as (Hnone & _). destruct Hrun. congruence.
    + exists []. split; [by left|]. rewrite app_nil_r, Hq, Hq'.
      by apply sublist_cons.
Qed.

Lemma queue_is_first_in_first_out_witness :
  exists s s',
    exec demo_clock
      [EvSubmit demo_job; EvSubmit demo_job2; EvRunJobStart "j1" env_crash;
       EvRunJobUpdate "j1"; EvRunJobUpdate "j1"; EvRunJobFinish "j1"]
      demo_server = Some s
    /\ step demo_clock (EvResume KTryStartNext) s = Some (s', [CreateTask "j2";
         Broadcast (status_msg s'); Continue KTryStartNext])
    /\ pending s = [demo_job2] /\ pending s' = [].
Proof.
  destruct (exec demo_clock
              [EvSubmit demo_job; EvSubmit demo_job2;
               EvRunJobStart "j1" env_crash; EvRunJobUpdate "j1";
               EvRunJobUpdate "j1"; EvRunJobFinish "j1"] demo_server)
    as [s|] eqn:Hexec; [|vm_compute in Hexec; discriminate].
  assert (reachable demo_clock s) as Hreach.
  { eapply reachable_steps; [|by apply exec_steps].
    apply reachable_initial, demo_server_initial. }
  assert (pending s = [demo_job2]) as Hq
    by (vm_compute in Hexec; by injection Hexec as <-).
  destruct (step demo_clock (EvResume KTryStartNext) s) as [[s' effs]|] eqn:Hstep;
    [|vm_compute in Hexec; injection Hexec as <-; vm_compute in Hstep;
      discriminate].
  assert (is_Some (active_jobs s' !! job_id demo_job2)) as Hrun.
  { vm_compute in Hexec. injection Hexec as <-. vm_compute in Hstep.
    injection Hstep as <- _. by eexists. }
  destruct (proj1 (queue_is_first_in_first_out demo_clock s s'
                     (EvResume KTryStartNext) effs Hreach Hstep)
              demo_job2 ltac:(rewrite Hq; left) Hrun) as (q & Hq1 & Hq2).
  exists s, s'. split; [done|]. split.
  - vm_compute in Hexec. injection Hexec as <-. vm_compute in Hstep.
    injection Hstep as <- <-. reflexivity.
  - split; [done|]. rewrite Hq2. rewrite Hq in Hq1. by injection Hq1 as <-.
Defined.

Lemma slots_never_full s : max_jobs s <= 0 -> slots_full s = false.
Proof.
  intros Hm. unfold slots_full. destruct (Z.ltb_spec 0 (max_jobs s)); [lia|done].
Qed.

(** X16.  A server with [max_jobs] of 0, or less, has no limit: in no
    run is a job ever queued, and the server never reports itself
    DEGRADED. *)
Theorem server_without_limit_never_queues clock (s0 s : Server)
    (evs : list Event) :
  initial s0 ->
  max_jobs s0 <= 0 ->
  steps clock s0 evs s ->
  pending s = [] /\ slots_full s = false /\ max_jobs s = max_jobs s0.
Proof.
  intros Hinit Hmax Hsteps.
  assert (Inv s0) as Hinv by (by apply initial_inv).
  assert (pending s0 = []) as Hq by apply Hinit.
  clear Hinit. induction Hsteps as [|s ev s1 effs evs s2 Hstep _ IH].
  - split; [done|]. split; [by apply slots_never_full | done].
  - destruct (step_good clock _ _ _ _ Hinv Hstep) as (Hinv1 & _ & Hm1 & _).
    rewrite <- Hm1. apply IH; [by rewrite Hm1 | done |].
    apply step_queue in Hstep
      as [[[Hp|(id & _ & Hp)] _]|[(job & _ & _ & Hfull & _)
                                  |(job & q & Hq' & _)]].
    + by rewrite Hp.
    + by rewrite Hp, Hq.
    + by rewrite slots_never_full in Hfull.
    + by rewrite Hq in Hq'.
Qed.

Lemma server_without_limit_never_queues_witness :
  exists s,
    exec demo_clock [EvSubmit demo_job; EvSubmit demo_job2]
      (set_max_jobs_0 demo_server) = Some s
    /\ pending s = []
    /\ size (active_jobs s) = 2%nat.
Proof.
  destruct (exec demo_clock [EvSubmit demo_job; EvSubmit demo_job2]
              (set_max_jobs_0 demo_server)) as [s|] eqn:Hexec;
    [|vm_compute in Hexec; discriminate].
  exists s. split; [done|]. split.
  - refine (proj1 (server_without_limit_never_queues demo_clock
                     (set_max_jobs_0 demo_server) s _ _ _ (exec_steps _ _ _ _ Hexec)));
      [by split | simpl; lia].
  - vm_compute in Hexec. injection Hexec as <-. reflexivity.
Defined.

(** X17.  The status a server with a limit reports is DEGRADED exactly
    when every slot is taken, the number of running jobs being then
    [max_jobs] and never more; without a limit it is ONLINE. *)
Theorem server_status_degraded_when_full clock (s : Server) :
  reachable clock s ->
  status_msg s
  = ServerStatus (server_id s)
      (if bool_decide (0 < max_jobs s
                       /\ Z.of_nat (size (active_jobs s)) = max_jobs s)
       then SERVER_DEGRADED else SERVER_ONLINE)
      (Z.of_nat (size (active_jobs s))) (max_jobs s) (threads s)
      (logical_cores s).
Proof.
  intros Hinv%reachable_inv. unfold status_msg, slots_full. f_equal.
  destruct (Z.ltb_spec 0 (max_jobs s)) as [Hm|Hm]; simpl.
  - pose proof (inv_slots s Hinv Hm).
    destruct (Z.leb_spec (max_jobs s) (Z.of_nat (size (active_jobs s))));
      case_bool_decide; try done; lia.
  - case_bool_decide; [lia | done].
Qed.

Lemma server_status_degraded_when_full_witness :
  exists s,
    exec demo_clock [EvSubmit demo_job] demo_server = Some s
    /\ status_msg s = ServerStatus "srv1" SERVER_DEGRADED 1 1 1 8.
Proof.
  destruct (exec demo_clock [EvSubmit demo_job] demo_server) as [s|] eqn:Hexec;
    [|vm_compute in Hexec; discriminate].
  assert (reachable demo_clock s) as Hreach.
  { eapply reachable_steps; [|by apply exec_steps].
    apply reachable_initial, demo_server_initial. }
  exists s. split; [done|].
  rewrite (server_status_degraded_when_full demo_clock s Hreach).
  vm_compute in Hexec. injection Hexec as <-. reflexivity.
Defined.

(** X18.  [cancel_job] on a queued job takes it out of the queue and
    gives its record the status CANCELLED and a [finished_at_ms]; the job
    gets no runner, and the one message broadcast for it is the update
    ["cancelled (queued)"], without fields. *)
Theorem cancel_job_retires_a_queued_job clock (s : Server) (id : string) :
  reachable clock s ->
  in_pending id (pending s) = true ->
  exists s' r',
    cancel_job clock id s
    = (s', [Broadcast (JobUpdate id JOB_CANCELLED [] (Some "cancelled (queued)"));
            Continue KCancelStatus])
    /\ retired id s'
    /\ job_records s' !! id = Some r'
    /\ rec_status r' = JOB_CANCELLED
    /\ is_Some (rec_finished_at_ms r')
    /\ pending s' = remove_pending id (pending s)
    /\ active_jobs s' = active_jobs s.
Proof.
  intros Hinv%reachable_inv Hin. destruct Hinv as [Hnd Hpe Hac Hsl].
  pose proof Hin as Hin'. apply in_pending_spec in Hin'.
  apply list_elem_of_fmap in Hin' as (j0 & -> & Hj0).
  destruct (Hpe j0 Hj0) as (Hnone & r0 & Hr0 & Hst0).
  unfold cancel_job. rewrite Hnone, Hin.
  set (s1 := set_pending _ s).
  destruct (send_job_update_done clock (job_id j0) JOB_CANCELLED []
              (Some "cancelled (queued)") s1 1 eq_refl)
    as (s2 & -> & Hr2 & Ha2 & Hp2 & _).
  set (ur := updated_record _ _ _ _ _ _ _) in Hr2.
  destruct (updated_record_fields clock (job_id j0) JOB_CANCELLED []
              (Some "cancelled (queued)") s1 1) as (Hur & _ & _ & _ & _ & Hfin).
  fold ur in Hur, Hfin.
  exists s2, ur. split; [done|].
  change (pending s1) with (remove_pending (job_id j0) (pending s)) in Hp2.
  change (active_jobs s1) with (active_jobs s) in Ha2.
  assert (job_records s2 !! job_id j0 = Some ur) as Hlook
    by (by rewrite Hr2, lookup_insert_eq).
  split; [|repeat split; try done].
  - split; [by rewrite Hlook|]. split; [by rewrite Ha2|].
    rewrite Hp2. apply in_pending_false.
    intros (j & Hid & Hj)%list_elem_of_fmap.
    apply remove_pending_elem in Hj as [_ Hne]; done.
  - rewrite Hfin. simpl. case_bool_decide; [by eexists|].
    destruct (rec_finished_at_ms _); [by eexists | done].
Qed.

Lemma cancel_job_retires_a_queued_job_witness :
  exists s s',
    exec demo_clock [EvSubmit demo_job; EvSubmit demo_job2] demo_server = Some s
    /\ in_pending "j2" (pending s) = true
    /\ exec demo_clock [EvCancel "j2"] s = Some s'
    /\ retired "j2" s'.
Proof.
  destruct (exec demo_clock [EvSubmit demo_job; EvSubmit demo_job2] demo_server)
    as [s|] eqn:Hexec; [|vm_compute in Hexec; discriminate].
  assert (reachable demo_clock s) as Hreach.
  { eapply reachable_steps; [|by apply exec_steps].
    apply reachable_initial, demo_server_initial. }
  assert (in_pending "j2" (pending s) = true) as Hin
    by (vm_compute in Hexec; by injection Hexec as <-).
  destruct (cancel_job_retires_a_queued_job demo_clock s "j2" Hreach Hin)
    as (s' & r' & Hc & Hret & _).
  exists s, s'. split; [done|]. split; [done|]. split; [|done].
  simpl. by rewrite Hc.
Defined.

Lemma in_pending_app id q q' :
  in_pending id (q ++ q') = in_pending id q || in_pending id q'.
Proof. unfold in_pending. apply existsb_app. Qed.

Lemma step_retired clock ev s s' effs id :
  Inv s -> step clock ev s = Some (s', effs) ->
  retired id s -> retired id s'.
Proof.
  intros Hinv Hstep (Hrec & Hact & Hpend).
  destruct (step_good clock _ _ _ _ Hinv Hstep) as (_ & Hrecs & _).
  split.
  { destruct Hrec as [r Hr]. specialize (Hrecs id). rewrite Hr in Hrecs.
    destruct Hrecs as (r' & -> & _). by eexists. }
  apply step_queue in Hstep
    as [[Hp Ha]|[(job & _ & Hnew & _ & Hp & Ha)
                |(job & q & Hq & Hq' & _ & Ha)]].
  - split.
    + destruct (active_jobs s' !! id) eqn:Hrun; [|done]. exfalso.
      destruct (Ha id) as [[? ?]|?]; [by eexists | congruence|].
      destruct Hrec. congruence.
    + destruct Hp as [->|(id' & _ & ->)]; [done|].
      eapply in_pending_sublist; [apply remove_pending_sublist | done].
  - split; [by rewrite Ha|]. rewrite Hp, in_pending_app, Hpend. simpl.
    rewrite orb_false_r. apply String.eqb_neq. intros Heq.
    rewrite Heq in Hnew. destruct Hrec. congruence.
  - rewrite Hq in Hpend. simpl in Hpend.
    apply orb_false_elim in Hpend as [Hne Hpend]. apply String.eqb_neq in Hne.
    split; [|by rewrite Hq'].
    rewrite Ha, lookup_insert_ne by done. done.
Qed.

(** X19.  A job that the server knows and has neither queued nor running
    stays so in every run: whatever is submitted, cancelled or asked
    for, it is never queued and never gets a runner again. *)
Theorem retired_job_never_runs_again clock (s s' : Server) (evs : list Event)
    (id : string) :
  reachable clock s ->
  retired id s ->
  steps clock s evs s' ->
  retired id s'.
Proof.
  intros Hinv%reachable_inv Hret Hsteps.
  induction Hsteps as [|s ev s1 effs evs s2 Hstep _ IH]; [done|].
  destruct (step_good clock _ _ _ _ Hinv Hstep) as (Hinv1 & _).
  apply IH; [done|]. exact (step_retired clock ev s s1 effs id Hinv Hstep Hret).
Qed.

Lemma retired_job_never_runs_again_witness :
  exists s s',
    exec demo_clock
      [EvSubmit demo_job; EvSubmit demo_job2; EvCancel "j2"] demo_server = Some s
    /\ retired "j2" s
    /\ exec demo_clock
         [EvSubmit demo_job2; EvRunJobStart "j1" env_crash; EvRunJobUpdate "j1";
          EvRunJobUpdate "j1"; EvRunJobFinish "j1"; EvResume KTryStartNext] s
       = Some s'
    /\ retired "j2" s'.
Proof.
  destruct (exec demo_clock
              [EvSubmit demo_job; EvSubmit demo_job2; EvCancel "j2"] demo_server)
    as [s|] eqn:Hexec; [|vm_compute in Hexec; discriminate].
  assert (reachable demo_clock s) as Hreach.
  { eapply reachable_steps; [|by apply exec_steps].
    apply reachable_initial, demo_server_initial. }
  assert (retired "j2" s) as Hret.
  { vm_compute in Hexec. injection Hexec as <-.
    split; [by eexists | by split]. }
  destruct (exec demo_clock
              [EvSubmit demo_job2; EvRunJobStart "j1" env_crash;
               EvRunJobUpdate "j1"; EvRunJobUpdate "j1"; EvRunJobFinish "j1";
               EvResume KTryStartNext] s) as [s'|] eqn:Hexec';
    [|vm_compute in Hexec; injection Hexec as <-; vm_compute in Hexec';
      discriminate].
  exists s, s'. split; [done|]. split; [done|]. split; [done|].
  exact (retired_job_never_runs_again demo_clock s s' _ "j2" Hreach Hret
           (exec_steps _ _ _ _ Hexec')).
Defined.



(** ** The records of a running server *)

Lemma times_ok_set_log tail n r : times_ok r -> times_ok (set_log tail n r).
Proof. done. Qed.

Lemma times_ok_submitted job t1 t2 : times_ok (submitted_record job t1 t2).
Proof.
  unfold times_ok. simpl. repeat split; try done; by intros [? ?].
Qed.

Lemma times_ok_stamped clock s r st mpv f l :
  stamps_ok clock s ->
  (exists id, job_records s !! id = Some r) ->
  times_ok r ->
  let r' := merge_update mpv f l (stamp_record st (clock (ticks s)) r) in
  record_step r r' -> times_ok r'.
Proof.
  intros Hok [id Hr] (T1 & T2 & T3 & T4 & T5) r' [Hedge Hfrozen].
  destruct (Hok _ _ Hr) as [Hc Hl].
  set (ts := clock (ticks s)) in *.
  destruct (merge_update_fields mpv f l (stamp_record st ts r))
    as (Hs & Hcr & Hsa & Hfa & Hlu & _).
  destruct (stamp_record_fields st ts r)
    as (Hs1 & Hcr1 & Hlu1 & _ & _ & Hsa1 & Hfa1).
  fold r' in Hs, Hcr, Hsa, Hfa, Hlu.
  rewrite Hs1 in Hs. rewrite Hcr1 in Hcr. rewrite Hlu1 in Hlu.
  rewrite Hsa1 in Hsa. rewrite Hfa1 in Hfa.
  rewrite Hs in Hedge, Hfrozen.
  assert (is_terminal st = false -> rec_finished_at_ms r = None) as Hlive.
  { intros Hnt. destruct (rec_finished_at_ms r) as [t|] eqn:Hf; [|done].
    assert (is_terminal (rec_status r) = true) as Hterm
      by (apply T1; by eexists).
    destruct (Hfrozen Hterm) as (Heq & _). congruence. }
  assert (st = JOB_PENDING \/ st = JOB_QUEUED -> rec_started_at_ms r = None)
    as Hwait.
  { intros Hst. apply T2.
    destruct Hedge as [<-|Hedge]; [done|]. unfold code_edge in Hedge.
    unfold JOB_PENDING, JOB_QUEUED, JOB_RUNNING, JOB_FINISHED, JOB_ERROR,
      JOB_CANCELLED in *. lia. }
  unfold times_ok. rewrite Hs, Hcr, Hlu. repeat split.
  - intros Hterm. rewrite Hfa, Hterm. simpl.
    case_bool_decide as Hn; [by eexists|].
    destruct (rec_finished_at_ms r); [by eexists | done].
  - intros Hsome. destruct (is_terminal st) eqn:Hterm; [done|]. exfalso.
    rewrite Hfa, ?Hterm in Hsome. simpl in Hsome.
    rewrite (Hlive eq_refl) in Hsome. by destruct Hsome.
  - intros Hst. rewrite Hsa.
    destruct (Z.eqb_spec st JOB_RUNNING) as [->|_]; simpl; [|by apply Hwait].
    by destruct Hst.
  - intros ->. rewrite Hsa. simpl.
    case_bool_decide; [by eexists|].
    destruct (rec_started_at_ms r); [by eexists | done].
  - rewrite Hsa in H.
    destruct (Z.eqb st JOB_RUNNING && bool_decide (rec_started_at_ms r = None)).
    + injection H as <-. lia.
    + apply T4 in H. lia.
  - rewrite Hsa in H.
    destruct (Z.eqb st JOB_RUNNING && bool_decide (rec_started_at_ms r = None)).
    + by injection H as <-.
    + apply T4 in H. lia.
  - rewrite Hfa in H.
    destruct (is_terminal st && bool_decide (rec_finished_at_ms r = None)).
    + injection H as <-. lia.
    + apply T5 in H. lia.
  - rewrite Hfa in H.
    destruct (is_terminal st && bool_decide (rec_finished_at_ms r = None)).
    + by injection H as <-.
    + apply T5 in H. lia.
  - intros t0 Ht0. rewrite Hfa in H. rewrite Hsa in Ht0.
    destruct (is_terminal st) eqn:Hterm; simpl in H.
    + assert (Z.eqb st JOB_RUNNING = false) as Hnr.
      { apply Z.eqb_neq. intros ->. done. }
      rewrite Hnr in Ht0. simpl in Ht0.
      case_bool_decide as Hn.
      * injection H as <-. apply T4 in Ht0. lia.
      * destruct (T5 t H) as [_ H5]. by apply H5.
    + rewrite (Hlive eq_refl) in H. done.
Qed.

Lemma record_origin_times clock s s' id r' :
  stamps_ok clock s ->
  (forall id0 r, job_records s !! id0 = Some r -> times_ok r) ->
  (forall r, job_records s !! id = Some r -> record_step r r') ->
  record_origin clock s s' id r' -> times_ok r'.
Proof.
  intros Hok Hall Hstep [Hsame|[(r & tail & n & Hr & ->)|
                                [(r & st & f & l & mpv & Hr & Hlt & ->)|
                                 (job & Hnone & Hge & Hsub)]]].
  - by eapply Hall.
  - apply times_ok_set_log. by eapply Hall.
  - eapply times_ok_stamped; [done | by eexists | by eapply Hall | by apply Hstep].
  - cbv zeta in Hsub. destruct Hsub as [->|[_ ->]];
      [apply times_ok_submitted|].
    set (r0 := submitted_record job (clock (ticks s)) (clock (S (ticks s)))).
    set (ts := clock (S (S (ticks s)))).
    destruct (merge_update_fields 1 [] (Some "queued")
                (stamp_record JOB_QUEUED ts r0))
      as (Hs & Hcr & Hsa & Hfa & Hlu & _).
    destruct (stamp_record_fields JOB_QUEUED ts r0)
      as (Hs1 & _ & _ & _ & _ & Hsa1 & Hfa1).
    unfold times_ok. rewrite Hs, Hsa, Hfa, Hs1, Hsa1, Hfa1. simpl.
    repeat split; try done; by intros [? ?].
Qed.

(** X21.  The time stamps of a record follow its status, in every run
    under a clock that does not go back: [finished_at_ms] is set exactly
    when the status is terminal; [started_at_ms] is not set while the job
    is PENDING or QUEUED and is set while it is RUNNING; and
    [created_at_ms], [started_at_ms], [finished_at_ms] and
    [last_update_ms] come in this order. *)
Theorem record_times_follow_status clock (s s' : Server) (evs : list Event) :
  (forall n m, (n <= m)%nat -> clock n <= clock m) ->
  reachable clock s ->
  stamps_ok clock s ->
  (forall id r, job_records s !! id = Some r -> times_ok r) ->
  steps clock s evs s' ->
  forall id r, job_records s' !! id = Some r -> times_ok r.
Proof.
  intros Hmono Hinv%reachable_inv Hok Hall Hsteps.
  induction Hsteps as [|s ev s1 effs evs s2 Hstep _ IH]; [done|].
  destruct (step_good clock _ _ _ _ Hinv Hstep) as (Hinv1 & Hrecs & _).
  destruct (step_stamps clock Hmono _ _ _ _ Hinv Hok Hstep) as [Hok1 _].
  destruct (step_origin clock _ _ _ _ Hinv Hstep) as [_ Hor].
  apply IH; [done..|].
  intros id r' Hr'.
  apply (record_origin_times clock s s1 id r' Hok Hall); [|by apply Hor].
  intros r Hr. specialize (Hrecs id). rewrite Hr in Hrecs.
  destruct Hrecs as (r'' & Hr'' & Hrs). congruence.
Qed.

Lemma demo_clock_mono n m : (n <= m)%nat -> demo_clock n <= demo_clock m.
Proof. unfold demo_clock. lia. Qed.

Lemma record_times_follow_status_witness :
  exists s r,
    exec demo_clock
      [EvSubmit demo_job; EvSubmit demo_job2; EvRunJobStart "j1" env_crash;
       EvCancel "j2"; EvRunJobUpdate "j1"; EvRunJobUpdate "j1"] demo_server
    = Some s
    /\ job_records s !! "j1" = Some r
    /\ rec_status r = JOB_ERROR
    /\ times_ok r.
Proof.
  destruct (exec demo_clock
              [EvSubmit demo_job; EvSubmit demo_job2;
               EvRunJobStart "j1" env_crash; EvCancel "j2";
               EvRunJobUpdate "j1"; EvRunJobUpdate "j1"] demo_server)
    as [s|] eqn:Hexec; [|vm_compute in Hexec; discriminate].
  destruct (job_records s !! "j1") as [r|] eqn:Hr;
    [|vm_compute in Hexec; injection Hexec as <-; vm_compute in Hr;
      discriminate].
  exists s, r. split; [done|]. split; [done|]. split.
  - vm_compute in Hexec. injection Hexec as <-. vm_compute in Hr.
    by injection Hr as <-.
  - refine (record_times_follow_status demo_clock demo_server s _
              demo_clock_mono
              (reachable_initial demo_clock demo_server demo_server_initial)
              _ _ (exec_steps _ _ _ _ Hexec) "j1" r Hr).
    + intros id r0 Hr0. simpl in Hr0. by rewrite lookup_empty in Hr0.
    + intros id r0 Hr0. simpl in Hr0. by rewrite lookup_empty in Hr0.
Defined.

(** X22.  In every run under a clock that does not go back, a record
    keeps its [created_at_ms], its [last_update_ms] never decreases, and
    neither of them is ahead of the clock. *)
Theorem record_times_never_go_back clock (s s' : Server) (evs : list Event)
    (id : string) (r r' : JobRecord) :
  (forall n m, (n <= m)%nat -> clock n <= clock m) ->
  reachable clock s ->
  stamps_ok clock s ->
  steps clock s evs s' ->
  job_records s !! id = Some r ->
  job_records s' !! id = Some r' ->
  rec_created_at_ms r' = rec_created_at_ms r
  /\ rec_last_update_ms r <= rec_last_update_ms r'
  /\ rec_created_at_ms r' <= rec_last_update_ms r' <= clock (ticks s').
Proof.
  intros Hmono Hinv%reachable_inv Hok Hsteps. revert r.
  induction Hsteps as [|s ev s1 effs evs s2 Hstep _ IH]; intros r Hr Hr'.
  - rewrite Hr in Hr'. injection Hr' as <-.
    destruct (Hok _ _ Hr). split; [done|]. split; [lia | done].
  - destruct (step_good clock _ _ _ _ Hinv Hstep) as (Hinv1 & Hrecs & _).
    destruct (step_stamps clock Hmono _ _ _ _ Hinv Hok Hstep) as [Hok1 Hs1].
    specialize (Hrecs id). rewrite Hr in Hrecs.
    destruct Hrecs as (r1 & Hr1 & _).
    destruct (Hs1 _ _ _ Hr Hr1) as [Hc1 Hl1].
    destruct (IH Hinv1 Hok1 r1 Hr1 Hr') as (Hc & Hl & Hrest).
    split; [congruence|]. split; [lia | done].
Qed.

Lemma record_times_never_go_back_witness :
  exists s s' r r',
    exec demo_clock [EvSubmit demo_job] demo_server = Some s
    /\ exec demo_clock
         [EvRunJobStart "j1" env_crash; EvRunJobUpdate "j1"] s = Some s'
    /\ job_records s !! "j1" = Some r
    /\ job_records s' !! "j1" = Some r'
    /\ rec_created_at_ms r' = rec_created_at_ms r
    /\ rec_last_update_ms r <= rec_last_update_ms r'.
Proof.
  destruct (exec demo_clock [EvSubmit demo_job] demo_server)
    as [s|] eqn:Hexec; [|vm_compute in Hexec; discriminate].
  destruct (exec demo_clock
              [EvRunJobStart "j1" env_crash; EvRunJobUpdate "j1"] s)
    as [s'|] eqn:Hexec';
    [|vm_compute in Hexec; injection Hexec as <-; vm_compute in Hexec';
      discriminate].
  destruct (job_records s !! "j1") as [r|] eqn:Hr;
    [|vm_compute in Hexec; injection Hexec as <-; vm_compute in Hr;
      discriminate].
  destruct (job_records s' !! "j1") as [r'|] eqn:Hr';
    [|vm_compute in Hexec; injection Hexec as <-; vm_compute in Hexec';
      injection Hexec' as <-; vm_compute in Hr'; discriminate].
  assert (reachable demo_clock s) as Hreach.
  { eapply reachable_steps; [|by apply exec_steps].
    apply reachable_initial, demo_server_initial. }
  assert (stamps_ok demo_clock s) as Hok.
  { eapply (steps_stamps demo_clock demo_clock_mono demo_server);
      [by apply initial_inv, demo_server_initial | | by apply exec_steps].
    intros id r0 Hr0. simpl in Hr0. by rewrite lookup_empty in Hr0. }
  destruct (record_times_never_go_back demo_clock s s' _ "j1" r r'
              demo_clock_mono Hreach Hok (exec_steps _ _ _ _ Hexec') Hr Hr')
    as (Hc & Hl & _).
  by exists s, s', r, r'.
Defined.

Lemma send_job_update_pred clock (P : JobRecord -> Prop) id status fields ll
    s s' effs :
  (forall id0 t1 t2, P (new_record id0 t1 t2)) ->
  (forall r st ts mpv f l, P r -> P (merge_update mpv f l (stamp_record st ts r))) ->
  (forall id0 r, job_records s !! id0 = Some r -> P r) ->
  send_job_update clock id status fields ll s = Done s' effs ->
  forall id0 r, job_records s' !! id0 = Some r -> P r.
Proof.
  intros Hnew Hupd Hs Hdone id' r'.
  apply send_job_update_frame in Hdone as (mpv & _ & _ & Hrec & _).
  rewrite Hrec. destruct (decide (id = id')) as [<-|Hne].
  - rewrite lookup_insert_eq. intros [= <-]. unfold updated_record.
    apply Hupd. unfold record_before.
    destruct (job_records s !! id) eqn:Hr; [by eapply Hs | apply Hnew].
  - rewrite lookup_insert_ne by done. apply Hs.
Qed.

(** A property of records that the creation of a record, an update and
    the reload of the log keep is kept by every atomic piece. *)
Lemma step_records_pred clock (P : JobRecord -> Prop) ev s s' effs :
  (forall id t1 t2, P (new_record id t1 t2)) ->
  (forall job t1 t2, P (submitted_record job t1 t2)) ->
  (forall r st ts mpv f l, P r -> P (merge_update mpv f l (stamp_record st ts r))) ->
  (forall r tail log_tail,
      P r -> 0 < log_tail ->
      P (set_log (deque_of tail (Z.to_nat (Z.max 2000 log_tail)))
           (Z.to_nat (Z.max 2000 log_tail)) r)) ->
  (forall id r, job_records s !! id = Some r -> P r) ->
  step clock ev s = Some (s', effs) ->
  forall id r, job_records s' !! id = Some r -> P r.
Proof.
  intros Hnew Hsub Hupd Hget Hs.
  destruct ev as [job|id|id log_tail tail|k|id env|id|id]; simpl.
  - intros [= Hstep]. revert Hstep. unfold submit_job.
    case_bool_decide; [by intros [= <- <-]|].
    destruct (bool_decide (is_Some (active_jobs s !! job_id job))
              || in_pending (job_id job) (pending s)); [by intros [= <- <-]|].
    set (s1 := set_job_records _ (tick (tick s))).
    assert (forall id r, job_records s1 !! id = Some r -> P r) as Hs1.
    { intros id r. simpl. destruct (decide (job_id job = id)) as [<-|Hne].
      - rewrite lookup_insert_eq. intros [= <-]. apply Hsub.
      - rewrite lookup_insert_ne by done. apply Hs. }
    change (slots_full s1) with (slots_full s).
    destruct (slots_full s).
    + set (s2 := set_pending _ s1).
      destruct (send_job_update clock (job_id job) JOB_QUEUED []
                  (Some "queued") s2) as [s3 effs3|s3] eqn:Hsend.
      * intros [= <- <-].
        exact (send_job_update_pred clock P _ _ _ _ s2 s3 effs3 Hnew Hupd Hs1
                 Hsend).
      * destruct (send_job_update_done clock (job_id job) JOB_QUEUED []
                    (Some "queued") s2 1 eq_refl) as (? & Heq & _).
        congruence.
    + by intros [= <- <-].
  - intros [= Hstep]. revert Hstep. unfold cancel_job.
    destruct (active_jobs s !! id); [by intros [= <- <-]|].
    destruct (in_pending id (pending s)); [|by intros [= <- <-]].
    set (s1 := set_pending _ s).
    destruct (send_job_update clock id JOB_CANCELLED []
                (Some "cancelled (queued)") s1) as [s2 effs2|s2] eqn:Hsend.
    + intros [= <- <-].
      exact (send_job_update_pred clock P _ _ _ _ s1 s2 effs2 Hnew Hupd Hs
               Hsend).
    + destruct (send_job_update_done clock id JOB_CANCELLED []
                  (Some "cancelled (queued)") s1 1 eq_refl) as (? & Heq & _).
      congruence.
  - intros [= <- <-]. unfold job_get_refresh.
    destruct (store s); [|done].
    destruct (job_records s !! id) as [r|] eqn:Hr; [|done].
    destruct (Z.ltb_spec 0 log_tail); [|done].
    intros id' r'. simpl. destruct (decide (id = id')) as [<-|Hne].
    + rewrite lookup_insert_eq. intros [= <-]. apply Hget; [by eapply Hs | done].
    + rewrite lookup_insert_ne by done. apply Hs.
  - intros [= Hstep]. apply resume_origin in Hstep as [_ ->]. done.
  - unfold run_job_start.
    destruct (active_jobs s !! id) as [runner|]; [|done].
    destruct (runner_todo runner); [done|].
    destruct (send_job_update clock id JOB_RUNNING [] (Some "started") s)
      as [s1 effs1|] eqn:Hsend; [|done].
    intros [= <- <-]. simpl.
    exact (send_job_update_pred clock P _ _ _ _ s s1 effs1 Hnew Hupd Hs Hsend).
  - unfold run_job_update.
    destruct (active_jobs s !! id) as [runner|]; [|done].
    destruct (runner_todo runner) as [[|[[status fields] log_line] todo]|];
      [done| |done].
    destruct (send_job_update clock id status fields (Some log_line) s)
      as [s1 effs1|] eqn:Hsend; [|done].
    intros [= <- <-]. simpl.
    exact (send_job_update_pred clock P _ _ _ _ s s1 effs1 Hnew Hupd Hs Hsend).
  - unfold run_job_finish.
    destruct (active_jobs s !! id) as [runner|]; [|done].
    destruct (runner_todo runner) as [[|? ?]|]; [|done..].
    by intros [= <- <-].
Qed.

Lemma steps_records_pred clock (P : JobRecord -> Prop) s evs s' :
  (forall id t1 t2, P (new_record id t1 t2)) ->
  (forall job t1 t2, P (submitted_record job t1 t2)) ->
  (forall r st ts mpv f l, P r -> P (merge_update mpv f l (stamp_record st ts r))) ->
  (forall r tail log_tail,
      P r -> 0 < log_tail ->
      P (set_log (deque_of tail (Z.to_nat (Z.max 2000 log_tail)))
           (Z.to_nat (Z.max 2000 log_tail)) r)) ->
  (forall id r, job_records s !! id = Some r -> P r) ->
  steps clock s evs s' ->
  forall id r, job_records s' !! id = Some r -> P r.
Proof.
  intros Hnew Hsub Hupd Hget Hs Hsteps.
  induction Hsteps as [|s ev s1 effs evs s2 Hstep _ IH]; [done|].
  apply IH. by eapply step_records_pred.
Qed.

Lemma dict_set_elem {K V : Type} `{EqDecision K} (d : list (K * V)) k v kv :
  kv ∈ dict_set k v d -> kv = (k, v) \/ kv ∈ d.
Proof.
  induction d as [|[k0 v0] d IH]; simpl.
  - intros ?%list_elem_of_singleton. by left.
  - case_decide; rewrite !elem_of_cons; [tauto|].
    intros [?|?%IH]; tauto.
Qed.

Lemma merge_update_last_by_mpv mpv f l r :
  rec_last_by_mpv (merge_update mpv f l r)
  = if fields_truthy f
    then dict_set (KInt mpv)
           (dict_set "multipv" (JInt mpv)
              (dict_update (default [] (dict_get (KInt mpv) (rec_last_by_mpv r))) f))
           (rec_last_by_mpv r)
    else rec_last_by_mpv r.
Proof.
  unfold merge_update.
  destruct (fields_truthy f), (dict_get "bestmove" f), l; simpl;
    by rewrite ?(proj2 (proj2 (proj2 (proj2 (proj2 (proj2 (proj2
                  (append_log_fields _ _)))))))).
Qed.

Lemma mpv_tagged_update r st ts mpv f l :
  mpv_tagged r -> mpv_tagged (merge_update mpv f l (stamp_record st ts r)).
Proof.
  intros Hr k e. rewrite merge_update_last_by_mpv, stamp_record_table.
  destruct (fields_truthy f); [|apply Hr].
  intros [[= -> ->]|Hin]%dict_set_elem; [|by apply Hr].
  exists mpv. split; [done | apply dict_get_set_eq].
Qed.

(** X23.  Every entry of the per-multipv table of a record names its own
    key: in every run, the entry under a key holds as [multipv] the
    number that [int()] reads from the key. *)
Theorem table_entries_name_their_key clock (s s' : Server) (evs : list Event) :
  (forall id r, job_records s !! id = Some r -> mpv_tagged r) ->
  steps clock s evs s' ->
  forall id r, job_records s' !! id = Some r -> mpv_tagged r.
Proof.
  intros Hs Hsteps.
  eapply (steps_records_pred clock mpv_tagged); [| | | |exact Hs|exact Hsteps].
  - by intros id t1 t2 k f ?%elem_of_nil.
  - by intros job t1 t2 k f ?%elem_of_nil.
  - intros. by apply mpv_tagged_update.
  - intros r tail log_tail Hr _. exact Hr.
Qed.

Lemma table_entries_name_their_key_witness :
  exists s r,
    exec demo_clock
      [EvSubmit demo_job; EvRunJobStart "j1" env_two_lines;
       EvRunJobUpdate "j1"; EvRunJobUpdate "j1"] demo_server = Some s
    /\ job_records s !! "j1" = Some r
    /\ map fst (rec_last_by_mpv r) = [KInt 1; KInt 2]
    /\ mpv_tagged r.
Proof.
  destruct (exec demo_clock
              [EvSubmit demo_job; EvRunJobStart "j1" env_two_lines;
               EvRunJobUpdate "j1"; EvRunJobUpdate "j1"] demo_server)
    as [s|] eqn:Hexec; [|vm_compute in Hexec; discriminate].
  destruct (job_records s !! "j1") as [r|] eqn:Hr;
    [|vm_compute in Hexec; injection Hexec as <-; vm_compute in Hr;
      discriminate].
  exists s, r. split; [done|]. split; [done|]. split.
  - vm_compute in Hexec. injection Hexec as <-. vm_compute in Hr.
    by injection Hr as <-.
  - refine (table_entries_name_their_key demo_clock demo_server s _ _
              (exec_steps _ _ _ _ Hexec) "j1" r Hr).
    intros id r0 Hr0. simpl in Hr0. by rewrite lookup_empty in Hr0.
Defined.

Lemma stamp_record_log st ts r :
  rec_log (stamp_record st ts r) = rec_log r
  /\ rec_log_maxlen (stamp_record st ts r) = rec_log_maxlen r.
Proof.
  unfold stamp_record.
  destruct (Z.eqb st JOB_RUNNING && _), (is_terminal st && _); done.
Qed.

Lemma log_bounded_append l r : log_bounded r -> log_bounded (append_log l r).
Proof.
  intros [Hlen Hmax]. unfold append_log, log_bounded.
  destruct (str_is_empty l); [done|]. simpl.
  rewrite last_n_length. lia.
Qed.

Lemma log_bounded_update r st ts mpv f l :
  log_bounded r -> log_bounded (merge_update mpv f l (stamp_record st ts r)).
Proof.
  intros Hr.
  assert (log_bounded (stamp_record st ts r)) as Hr1.
  { unfold log_bounded. by destruct (stamp_record_log st ts r) as [-> ->]. }
  revert Hr1. generalize (stamp_record st ts r). clear Hr. intros r1 Hr1.
  unfold merge_update.
  destruct (fields_truthy f), (dict_get "bestmove" f), l;
    try apply log_bounded_append; done.
Qed.

(** X24.  The log of a record stays bounded: in every run it holds no
    more lines than its [maxlen], which is 2000 or, after a [job_get]
    that asked for more, the number asked for. *)
Theorem record_log_stays_bounded clock (s s' : Server) (evs : list Event) :
  (forall id r, job_records s !! id = Some r -> log_bounded r) ->
  steps clock s evs s' ->
  forall id r, job_records s' !! id = Some r -> log_bounded r.
Proof.
  intros Hs Hsteps.
  eapply (steps_records_pred clock log_bounded); [| | | |exact Hs|exact Hsteps].
  - intros. split; simpl; lia.
  - intros. split; simpl; lia.
  - intros. by apply log_bounded_update.
  - intros r tail log_tail _ Hlt. unfold log_bounded, deque_of. simpl.
    rewrite last_n_length. lia.
Qed.

Lemma record_log_stays_bounded_witness :
  exists s r,
    exec demo_clock
      [EvSubmit demo_job; EvRunJobStart "j1" env_two_lines;
       EvRunJobUpdate "j1"; EvJobGet "j1" 3000 ["started"]] demo_server = Some s
    /\ job_records s !! "j1" = Some r
    /\ rec_log_maxlen r = 3000%nat
    /\ log_bounded r.
Proof.
  destruct (exec demo_clock
              [EvSubmit demo_job; EvRunJobStart "j1" env_two_lines;
               EvRunJobUpdate "j1"; EvJobGet "j1" 3000 ["started"]] demo_server)
    as [s|] eqn:Hexec; [|vm_compute in Hexec; discriminate].
  destruct (job_records s !! "j1") as [r|] eqn:Hr;
    [|vm_compute in Hexec; injection Hexec as <-; vm_compute in Hr;
      discriminate].
  exists s, r. split; [done|]. split; [done|]. split.
  - vm_compute in Hexec. injection Hexec as <-. vm_compute in Hr.
    by injection Hr as <-.
  - refine (record_log_stays_bounded demo_clock demo_server s _ _
              (exec_steps _ _ _ _ Hexec) "j1" r Hr).
    intros id r0 Hr0. simpl in Hr0. by rewrite lookup_empty in Hr0.
Defined.






(** ** Lines written and read back *)

Lemma string_app_assoc' (a b c : string) : (a +:+ b) +:+ c = a +:+ (b +:+ c).
Proof.
  induction a as [|x a IH]; [done|].
  change (String x ((a +:+ b) +:+ c) = String x (a +:+ (b +:+ c))).
  by rewrite IH.
Qed.

Lemma string_app_nil_r (a : string) : a +:+ EmptyString = a.
Proof.
  induction a as [|x a IH]; [done|].
  change (String x (a +:+ EmptyString) = String x a). by rewrite IH.
Qed.

Lemma str_is_empty_app (a b : string) :
  str_is_empty (a +:+ b) = str_is_empty a && str_is_empty b.
Proof. by destruct a. Qed.

(** A run without white space is read into the token under way. *)
Lemma py_split_from_run (tok cur rest : string) :
  no_space tok = true ->
  py_split_from cur (tok +:+ rest) = py_split_from (cur +:+ tok) rest.
Proof.
  revert cur. induction tok as [|c tok IH]; intros cur Hns.
  - change (EmptyString +:+ rest) with rest. by rewrite string_app_nil_r.
  - change (String c tok +:+ rest) with (String c (tok +:+ rest)).
    cbn [no_space] in Hns. apply andb_prop in Hns as [Hc Hns].
    apply negb_true_iff in Hc. cbn [py_split_from]. rewrite Hc, IH by done.
    rewrite string_app_assoc'. done.
Qed.

Lemma py_split_join (toks : list string) :
  Forall (fun t => is_token t = true) toks ->
  py_split (py_join " " toks) = toks.
Proof.
  unfold py_split. induction 1 as [|tok toks Htok Htoks IH]; [done|].
  unfold is_token in Htok. apply andb_prop in Htok as [Hne Hns].
  apply negb_true_iff in Hne.
  destruct toks as [|tok' toks].
  - change (py_join " " [tok]) with tok.
    rewrite <- (string_app_nil_r tok) at 1.
    rewrite py_split_from_run by done.
    change (EmptyString +:+ tok) with tok. cbn [py_split_from].
    by rewrite Hne.
  - change (py_join " " (tok :: tok' :: toks))
      with (tok +:+ " " +:+ py_join " " (tok' :: toks)).
    rewrite py_split_from_run by done.
    change (EmptyString +:+ tok) with tok.
    change (" " +:+ ?s) with (String " " s).
    cbn [py_split_from].
    change (py_isspace " ") with true. cbv iota. rewrite Hne.
    f_equal. exact IH.
Qed.

Lemma no_space_uint d : no_space (NilZero.string_of_uint d) = true.
Proof.
  assert (forall d, no_space (NilEmpty.string_of_uint d) = true) as Hd.
  { clear d. induction d; simpl; [done | exact IHd ..]. }
  destruct d; try apply Hd. done.
Qed.

Lemma py_str_int_token (z : Z) : is_token (py_str_int z) = true.
Proof.
  unfold is_token. apply andb_true_intro. split.
  - pose proof (py_int_str_int z) as Hz.
    by destruct (py_str_int z).
  - unfold py_str_int. destruct (Z.to_int z); simpl; apply no_space_uint.
Qed.

Lemma numeric_keyword_token k : numeric_keyword k -> is_token k = true.
Proof.
  unfold numeric_keyword. rewrite !elem_of_cons, elem_of_nil.
  intros [->|[->|[->|[->|[->|[]]]]]]; reflexivity.
Qed.

Lemma item_tokens_are_tokens i :
  item_ok i -> Forall (fun t => is_token t = true) (item_tokens i).
Proof.
  destruct i as [k z|z|z]; simpl; intros Hok.
  - repeat constructor; [by apply numeric_keyword_token | apply py_str_int_token].
  - repeat constructor. apply py_str_int_token.
  - repeat constructor. apply py_str_int_token.
Qed.

Lemma info_tokens_are_tokens items moves :
  Forall item_ok items ->
  Forall (fun m => is_token m = true) moves ->
  Forall (fun t => is_token t = true) (info_tokens items moves).
Proof.
  intros Hitems Hmoves. unfold info_tokens. constructor; [done|].
  apply Forall_app. split.
  - induction Hitems as [|i items Hi _ IH]; simpl; [done|].
    apply Forall_app. split; [by apply item_tokens_are_tokens | done].
  - destruct moves; [done|]. by constructor.
Qed.

Lemma parse_info_items items tail out :
  Forall item_ok items ->
  parse_info_tokens (flat_map item_tokens items ++ tail) out
  = parse_info_tokens tail (dict_update out (map item_field items)).
Proof.
  intros Hitems. revert out.
  induction Hitems as [|i items Hi _ IH]; intros out; [done|].
  cbn [flat_map]. rewrite <- app_assoc.
  destruct i as [k z|z|z]; cbn [item_tokens app item_ok] in *.
  - rewrite parse_numeric by done. rewrite py_int_str_int. simpl. by rewrite IH.
  - rewrite parse_score. simpl String.eqb. rewrite py_int_str_int. simpl.
    by rewrite IH.
  - rewrite parse_score. simpl String.eqb. rewrite py_int_str_int. simpl.
    by rewrite IH.
Qed.

(** X26.  An [info] line written from items and moves is read back as
    written: [parse_info_line] gives every number under its key, a later
    item of a key replacing an earlier one, and the moves, joined again,
    under [pv]; without moves there is no [pv]. *)
Theorem parse_info_line_reads_what_was_written
    (items : list InfoItem) (moves : list string) :
  Forall item_ok items ->
  Forall (fun m => is_token m = true) moves ->
  let out := dict_update [] (map item_field items) in
  parse_info_line (py_join " " (info_tokens items moves))
  = Some (match moves with
          | [] => out
          | _ :: _ => dict_set "pv" (JStr (py_join " " moves)) out
          end).
Proof.
  intros Hitems Hmoves out. subst out. unfold parse_info_line.
  rewrite py_split_join by (by apply info_tokens_are_tokens).
  unfold info_tokens.
  rewrite parse_skip
    by (unfold is_keyword; rewrite !not_elem_of_cons; split_and!; try done;
        apply not_elem_of_nil).
  rewrite parse_info_items by done.
  destruct moves as [|m moves]; [done|]. apply parse_pv.
Qed.

Lemma parse_info_line_reads_what_was_written_witness :
  parse_info_line "info depth 12 multipv 2 score cp -31 nodes 5000 pv e2e4 e7e5"
  = Some [("depth", JInt 12); ("multipv", JInt 2); ("score_cp", JInt (-31));
          ("nodes", JInt 5000); ("pv", JStr "e2e4 e7e5")].
Proof.
  apply (parse_info_line_reads_what_was_written
           [ItemNum "depth" 12; ItemNum "multipv" 2; ItemScoreCp (-31);
            ItemNum "nodes" 5000] ["e2e4"; "e7e5"]).
  - repeat constructor; unfold item_ok, numeric_keyword; set_solver.
  - by repeat constructor.
Defined.

(** X27.  A [bestmove] line written from tokens is read back:
    [parse_bestmove_line] gives the token after the first one as the
    best move, whatever follows it; a line of one token gives
    nothing. *)
Theorem parse_bestmove_line_reads_the_move
    (head move : string) (rest : list string) :
  Forall (fun t => is_token t = true) (head :: move :: rest) ->
  parse_bestmove_line (py_join " " (head :: move :: rest))
  = [("bestmove", JStr move)]
  /\ parse_bestmove_line head = [].
Proof.
  intros Htoks. unfold parse_bestmove_line. split.
  - by rewrite py_split_join.
  - assert (py_split head = [head]) as ->; [|done].
    apply (py_split_join [head]). constructor; [|done]. by inversion Htoks.
Qed.

Lemma parse_bestmove_line_reads_the_move_witness :
  parse_bestmove_line "bestmove e2e4 ponder e7e5" = [("bestmove", JStr "e2e4")]
  /\ parse_bestmove_line "bestmove" = [].
Proof.
  apply (parse_bestmove_line_reads_the_move "bestmove" "e2e4" ["ponder"; "e7e5"]).
  by repeat constructor.
Defined.

(** ** Requests *)

Lemma fetch_log_tail_length id n db :
  0 <= n -> (length (fetch_log_tail id n db) <= Z.to_nat n)%nat.
Proof.
  intros Hn. unfold fetch_log_tail, sql_limit.
  destruct (Z.ltb_spec n 0) as [?|_]; [lia|].
  rewrite length_rev, length_map, length_take. lia.
Qed.

Lemma job_get_log_tail_range v n :
  job_get_log_tail v = Some n -> 0 <= n <= 20000.
Proof.
  unfold job_get_log_tail. destruct (int_or_default v 2000) as [m|]; [|done].
  simpl. intros [= <-]. lia.
Qed.

(** X28.  A [job_get] request for a job the server knows is answered
    with the view of its record and with [log_tail] lines at most, a
    number between 0 and 20000.  With a store these are the latest lines
    of the job in the store; without one, the last lines of the log in
    memory.  A request whose [log_tail] comes out as 0, a negative one,
    is answered with the whole log in memory, and the server is as
    before.  For a job the server does not know the answer is [None]. *)
Theorem job_get_serves_the_log_tail (id : string) (v : option Json)
    (s s' : Server) (reply : Reply) :
  id <> EmptyString ->
  handle_job_get id v s = Some (s', reply) ->
  exists n,
    job_get_log_tail v = Some n
    /\ 0 <= n <= 20000
    /\ (job_records s !! id = None -> s' = s /\ reply = JobState None)
    /\ forall r, job_records s !! id = Some r ->
         exists view,
           reply = JobState (Some view)
           /\ view_id view = rec_job_id r
           /\ view_status view = rec_status r
           /\ (n = 0 -> s' = s /\ view_log_tail view = rec_log r)
           /\ (0 < n ->
               (length (view_log_tail view) <= Z.to_nat n)%nat
               /\ match store s with
                  | Some db => view_log_tail view = fetch_log_tail id n db
                  | None =>
                      s' = s
                      /\ view_log_tail view = last_n (Z.to_nat n) (rec_log r)
                  end).
Proof.
  intros Hid Hget. unfold handle_job_get in Hget.
  destruct (str_is_empty id) eqn:He; [by destruct id|].
  destruct (job_get_log_tail v) as [n|] eqn:Hn; [|done].
  pose proof (job_get_log_tail_range v n Hn) as Hrange.
  simpl in Hget. injection Hget as <- <-.
  exists n. split; [done|]. split; [done|].
  unfold job_get_refresh. split.
  - intros Hnone. destruct (store s) as [db|]; rewrite ?Hnone; by split.
  - intros r Hr. destruct (store s) as [db|] eqn:Hdb; rewrite ?Hr.
    + destruct (Z.ltb_spec 0 n) as [Hpos|Hzero].
      * simpl. eexists. rewrite lookup_insert_eq. simpl. split; [done|].
        simpl. split; [done|]. split; [done|]. split; [lia|]. intros _.
        pose proof (fetch_log_tail_length id n db (proj1 Hrange)) as Hlen.
        assert (log_slice n
                  (deque_of (fetch_log_tail id n db)
                     (Z.to_nat (Z.max 2000 n)))
                = fetch_log_tail id n db) as ->; [|done].
        unfold log_slice, deque_of.
        destruct (Z.ltb_spec 0 n) as [_|?]; [|lia].
        rewrite (last_n_all (Z.to_nat (Z.max 2000 n))) by lia.
        by apply last_n_all.
      * simpl. eexists. rewrite Hr. simpl. split; [done|].
        simpl. split; [done|]. split; [done|].
        split; [|lia]. intros _. split; [done|].
        assert (n = 0) as -> by lia. done.
    + simpl. eexists. split; [done|].
      simpl. split; [done|]. split; [done|]. split.
      * intros ->. done.
      * intros Hpos. unfold log_slice.
        destruct (Z.ltb_spec 0 n) as [_|?]; [|lia].
        rewrite last_n_length. split; [lia | done].
Qed.

Lemma job_get_serves_the_log_tail_witness :
  exists s' view,
    handle_job_get "j1" (Some (JNum 1)) (set_job_records {[ "j1" := demo_record ]}
       (set_store (Some demo_log_db) demo_server))
    = Some (s', JobState (Some view))
    /\ view_log_tail view = ["info depth 1"].
Proof.
  destruct (handle_job_get "j1" (Some (JNum 1))
              (set_job_records {[ "j1" := demo_record ]}
       (set_store (Some demo_log_db) demo_server)))
    as [[s' reply]|] eqn:Hget; [|vm_compute in Hget; discriminate].
  destruct (job_get_serves_the_log_tail "j1" (Some (JNum 1)) _ s' reply
              ltac:(done) Hget) as (n & Hn & _ & _ & Hknown).
  vm_compute in Hn. injection Hn as <-.
  destruct (Hknown demo_record ltac:(vm_compute; reflexivity))
    as (view & -> & _ & _ & _ & Hpos).
  destruct (Hpos ltac:(lia)) as [_ Htail].
  exists s', view. split; [done|]. exact Htail.
Defined.

Lemma insert_created_desc_perm r recs : insert_created_desc r recs ≡ₚ r :: recs.
Proof.
  induction recs as [|x recs IH]; simpl; [done|].
  destruct (rec_created_at_ms r <? rec_created_at_ms x); [|done].
  rewrite IH. apply Permutation_swap.
Qed.

Lemma insert_created_desc_sorted r recs :
  StronglySorted (fun a b => rec_created_at_ms b <= rec_created_at_ms a) recs ->
  StronglySorted (fun a b => rec_created_at_ms b <= rec_created_at_ms a)
    (insert_created_desc r recs).
Proof.
  induction 1 as [|x recs Hs IH Hx]; simpl; [by repeat constructor|].
  destruct (Z.ltb_spec (rec_created_at_ms r) (rec_created_at_ms x)) as [Hlt|Hge].
  - constructor; [done|].
    rewrite insert_created_desc_perm. constructor; [lia | done].
  - constructor; [by constructor|]. constructor; [lia|].
    eapply Forall_impl; [exact Hx|]. simpl. intros; lia.
Qed.

(** The sort is stable: the records of one key are in the order they had. *)
Lemma insert_created_desc_stable c r recs :
  filter (fun x => rec_created_at_ms x = c) (insert_created_desc r recs)
  = filter (fun x => rec_created_at_ms x = c) (r :: recs).
Proof.
  induction recs as [|x recs IH]; simpl; [done|].
  destruct (Z.ltb_spec (rec_created_at_ms r) (rec_created_at_ms x)) as [Hlt|Hge];
    [|done].
  rewrite !filter_cons in *.
  destruct (decide (rec_created_at_ms x = c)) as [Hx|Hx],
           (decide (rec_created_at_ms r = c)) as [Hr|Hr];
    try lia; by rewrite IH.
Qed.

Lemma sort_created_desc_spec recs :
  sort_created_desc recs ≡ₚ recs
  /\ StronglySorted (fun a b => rec_created_at_ms b <= rec_created_at_ms a)
       (sort_created_desc recs)
  /\ forall c, filter (fun x => rec_created_at_ms x = c) (sort_created_desc recs)
               = filter (fun x => rec_created_at_ms x = c) recs.
Proof.
  unfold sort_created_desc.
  induction recs as [|r recs (IHp & IHs & IHf)]; simpl.
  - split; [done|]. split; [constructor | done].
  - split; [by rewrite insert_created_desc_perm, IHp|].
    split; [by apply insert_created_desc_sorted|].
    intros c. rewrite insert_created_desc_stable, !filter_cons, IHf. done.
Qed.

(** X29.  A [jobs_list] request is answered with the views of the
    newest jobs: the records, without the finished ones if
    [include_finished] is false, are sorted by time of creation, the
    newest first and those of one time in the order of the table, and the
    first [limit] of them are shown, none if [limit] is negative; a
    [limit] that is missing or 0 is 200. *)
Theorem jobs_list_shows_the_newest (include_finished limit : option Json)
    (recs : list JobRecord) (reply : Reply) :
  handle_jobs_list include_finished limit recs = Some reply ->
  let candidates :=
    if match include_finished with Some v => py_truthy v | None => true end
    then recs
    else filter (fun r => is_terminal (rec_status r) = false) recs in
  exists n shown rest,
    int_or_default limit 200 = Some n
    /\ (limit = None \/ limit = Some (JNum 0) -> n = 200)
    /\ reply = JobsList (map (fun r => _record_to_dict r 200) shown)
    /\ length shown = Nat.min (Z.to_nat n) (length candidates)
    /\ shown ++ rest ≡ₚ candidates
    /\ StronglySorted (fun a b => rec_created_at_ms b <= rec_created_at_ms a)
         (shown ++ rest)
    /\ forall c, filter (fun r => rec_created_at_ms r = c) (shown ++ rest)
                 = filter (fun r => rec_created_at_ms r = c) candidates.
Proof.
  intros Hlist candidates. unfold handle_jobs_list in Hlist.
  destruct (int_or_default limit 200) as [n|] eqn:Hn; [|done].
  simpl in Hlist. injection Hlist as <-.
  fold candidates.
  destruct (sort_created_desc_spec candidates) as (Hp & Hs & Hf).
  exists n, (take (Z.to_nat (Z.max 0 n)) (sort_created_desc candidates)),
    (drop (Z.to_nat (Z.max 0 n)) (sort_created_desc candidates)).
  rewrite take_drop. split; [done|]. split.
  { intros [->| ->]; vm_compute in Hn; by injection Hn as <-. }
  split; [done|]. split; [|done].
  rewrite length_take, Hp. lia.
Qed.

Lemma jobs_list_shows_the_newest_witness :
  exists shown,
    handle_jobs_list (Some (JBool false)) (Some (JNum 1))
      [demo_record; set_status JOB_FINISHED demo_record]
    = Some (JobsList (map (fun r => _record_to_dict r 200) shown))
    /\ length shown = 1%nat.
Proof.
  destruct (handle_jobs_list (Some (JBool false)) (Some (JNum 1))
              [demo_record; set_status JOB_FINISHED demo_record])
    as [reply|] eqn:Hlist; [|vm_compute in Hlist; discriminate].
  destruct (jobs_list_shows_the_newest _ _ _ reply Hlist)
    as (n & shown & rest & Hn & _ & -> & Hlen & _).
  exists shown. split; [done|].
  vm_compute in Hn. injection Hn as <-. rewrite Hlen. reflexivity.
Defined.

(** X30.  A [job_submit_or_update] request without an id or without a
    position is dropped, whatever its other members are.  With both, the
    job is the one of the request; a missing [limit_type] is 0, a missing
    [limit_value] 30, a [multipv] that is missing, 0 or [null] is 1,
    while a [limit_type] or a [limit_value] that is [null] makes [int()]
    raise. *)
Theorem job_submit_request_outcomes (id opponent fen : string)
    (limit_type limit_value multipv : option Json) :
  let result :=
    handle_job_submit id opponent fen limit_type limit_value multipv in
  (result = Some None <-> id = EmptyString \/ fen = EmptyString)
  /\ (forall job, result = Some (Some job) ->
        job_id job = id /\ job_opponent job = opponent /\ job_fen job = fen
        /\ (limit_type = None -> job_limit_type job = 0)
        /\ (limit_value = None -> job_limit_value job = 30)
        /\ (multipv = None \/ multipv = Some (JNum 0) \/ multipv = Some JNull ->
            job_multipv job = 1))
  /\ (id <> EmptyString -> fen <> EmptyString ->
      limit_type = Some JNull \/ limit_value = Some JNull -> result = None).
Proof.
  unfold handle_job_submit. cbv zeta.
  destruct id as [|c id]; [by split_and!; [split; [left|] | |] |].
  destruct fen as [|c' fen]; [by split_and!; [split; [right|] | |] |].
  cbn [str_is_empty orb]. split_and!.
  - split; [|by intros [?|?]].
    destruct (py_int_of (default (JNum 0) limit_type)); [|done].
    destruct (py_int_of (default (JNum 30) limit_value)); [|done].
    destruct (int_or_default multipv 1); done.
  - intros job.
    destruct (py_int_of (default (JNum 0) limit_type)) as [lt|] eqn:Hlt; [|done].
    destruct (py_int_of (default (JNum 30) limit_value)) as [lv|] eqn:Hlv;
      [|done].
    destruct (int_or_default multipv 1) as [mpv|] eqn:Hmpv; [|done].
    simpl. intros [= <-]. simpl. split_and!; try done.
    + intros ->. simpl in Hlt. congruence.
    + intros ->. simpl in Hlv. congruence.
    + intros [->|[->| ->]]; vm_compute in Hmpv; congruence.
  - intros _ _ [->| ->]; [done|].
    by destruct (py_int_of (default (JNum 0) limit_type)).
Qed.
